(** * The PostgreSQL migration runner ([db/migrate.py])

    A shallow embedding of the migration runner and the proofs of its
    ordering, mode-selection and failure-handling properties.

    Conventions of the model.
    - A Python [str] is a [string]; the model covers ASCII text, where
      [str.upper] maps [a-z] to [A-Z], and both [str.strip] and the regular
      expression class [\s] mean the ten code points 9-13, 28-31 and 32, and
      [\w] means [[A-Za-z0-9_]].
    - A [Path] is a record of its [name] and of the text [read_text] returns.
    - A Python [set] of strings is a [gset string]; the order in which a
      [for] loop enumerates it is left open (class [SetIteration]).
    - The cursor and its connection are an external collaborator: every call
      on them is appended to a trace, and an oracle decides, from the calls
      made so far, whether the call at hand raises [psycopg2.Error].
      Connecting, executing a statement and committing may raise; opening
      and closing a cursor, fetching rows, setting the isolation level and
      closing the connection are taken to return.
    - Reading a file is taken to return its text.
    - [topological_sort] is the function on a stack that has room for all
      its nested calls; the interpreter's bound on the depth of recursion
      is the subject of [topological_sort_within]. *)

From Stdlib Require Import Ascii String ZArith Relations.
From stdpp Require Import gmap strings list sorting pretty.


(** ** Python string primitives *)

Module PyStr.

(** [str.isspace] on one ASCII code point (also the class [\s]). *)
Definition is_space (c : ascii) : bool :=
  let n := nat_of_ascii c in
  ((9 <=? n) && (n <=? 13)) || ((28 <=? n) && (n <=? 32)).

(** The class [\w] on ASCII. *)
Definition is_word (c : ascii) : bool :=
  let n := nat_of_ascii c in
  ((48 <=? n) && (n <=? 57)) || ((65 <=? n) && (n <=? 90))
  || (n =? 95) || ((97 <=? n) && (n <=? 122)).

Definition upper_char (c : ascii) : ascii :=
  let n := nat_of_ascii c in
  if (97 <=? n) && (n <=? 122) then ascii_of_nat (n - 32) else c.

Definition lower_char (c : ascii) : ascii :=
  let n := nat_of_ascii c in
  if (65 <=? n) && (n <=? 90) then ascii_of_nat (n + 32) else c.

Fixpoint map_chars (f : ascii → ascii) (s : string) : string :=
  match s with
  | EmptyString => EmptyString
  | String c r => String (f c) (map_chars f r)
  end.

(** [s.upper()] and [s.lower()]. *)
Definition upper : string → string := map_chars upper_char.
Definition lower : string → string := map_chars lower_char.

(** [s.startswith(pre)]. *)
Definition startswith (pre s : string) : bool := String.prefix pre s.

(** [needle in hay]. *)
Fixpoint contains (needle hay : string) : bool :=
  startswith needle hay ||
  match hay with
  | EmptyString => false
  | String _ r => contains needle r
  end.

(** [s.split(sep)] for a one-character separator. *)
Fixpoint split (sep : ascii) (s : string) : list string :=
  match s with
  | EmptyString => [EmptyString]
  | String c r =>
      if decide (c = sep) then EmptyString :: split sep r
      else match split sep r with
           | h :: t => String c h :: t
           | [] => [String c EmptyString]
           end
  end.

Fixpoint lstrip (s : string) : string :=
  match s with
  | EmptyString => EmptyString
  | String c r => if is_space c then lstrip r else s
  end.

Fixpoint rstrip (s : string) : string :=
  match s with
  | EmptyString => EmptyString
  | String c r =>
      match rstrip r with
      | EmptyString => if is_space c then EmptyString else String c EmptyString
      | r' => String c r'
      end
  end.

(** [s.strip()]. *)
Definition strip (s : string) : string := rstrip (lstrip s).

(** The longest prefix of [s] whose characters satisfy [p], and the rest. *)
Fixpoint span (p : ascii → bool) (s : string) : string * string :=
  match s with
  | EmptyString => (EmptyString, EmptyString)
  | String c r =>
      if p c then let '(a, b) := span p r in (String c a, b)
      else (EmptyString, s)
  end.

(** What is left of [s] after the prefix [pre], when [s] starts with it. *)
Fixpoint strip_prefix (pre s : string) : option string :=
  match pre, s with
  | EmptyString, _ => Some s
  | String a pre', String b s' =>
      if decide (a = b) then strip_prefix pre' s' else None
  | String _ _, EmptyString => None
  end.

End PyStr.

(** ** Data model *)

(** A migration file: the [Path.name] of a [Path] and what [read_text]
    returns for it. *)
Record file := File { name : string; content : string }.

Global Instance file_eq_dec : EqDecision file.
Proof. solve_decision. Defined.

(** The order in which iterating over a Python [set] enumerates it: some
    arrangement of its elements, not fixed by the language. *)
Class SetIteration := {
  iter : gset string → list string;
  iter_perm : ∀ X, iter X ≡ₚ elements X
}.

(** One possible order. *)
Definition elements_iteration : SetIteration :=
  {| iter := elements; iter_perm := λ X, reflexivity (elements X) |}.

(** ** Content inspection *)

Definition AUTOCOMMIT_STATEMENTS : list string :=
  ["CREATE DATABASE"; "DROP DATABASE"; "CREATE TABLESPACE";
   "DROP TABLESPACE"; "ALTER SYSTEM"].

(** The pattern [REFERENCES\s+(\w+)] anchored at the start of [s]: the
    captured group.  The classes [\s] and [\w] are disjoint, so the greedy
    [\s+] followed by [\w+] matches exactly when a non-empty run of white
    space is followed by a word character, and the group is the maximal run
    of word characters. *)
Definition match_references_at (s : string) : option string :=
  match PyStr.strip_prefix "REFERENCES" s with
  | None => None
  | Some r =>
      let '(ws, r') := PyStr.span PyStr.is_space r in
      let '(w, _) := PyStr.span PyStr.is_word r' in
      if decide (ws = "") then None
      else if decide (w = "") then None
      else Some w
  end.

(** [re.search(r'REFERENCES\s+(\w+)', line)], group 1 of the leftmost
    match. *)
Fixpoint re_search_references (line : string) : option string :=
  match match_references_at line with
  | Some w => Some w
  | None =>
      match line with
      | EmptyString => None
      | String _ r => re_search_references r
      end
  end.

Definition get_table_references (sql_content : string) : gset string :=
  foldl
    (λ references line,
       if PyStr.contains "REFERENCES" line then
         match re_search_references line with
         | Some m => {[ m ]} ∪ references
         | None => references
         end
       else references)
    ∅ (PyStr.split "010"%char sql_content).

Definition has_transaction_block (sql_content : string) : bool :=
  let sql_upper := PyStr.strip (PyStr.upper sql_content) in
  PyStr.startswith "BEGIN" sql_upper
  || PyStr.contains "BEGIN;" sql_upper
  || PyStr.startswith "START TRANSACTION" sql_upper.

Definition requires_autocommit (sql_content : string) : bool :=
  let sql_upper := PyStr.upper sql_content in
  existsb (λ stmt, PyStr.contains stmt sql_upper) AUTOCOMMIT_STATEMENTS.

(** ** Ordering: [topological_sort] *)

(** [sorted(migration_files, key=lambda f: f.name)]: Python's sort is
    stable, and so is this insertion sort (an element is placed before the
    first element whose name is not smaller). *)
Fixpoint insert_by_name (f : file) (l : list file) : list file :=
  match l with
  | [] => [f]
  | g :: l' =>
      if String.leb (name f) (name g) then f :: l
      else g :: insert_by_name f l'
  end.

Definition sorted_by_name (l : list file) : list file :=
  foldr insert_by_name [] l.

(** A loop whose body may fail: [for x in l: body(x)]. *)
Fixpoint for_each {A S : Type} (body : A → S → option S) (l : list A) (s : S)
  : option S :=
  match l with
  | [] => Some s
  | x :: l' =>
      match body x s with
      | Some s' => for_each body l' s'
      | None => None
      end
  end.

(** The two mutable locals of [topological_sort] that [visit] closes
    over. *)
Record dfs_state := Dfs { visited : gset string; result : list file }.

Section TopologicalSort.

Context `{SetIteration}.

(** The sorted list of files and the dictionary built from it, both fixed
    while [visit] runs. *)
Variable migration_files : list file.
Variable dependencies : gmap string (gset string).

(** [next((f for f in migration_files if f.name.startswith(dep_table)), None)] *)
Definition find_dep_file (dep_table : string) : option file :=
  List.find (λ f, PyStr.startswith dep_table (name f)) migration_files.

(** [next(f for f in migration_files if f.name == filename)]; [None]
    stands for the [StopIteration] of an exhausted generator. *)
Definition find_file (filename : string) : option file :=
  List.find (λ f, bool_decide (name f = filename)) migration_files.

(** [dependencies.get(filename, [])], in iteration order. *)
Definition deps_of (filename : string) : list string :=
  match dependencies !! filename with
  | Some refs => iter refs
  | None => []
  end.

(** The nested function [visit].  Python recurses without a bound; here
    [fuel] bounds the depth and [None] means that it ran out (or that
    [find_file] found nothing). *)
Fixpoint visit (fuel : nat) (filename : string) (st : dfs_state)
  : option dfs_state :=
  match fuel with
  | 0 => None
  | S fuel' =>
      if decide (filename ∈ visited st) then Some st
      else
        let st1 := Dfs ({[ filename ]} ∪ visited st) (result st) in
        match
          for_each
            (λ dep_table st',
               match find_dep_file dep_table with
               | Some dep_file => visit fuel' (name dep_file) st'
               | None => Some st'
               end)
            (deps_of filename) st1
        with
        | None => None
        | Some st2 =>
            match find_file filename with
            | Some f => Some (Dfs (visited st2) (result st2 ++ [f]))
            | None => None
            end
        end
  end.

End TopologicalSort.

(** The dictionary [dependencies]: a later file of the same name
    overwrites the entry of an earlier one. *)
Definition build_dependencies (migration_files : list file)
  : gmap string (gset string) :=
  foldl (λ d f, <[ name f := get_table_references (content f) ]> d)
        ∅ migration_files.

(** [topological_sort].  The depth of the recursion never exceeds the
    number of files, so that many units of fuel (and one more) are enough,
    as is proved below. *)
Definition topological_sort `{SetIteration} (migration_files : list file)
  : option (list file) :=
  let migration_files := sorted_by_name migration_files in
  let dependencies := build_dependencies migration_files in
  match
    for_each
      (λ f st, visit migration_files dependencies
                 (S (length migration_files)) (name f) st)
      migration_files (Dfs ∅ [])
  with
  | Some st => Some (result st)
  | None => None
  end.

Definition names (l : list file) : list string := name <$> l.

(** ** The connection, the cursor and the process: effects *)

(** The exceptions that occur: [psycopg2.Error], some other exception of
    class [Exception], and [SystemExit] (raised by [sys.exit], a
    [BaseException] that is not an [Exception]). *)
Inductive exn :=
| Psycopg2Error (msg : string)
| RuntimeError (msg : string)
| SystemExit (code : Z).

Definition is_Exception (e : exn) : bool :=
  match e with SystemExit _ => false | _ => true end.

Definition is_psycopg2_Error (e : exn) : bool :=
  match e with Psycopg2Error _ => true | _ => false end.

(** [str(e)], as the f-strings of the log messages print it. *)
Definition exn_text (e : exn) : string :=
  match e with
  | Psycopg2Error msg | RuntimeError msg => msg
  | SystemExit code => pretty code
  end.

(** The calls made on the connection and on its cursor.  [Execute sql []]
    is [cursor.execute(sql)], without parameters. *)
Inductive db_call :=
| Connect (dsn : string)
| OpenCursor
| Execute (sql : string) (params : list string)
| FetchAll
| Commit
| SetIsolationLevel (level : option Z)
| CloseCursor
| CloseConnection.

Global Instance db_call_eq_dec : EqDecision db_call.
Proof. solve_decision. Defined.

(** A call together with how it ended: [None] when it returned, the text of
    the [psycopg2.Error] when it raised. *)
Record event := Ev { ev_call : db_call; ev_error : option string }.

Global Instance event_eq_dec : EqDecision event.
Proof. solve_decision. Defined.

Inductive level := DEBUG | INFO | WARNING | ERROR.

(** What the process sees of its surroundings: the environment variable,
    the migrations directory, the rows of the tracking table, and the
    database itself as an oracle that tells, from the calls made so far,
    whether the next one raises. *)
Record env := Env {
  DATABASE_URL : option string;
  MIGRATIONS_DIR : string;
  dir_exists : bool;
  dir_glob_sql : list file;
  fetchall_rows : list string;
  db_raises : list event → db_call → option string
}.

Record world := World {
  trace : list event;
  isolation_level : option Z;
  log : list (level * string)
}.

Inductive outcome (A : Type) :=
| Ret (a : A)
| Raise (e : exn).
Global Arguments Ret {A} a.
Global Arguments Raise {A} e.

(** Computations: state passing over the [world], with exceptions. *)
Definition M (A : Type) : Type := world → outcome A * world.

Global Instance M_ret : MRet M := λ A a w, (Ret a, w).
Global Instance M_bind : MBind M := λ A B f m w,
  match m w with
  | (Ret a, w') => f a w'
  | (Raise e, w') => (Raise e, w')
  end.

Definition raise {A} (e : exn) : M A := λ w, (Raise e, w).

(** [try: body except <class> as e: handler(e)], where [catches] tells
    which exceptions the clause catches. *)
Definition try_except {A} (body : M A) (catches : exn → bool)
    (handler : exn → M A) : M A := λ w,
  match body w with
  | (Ret a, w') => (Ret a, w')
  | (Raise e, w') => if catches e then handler e w' else (Raise e, w')
  end.

(** [try: body finally: cleanup]. *)
Definition try_finally {A} (body : M A) (cleanup : M unit) : M A := λ w,
  match body w with
  | (r, w') =>
      match cleanup w' with
      | (Ret _, w'') => (r, w'')
      | (Raise e, w'') => (Raise e, w'')
      end
  end.

(** [for x in l: body(x)]. *)
Fixpoint for_in {A} (l : list A) (body : A → M unit) : M unit :=
  match l with
  | [] => mret ()
  | x :: l' => body x ;; for_in l' body
  end.

(** [sys.exit(code)]. *)
Definition sys_exit {A} (code : Z) : M A := raise (SystemExit code).

Definition logger (lv : level) (msg : string) : M unit := λ w,
  (Ret (), World (trace w) (isolation_level w) (log w ++ [(lv, msg)])).

Definition add_event (ev : event) (w : world) : world :=
  World (trace w ++ [ev]) (isolation_level w) (log w).

Section Runner.

Context `{SetIteration}.
Variable E : env.

(** A call that the database may refuse. *)
Definition db (c : db_call) : M unit := λ w,
  match db_raises E (trace w) c with
  | Some msg => (Raise (Psycopg2Error msg), add_event (Ev c (Some msg)) w)
  | None => (Ret (), add_event (Ev c None) w)
  end.

(** A call of the client library that is taken not to raise. *)
Definition client (c : db_call) : M unit := λ w,
  (Ret (), add_event (Ev c None) w).

Definition execute (sql : string) (params : list string) : M unit :=
  db (Execute sql params).

(** [conn.isolation_level] and [conn.set_isolation_level(level)]. *)
Definition get_isolation_level : M (option Z) := λ w,
  (Ret (isolation_level w), w).

Definition set_isolation_level (lv : option Z) : M unit := λ w,
  (Ret (), World (trace w ++ [Ev (SetIsolationLevel lv) None]) lv (log w)).

Definition CREATE_TABLE_SQL : string := "
        CREATE TABLE IF NOT EXISTS applied_migrations (
            filename VARCHAR PRIMARY KEY,
            applied_at TIMESTAMP NOT NULL DEFAULT NOW()
        );
    ".

Definition create_applied_migrations_table : M unit :=
  execute CREATE_TABLE_SQL [] ;;
  db Commit.

Definition SELECT_SQL : string := "SELECT filename FROM applied_migrations;".

Definition get_applied_migrations : M (gset string) :=
  execute SELECT_SQL [] ;;
  client FetchAll ;;
  mret (list_to_set (fetchall_rows E)).

Definition apply_migration (migration_file : file) : M unit :=
  let sql := content migration_file in
  if requires_autocommit sql then
    logger DEBUG ("Executing in autocommit mode: " +:+ name migration_file) ;;
    old_isolation ← get_isolation_level ;
    set_isolation_level (Some 0%Z) ;;
    try_finally
      (for_in (PyStr.split ";"%char sql) (λ statement,
         let statement := PyStr.strip statement in
         if decide (statement = "") then mret ()
         else execute statement []))
      (set_isolation_level old_isolation)
  else if has_transaction_block sql then
    logger DEBUG ("Migration has own transaction control: "
                  +:+ name migration_file) ;;
    execute sql []
  else
    logger DEBUG ("Wrapping in transaction: " +:+ name migration_file) ;;
    execute "BEGIN;" [] ;;
    execute sql [] ;;
    execute "COMMIT;" [].

Definition INSERT_SQL : string :=
  "INSERT INTO applied_migrations (filename) VALUES (%s);".

Definition record_migration (filename : string) : M unit :=
  execute "BEGIN;" [] ;;
  execute INSERT_SQL [filename] ;;
  execute "COMMIT;" [].

(** The [try] statement in the loop of [process_migration_files], in
    three parts: the block after [try], the handler of
    [except Exception as e], and the statement itself. *)
Definition try_block (migration_file : file) : M unit :=
  let filename := name migration_file in
  apply_migration migration_file ;;
  record_migration filename ;;
  logger INFO ("Applied successfully: " +:+ filename).

Definition except_block (filename : string) (e : exn) : M unit :=
  logger ERROR ("Failed to apply " +:+ filename +:+ ": " +:+ exn_text e) ;;
  try_except
    (execute "ROLLBACK;" [] ;;
     logger INFO ("Rolled back: " +:+ filename))
    is_Exception
    (λ rollback_error,
       logger ERROR ("Rollback failed: " +:+ exn_text rollback_error)) ;;
  logger ERROR "Stopping migrations due to failure" ;;
  sys_exit 1.

Definition apply_and_record (migration_file : file) : M unit :=
  try_except (try_block migration_file) is_Exception
             (except_block (name migration_file)).

Definition process_migration_files (migration_files : list file)
    (applied_migrations : gset string) : M unit :=
  for_in migration_files (λ migration_file,
    let filename := name migration_file in
    if decide (filename ∈ applied_migrations) then
      logger INFO ("Skipping (already applied): " +:+ filename)
    else
      logger INFO ("Applying: " +:+ filename) ;;
      apply_and_record migration_file).

Definition run_migrations (applied_migrations : gset string) : M unit :=
  if negb (dir_exists E) then
    logger WARNING ("Directory not found: " +:+ MIGRATIONS_DIR E)
  else
    let migration_files := dir_glob_sql E in
    if decide (migration_files = []) then
      logger INFO "No migrations found"
    else
      logger INFO ("Processing " +:+ pretty (length migration_files)
                   +:+ " migration(s)") ;;
      match topological_sort migration_files with
      | Some sorted_files =>
          process_migration_files sorted_files applied_migrations
      | None => raise (RuntimeError "maximum recursion depth exceeded")
      end.

(** [with database_connection() as conn: body]: the generator of the
    context manager runs up to its [yield], the body runs, and an
    exception of the body is thrown into the generator at the [yield],
    inside its [try]. *)
Definition database_connection {A} (body : M A) : M A :=
  match DATABASE_URL E with
  | None | Some "" =>
      logger ERROR "DATABASE_URL environment variable is not set" ;;
      sys_exit 1
  | Some connection_string =>
      let on_error e :=
        logger ERROR ("Database connection error: " +:+ exn_text e) ;;
        sys_exit 1 in
      λ w,
        match db (Connect connection_string) w with
        | (Raise e, w') =>
            (* [conn] is still [None]: nothing to close *)
            if is_psycopg2_Error e then on_error e w' else (Raise e, w')
        | (Ret _, w') =>
            try_finally
              (try_except body is_psycopg2_Error on_error)
              (client CloseConnection) w'
        end
  end.

(** The block after [try] in [main]. *)
Definition main_try_block : M unit :=
  create_applied_migrations_table ;;
  applied_migrations ← get_applied_migrations ;
  run_migrations applied_migrations ;;
  logger INFO "Migration process completed.".

Definition main : M unit :=
  logger INFO "Starting migration process..." ;;
  database_connection
    (client OpenCursor ;;
     try_finally main_try_block (client CloseCursor)).

End Runner.

(** The exit status of the interpreter running [main()]: 0 when it returns,
    the code of a [SystemExit], 1 after an uncaught exception. *)
Definition exit_status {A} (r : outcome A) : Z :=
  match r with
  | Ret _ => 0
  | Raise (SystemExit code) => code
  | Raise _ => 1
  end.

(** ** The dependency relation and a big-step reading of [visit] *)

Section Graph.

Context `{SetIteration}.
Variable migration_files : list file.
Variable dependencies : gmap string (gset string).

(** [visits filename st st']: the call [visit(filename)] made in state
    [st] returns in state [st']; [visits_deps] is its [for] loop. *)
Inductive visits : string → dfs_state → dfs_state → Prop :=
| visits_seen filename st :
    filename ∈ visited st →
    visits filename st st
| visits_new filename st st2 f :
    filename ∉ visited st →
    visits_deps (deps_of dependencies filename)
                (Dfs ({[ filename ]} ∪ visited st) (result st)) st2 →
    find_file migration_files filename = Some f →
    visits filename st (Dfs (visited st2) (result st2 ++ [f]))
with visits_deps : list string → dfs_state → dfs_state → Prop :=
| visits_deps_nil st :
    visits_deps [] st st
| visits_deps_unresolved dep_table ts st st' :
    find_dep_file migration_files dep_table = None →
    visits_deps ts st st' →
    visits_deps (dep_table :: ts) st st'
| visits_deps_resolved dep_table ts dep_file st st1 st' :
    find_dep_file migration_files dep_table = Some dep_file →
    visits (name dep_file) st st1 →
    visits_deps ts st1 st' →
    visits_deps (dep_table :: ts) st st'.

(** The top-level loop [for file in migration_files: visit(file.name)]. *)
Inductive visits_all : list file → dfs_state → dfs_state → Prop :=
| visits_all_nil st : visits_all [] st st
| visits_all_cons f l st st1 st' :
    visits (name f) st st1 →
    visits_all l st1 st' →
    visits_all (f :: l) st st'.

(** [edge x y]: the file named [x] references a table that the prefix
    match resolves to the file named [y]. *)
Definition edge (x y : string) : Prop :=
  ∃ t g, t ∈ deps_of dependencies x
         ∧ find_dep_file migration_files t = Some g ∧ name g = y.

End Graph.

Scheme visits_mut := Minimality for visits Sort Prop
  with visits_deps_mut := Minimality for visits_deps Sort Prop.

(** [precedes l y x]: [y] occurs in [l] at a position before one of [x]. *)
Definition precedes (l : list string) (y x : string) : Prop :=
  ∃ i j, l !! i = Some y ∧ l !! j = Some x ∧ i < j.

(** [depends_on files f g]: [g] is the file that the prefix match resolves
    some table referenced by [f] to: the first file, in name order, whose
    name starts with that table name. *)
Definition depends_on (files : list file) (f g : file) : Prop :=
  f ∈ files ∧
  ∃ t, t ∈ get_table_references (content f)
       ∧ find_dep_file (sorted_by_name files) t = Some g.

(** No file reaches itself along resolved dependencies. *)
Definition acyclic (files : list file) : Prop :=
  ∀ f, ¬ tc (depends_on files) f f.

(** [is_dependency files g]: some file of the list depends on [g]. *)
Definition is_dependency (files : list file) (g : file) : Prop :=
  ∃ f, depends_on files f g.

(** [has_dependency files f]: [f] has a dependency that can be resolved. *)
Definition has_dependency (files : list file) (f : file) : Prop :=
  ∃ g, depends_on files f g.

(** Strict lexicographic order on names, by code point. *)
Definition name_lt (f g : file) : Prop := String.ltb (name f) (name g) = true.
Definition name_le (f g : file) : Prop := String.leb (name f) (name g) = true.

(** [extends fs st st' new]: from [st] to [st'] the files [new] were
    appended to the result, and exactly their names were marked; none of
    them had been marked before. *)
Definition extends (migration_files : list file) (st st' : dfs_state)
    (new : list file) : Prop :=
  result st' = result st ++ new
  ∧ visited st' = visited st ∪ (list_to_set (names new) : gset string)
  ∧ NoDup (names new)
  ∧ Forall (λ g, (name g ∉ visited st)
                 ∧ find_file migration_files (name g) = Some g) new.

(** Invariants of the traversal, on names.  A name is pending when it is
    marked but its file is not yet in the result: its call of [visit] is
    still running. *)
Definition pending (st : dfs_state) (z : string) : Prop :=
  z ∈ visited st ∧ z ∉ names (result st).

(** [ordered R st]: each file of the result comes after every file it
    depends on ([R]) that does not lead back to it. *)
Definition ordered (R : relation string) (st : dfs_state) : Prop :=
  ∀ x y, x ∈ names (result st) → R x y → ¬ rtc R y x →
         precedes (names (result st)) y x.

(** ** Specification of the modes of [apply_migration] *)

(** The events of making the calls [calls] one after the other on a
    connection whose calls so far are [tr], up to and including the first
    call that raises, and how the sequence ends. *)
Fixpoint attempt (E : env) (tr : list event) (calls : list db_call)
  : list event * outcome unit :=
  match calls with
  | [] => ([], Ret ())
  | c :: calls' =>
      match db_raises E tr c with
      | Some msg => ([Ev c (Some msg)], Raise (Psycopg2Error msg))
      | None =>
          let '(evs, r) := attempt E (tr ++ [Ev c None]) calls' in
          (Ev c None :: evs, r)
      end
  end.

(** The statements that autocommit mode executes: the fragments between
    semicolons, trimmed, without the empty ones. *)
Definition autocommit_statements (sql : string) : list string :=
  filter (λ s, s ≠ "") (PyStr.strip <$> PyStr.split ";"%char sql).

(** The content mentions, in any case, one of the autocommit markers. *)
Definition contains_autocommit_marker (sql : string) : Prop :=
  ∃ stmt pre post,
    stmt ∈ AUTOCOMMIT_STATEMENTS ∧ PyStr.upper sql = pre +:+ stmt +:+ post.

(** The content, in any case and trimmed, begins with [BEGIN] or with
    [START TRANSACTION], or contains [BEGIN;]. *)
Definition has_transaction_start (sql : string) : Prop :=
  let s := PyStr.strip (PyStr.upper sql) in
  (∃ rest, s = "BEGIN" +:+ rest)
  ∨ (∃ pre post, s = pre +:+ "BEGIN;" +:+ post)
  ∨ (∃ rest, s = "START TRANSACTION" +:+ rest).

Section Modes.

Variable E : env.

(** Autocommit mode: isolation level 0 is set, the statements are
    executed one by one until one raises, and the previous level is set
    again whatever happened. *)
Definition autocommit_run (migration_file : file) (w : world) : Prop :=
  let '(r, w') := apply_migration E migration_file w in
  let tr0 := trace w ++ [Ev (SetIsolationLevel (Some 0%Z)) None] in
  let '(evs, r0) :=
    attempt E tr0 ((λ s, Execute s []) <$>
                     autocommit_statements (content migration_file)) in
  r = r0
  ∧ trace w' = tr0 ++ evs
               ++ [Ev (SetIsolationLevel (isolation_level w)) None]
  ∧ isolation_level w' = isolation_level w.

(** Self-managed mode: the content is executed as it is, in one call. *)
Definition self_managed_run (migration_file : file) (w : world) : Prop :=
  let '(r, w') := apply_migration E migration_file w in
  let '(evs, r0) :=
    attempt E (trace w) [Execute (content migration_file) []] in
  r = r0 ∧ trace w' = trace w ++ evs
  ∧ isolation_level w' = isolation_level w.

(** Wrapped mode: [BEGIN;], the content in one call, [COMMIT;]. *)
Definition wrapped_run (migration_file : file) (w : world) : Prop :=
  let '(r, w') := apply_migration E migration_file w in
  let '(evs, r0) :=
    attempt E (trace w)
      [Execute "BEGIN;" []; Execute (content migration_file) [];
       Execute "COMMIT;" []] in
  r = r0 ∧ trace w' = trace w ++ evs
  ∧ isolation_level w' = isolation_level w.

End Modes.

(** ** Specification of a run *)

(** No event of the list is a call that raised. *)
Definition clean (evs : list event) : Prop :=
  Forall (λ ev, ev_error ev = None) evs.

(** The calls [apply_migration] can make for a file: setting an isolation
    level, the [BEGIN;] and [COMMIT;] of wrapped mode, and statements taken
    from the content; none of them carries parameters. *)
Definition apply_call (f : file) (c : db_call) : Prop :=
  (∃ lv, c = SetIsolationLevel lv)
  ∨ c = Execute "BEGIN;" []
  ∨ c = Execute "COMMIT;" []
  ∨ c = Execute (content f) []
  ∨ ∃ s, s ∈ autocommit_statements (content f) ∧ c = Execute s [].

(** The calls of the runner on the tracking table while it processes
    files, and its rollback. *)
Definition BEGIN : db_call := Execute "BEGIN;" [].
Definition COMMIT : db_call := Execute "COMMIT;" [].
Definition ROLLBACK : db_call := Execute "ROLLBACK;" [].
Definition INSERT (filename : string) : db_call :=
  Execute INSERT_SQL [filename].

(** The events that follow those of [apply_migration] when one pending
    file is processed, on a trace [tr]: the record in its own transaction
    when nothing raises, and otherwise the calls up to the one that the
    database refused, followed by the rollback. *)
Inductive record_events (E : env) (tr : list event) (filename : string)
    (applied_ok : bool) : list event → bool → Prop :=
| recorded :
    applied_ok = true →
    record_events E tr filename applied_ok
      [Ev BEGIN None; Ev (INSERT filename) None; Ev COMMIT None] true
| apply_failed rb :
    applied_ok = false →
    record_events E tr filename applied_ok [Ev ROLLBACK rb] false
| begin_failed msg rb :
    applied_ok = true →
    db_raises E tr BEGIN = Some msg →
    record_events E tr filename applied_ok
      [Ev BEGIN (Some msg); Ev ROLLBACK rb] false
| insert_failed msg rb :
    applied_ok = true →
    db_raises E (tr ++ [Ev BEGIN None]) (INSERT filename) = Some msg →
    record_events E tr filename applied_ok
      [Ev BEGIN None; Ev (INSERT filename) (Some msg); Ev ROLLBACK rb] false
| commit_failed msg rb :
    applied_ok = true →
    db_raises E (tr ++ [Ev BEGIN None; Ev (INSERT filename) None]) COMMIT
    = Some msg →
    record_events E tr filename applied_ok
      [Ev BEGIN None; Ev (INSERT filename) None; Ev COMMIT (Some msg);
       Ev ROLLBACK rb] false.

(** The log lines of the handler of [process_migration_files], given the
    exception and how the rollback ended. *)
Definition failure_log (filename : string) (e : exn) (rb : option string)
  : list (level * string) :=
  [(ERROR, "Failed to apply " +:+ filename +:+ ": " +:+ exn_text e);
   match rb with
   | None => (INFO, "Rolled back: " +:+ filename)
   | Some msg => (ERROR, "Rollback failed: " +:+ msg)
   end;
   (ERROR, "Stopping migrations due to failure")].

(** Two worlds that differ at most in their log. *)
Definition agree (w1 w2 : world) : Prop :=
  trace w1 = trace w2 ∧ isolation_level w1 = isolation_level w2.

(** A computation that does not look at the log. *)
Definition respects {A} (m : M A) : Prop :=
  ∀ w1 w2, agree w1 w2 → (m w1).1 = (m w2).1 ∧ agree (m w1).2 (m w2).2.

(** [run_events E applied tr files evs ok]: the events [evs] that
    processing [files] adds to a trace [tr], and whether the processing
    ends normally.  A file of the applied set adds nothing; a pending file
    adds the events of [apply_migration] for it, followed by its
    [record_events]; after a failure nothing is added. *)
Inductive run_events (E : env) (applied : gset string)
  : list event → list file → list event → bool → Prop :=
| run_nil tr :
    run_events E applied tr [] [] true
| run_skip tr f l evs ok :
    name f ∈ applied →
    run_events E applied tr l evs ok →
    run_events E applied tr (f :: l) evs ok
| run_ok tr f l w0 A evs ok :
    (name f ∉ applied) →
    trace w0 = tr →
    (apply_migration E f w0).1 = Ret () →
    trace (apply_migration E f w0).2 = tr ++ A →
    Forall (λ ev, apply_call f (ev_call ev)) A →
    clean A →
    run_events E applied
      (tr ++ A ++ [Ev BEGIN None; Ev (INSERT (name f)) None; Ev COMMIT None])
      l evs ok →
    run_events E applied tr (f :: l)
      (A ++ [Ev BEGIN None; Ev (INSERT (name f)) None; Ev COMMIT None] ++ evs)
      ok
| run_fail tr f l w0 A tail applied_ok :
    (name f ∉ applied) →
    trace w0 = tr →
    ((apply_migration E f w0).1 = Ret () ↔ applied_ok = true) →
    trace (apply_migration E f w0).2 = tr ++ A →
    Forall (λ ev, apply_call f (ev_call ev)) A →
    (clean A ↔ applied_ok = true) →
    record_events E (tr ++ A) (name f) applied_ok tail false →
    run_events E applied tr (f :: l) (A ++ tail) false.

(** The calls that prepare a run: the tracking table is ensured and its
    rows are selected. *)
Definition setup_calls : list db_call :=
  [Execute CREATE_TABLE_SQL []; Commit; Execute SELECT_SQL []].

(** [main_events E tr evs ok]: the events [evs] that a whole run adds to a
    trace [tr], and whether [main] returns ([ok]) or ends in
    [SystemExit(1)]. *)
Inductive main_events (E : env) (tr : list event)
  : list event → bool → Prop :=
| no_url :
    DATABASE_URL E = None ∨ DATABASE_URL E = Some "" →
    main_events E tr [] false
| connect_failed cs msg :
    DATABASE_URL E = Some cs → cs ≠ "" →
    db_raises E tr (Connect cs) = Some msg →
    main_events E tr [Ev (Connect cs) (Some msg)] false
| setup_failed cs setup e :
    DATABASE_URL E = Some cs → cs ≠ "" →
    db_raises E tr (Connect cs) = None →
    attempt E (tr ++ [Ev (Connect cs) None; Ev OpenCursor None]) setup_calls
    = (setup, Raise e) →
    main_events E tr
      ([Ev (Connect cs) None; Ev OpenCursor None] ++ setup
       ++ [Ev CloseCursor None; Ev CloseConnection None]) false
| migrated cs setup files evs ok :
    DATABASE_URL E = Some cs → cs ≠ "" →
    db_raises E tr (Connect cs) = None →
    attempt E (tr ++ [Ev (Connect cs) None; Ev OpenCursor None]) setup_calls
    = (setup, Ret ()) →
    run_events E (list_to_set (fetchall_rows E))
      (tr ++ [Ev (Connect cs) None; Ev OpenCursor None] ++ setup
          ++ [Ev FetchAll None])
      files evs ok →
    NoDup (names files) →
    files ⊆ dir_glob_sql E →
    (dir_exists E = false ∨ dir_glob_sql E = [] → files = []) →
    main_events E tr
      ([Ev (Connect cs) None; Ev OpenCursor None] ++ setup
       ++ [Ev FetchAll None] ++ evs
       ++ [Ev CloseCursor None; Ev CloseConnection None]) ok.

(** The calls of a run that surround the processing of the files. *)
Definition session_call (c : db_call) : Prop :=
  (∃ cs, c = Connect cs)
  ∨ c ∈ [OpenCursor; Execute CREATE_TABLE_SQL []; Commit;
         Execute SELECT_SQL []; FetchAll; CloseCursor; CloseConnection].

(** The environment variable holds a connection string. *)
Definition url_set (E : env) : Prop :=
  ∃ cs, DATABASE_URL E = Some cs ∧ cs ≠ "".

(** ** Concrete files, databases and environments *)

(** Five files: [a.sql] references [d], and [x.sql] and [y.sql] reference
    each other. *)
Definition files_cyclic : list file :=
  [File "a.sql" "CREATE TABLE a (d_id INT REFERENCES d);";
   File "b.sql" "CREATE TABLE b (id INT);";
   File "d.sql" "CREATE TABLE d (id INT);";
   File "x.sql" "CREATE TABLE x (y_id INT REFERENCES y);";
   File "y.sql" "CREATE TABLE y (x_id INT REFERENCES x);"].

Definition out_cyclic : list file :=
  [File "d.sql" "CREATE TABLE d (id INT);";
   File "a.sql" "CREATE TABLE a (d_id INT REFERENCES d);";
   File "b.sql" "CREATE TABLE b (id INT);";
   File "y.sql" "CREATE TABLE y (x_id INT REFERENCES x);";
   File "x.sql" "CREATE TABLE x (y_id INT REFERENCES y);"].

(** A file that references the table of its own name. *)
Definition files_self : list file :=
  [File "b_items.sql" "CREATE TABLE b (parent INT REFERENCES b);";
   File "a_items.sql" "CREATE TABLE a (id INT);"].

Definition files_plain : list file :=
  [File "002_items.sql" "CREATE TABLE items (id INT);";
   File "001_init.sql" "CREATE TABLE users (id INT);";
   File "003_tags.sql" "CREATE TABLE tags (id INT);"].

(** A database that never refuses a call, and one that refuses every
    statement mentioning [BOOM]. *)
Definition quiet_db : list event → db_call → option string := λ _ _, None.

Definition picky_db : list event → db_call → option string := λ _ c,
  match c with
  | Execute sql _ =>
      if PyStr.contains "BOOM" sql then Some "syntax error at or near BOOM"
      else None
  | _ => None
  end.

Definition env_with (files : list file) (rows : list string)
    (raises : list event → db_call → option string) : env :=
  Env (Some "postgresql://app@db/app") "/usr/src/app/migrations" true
      files rows raises.

Definition world_start : world := World [] (Some 1%Z) [].

Definition file_create_db : file :=
  File "000_db.sql" "create database app; ;
CREATE TABLE BOOM;
CREATE TABLE late (id INT);".

Definition file_own_tx : file :=
  File "001_init.sql" "begin; CREATE TABLE users (id INT); commit;".

Definition file_table : file :=
  File "002_items.sql" "CREATE TABLE items (id INT);".

Definition file_broken : file :=
  File "003_broken.sql" "CREATE TABLE BOOM (id INT);".

Definition file_later : file :=
  File "004_later.sql" "CREATE TABLE later (id INT);".

(** Environments for whole runs: no connection string; a database that
    cannot be reached; no migrations directory; no file in it. *)
Definition env_no_url : env :=
  Env None "/usr/src/app/migrations" true [file_table] [] quiet_db.

Definition unreachable_db : list event → db_call → option string := λ _ c,
  match c with
  | Connect _ => Some "could not connect to server"
  | _ => None
  end.

Definition env_no_dir : env :=
  Env (Some "postgresql://app@db/app") "/usr/src/app/migrations" false
      [] ["001_init.sql"] quiet_db.

(** Settles a decidable statement about concrete data by evaluation. *)
Ltac by_computation :=
  lazymatch goal with
  | |- ?P => apply (bool_decide_eq_true_1 P); vm_compute; reflexivity
  end.

(** ** Further notions *)

(** Every character of [s] satisfies [p]. *)
Definition all_chars (p : ascii → bool) (s : string) : Prop :=
  Forall (λ c, p c = true) (list_ascii_of_string s).

(** The file names passed to the insert into the tracking table, in the
    order of the calls. *)
Definition inserted_names (evs : list event) : list string :=
  omap (λ ev, match ev_call ev with
              | Execute sql [x] =>
                  if decide (sql = INSERT_SQL) then Some x else None
              | _ => None
              end) evs.

(** The pending files of a list: those whose name is not in the applied
    set. *)
Definition pending_files (applied : gset string) (files : list file)
  : list file :=
  filter (λ f, name f ∉ applied) files.

(** Every reference that resolves, resolves to a file whose name is not
    larger than the name of the referencing file. *)
Definition numbered_consistently (files : list file) : bool :=
  forallb
    (λ f, forallb
            (λ t, match find_dep_file (sorted_by_name files) t with
                  | Some g => String.leb (name g) (name f)
                  | None => true
                  end)
            (elements (get_table_references (content f))))
    files.

(** Two files, listed in reverse order of their names; the second file's
    table is referenced by the first. *)
Definition files_numbered : list file :=
  [File "b_orders.sql" "CREATE TABLE b_orders (user_id INT REFERENCES a_users(id));";
   File "a_users.sql" "CREATE TABLE a_users (id INT);"].

(** The calls that open and close the connection and its cursor. *)
Definition connection_call (c : db_call) : Prop :=
  (∃ cs, c = Connect cs) ∨ c ∈ [OpenCursor; CloseCursor; CloseConnection].

(** The events of a tracking-table setup in which nothing raised, up to
    the rows being fetched. *)
Definition setup_done : list event :=
  [Ev (Execute CREATE_TABLE_SQL []) None; Ev Commit None;
   Ev (Execute SELECT_SQL []) None; Ev FetchAll None].

(** A database that refuses to select from the tracking table. *)
Definition no_select_db : list event → db_call → option string := λ _ c,
  match c with
  | Execute sql _ =>
      if PyStr.startswith "SELECT" sql
      then Some "permission denied for table applied_migrations"
      else None
  | _ => None
  end.

(** Another possible order of enumerating a set: the reverse of
    [elements_iteration]. *)
Definition reverse_iteration : SetIteration :=
  {| iter := λ X, reverse (elements X);
     iter_perm := λ X, reverse_Permutation (elements X) |}.

(** Three files, of which the first references the tables of the other
    two. *)
Definition files_two_references : list file :=
  [File "a.sql" "CREATE TABLE a (
  x_id INT REFERENCES x,
  y_id INT REFERENCES y
);";
   File "x.sql" "CREATE TABLE x (id INT);";
   File "y.sql" "CREATE TABLE y (id INT);"].

(** [topological_sort] as the interpreter runs it.  The recursion of
    [visit] takes place on the interpreter's stack, which holds a bounded
    number of frames ([sys.getrecursionlimit()], 1000 unless it is
    changed).  [depth] is the number of nested calls of [visit] for which
    there is room when [topological_sort] enters its last loop, and [None]
    stands for the [RecursionError] that a call beyond it raises.
    [topological_sort] above is the function on a stack with room for one
    call more than there are files. *)
Definition topological_sort_within `{SetIteration} (depth : nat)
    (migration_files : list file) : option (list file) :=
  let migration_files := sorted_by_name migration_files in
  let dependencies := build_dependencies migration_files in
  match
    for_each
      (λ f st, visit migration_files dependencies depth (name f) st)
      migration_files (Dfs ∅ [])
  with
  | Some st => Some (result st)
  | None => None
  end.

(** The recursion limit of the interpreter, by default. *)
Definition default_recursion_limit : nat := 1000.

(** [n] times the character [c]. *)
Fixpoint repeat_char (c : ascii) (n : nat) : string :=
  match n with
  | 0 => ""
  | S n' => String c (repeat_char c n')
  end.

(** A short code for a number: an [a] for every 32 in it and a [b] for
    every unit left, so that the names below stay short. *)
Definition chain_code (i : nat) : string :=
  repeat_char "a" (i / 32) +:+ repeat_char "b" (i mod 32).

Definition chain_table (i : nat) : string := "t" +:+ chain_code i +:+ "_".

(** A chain of [n] files: [t_.sql] references the table [tb_] of
    [tb_.sql], which references the table [tbb_] of [tbb_.sql], and so on;
    the last one references a table that no file of the chain is named
    after. *)
Definition chain_file (i : nat) : file :=
  File (chain_table i +:+ ".sql")
       (("CREATE TABLE " +:+ chain_table i +:+ " (next_id INT ")
        +:+ "REFERENCES" +:+ " " +:+ chain_table (S i) +:+ ");").

Definition chain (n : nat) : list file := chain_file <$> seq 0 n.

(** ** The definitions at work on concrete inputs *)

Example ex_refs_1 :
  elements (get_table_references "  user_id INT,
  FOREIGN KEY (user_id) REFERENCES users(id)") = ["users"].
Proof. vm_compute. reflexivity. Qed.

Example ex_refs_2 :
  elements (get_table_references "x REFERENCES
REFERENCES  b REFERENCES c") = ["b"].
Proof. vm_compute. reflexivity. Qed.

Example ex_split : PyStr.split ";"%char "a;b;;" = ["a"; "b"; ""; ""].
Proof. reflexivity. Qed.

Example ex_strip : PyStr.strip "  a b
 " = "a b".
Proof. reflexivity. Qed.

Section Examples.
Local Existing Instance elements_iteration.

Example ex_order :
  names <$> topological_sort
    [File "b_table.sql" "CREATE TABLE b (id INT);";
     File "a_table.sql" "CREATE TABLE a (b_id INT,
  FOREIGN KEY (b_id) REFERENCES b (id));"]
  = Some ["b_table.sql"; "a_table.sql"].
Proof. vm_compute. reflexivity. Qed.

Example ex_cycle :
  names <$> topological_sort
    [File "a.sql" "REFERENCES d"; File "b.sql" ""; File "d.sql" "";
     File "x.sql" "REFERENCES y"; File "y.sql" "REFERENCES x"]
  = Some ["d.sql"; "a.sql"; "b.sql"; "y.sql"; "x.sql"].
Proof. vm_compute. reflexivity. Qed.
(** Two paths of the same name, as two directories could supply them:
    the dictionary keeps the references of the later one, and only the
    earlier one is returned. *)
Example ex_same_name :
  topological_sort [File "a.sql" "CREATE TABLE a (id INT);";
                    File "a.sql" "CREATE TABLE a (id BIGINT);"]
  = Some [File "a.sql" "CREATE TABLE a (id INT);"].
Proof. vm_compute. reflexivity. Qed.
End Examples.

(** ** Sorting by name *)

Lemma insert_by_name_perm f l : insert_by_name f l ≡ₚ f :: l.
Proof.
  induction l as [|g l IH]; simpl; [done|].
  destruct (String.leb _ _); [done|].
  rewrite IH. apply Permutation_swap.
Qed.

Lemma sorted_by_name_perm l : sorted_by_name l ≡ₚ l.
Proof.
  induction l as [|f l IH]; simpl; [done|].
  rewrite insert_by_name_perm. by constructor.
Qed.

Lemma name_le_trans f g h : name_le f g → name_le g h → name_le f h.
Proof.
  unfold name_le. intros Hfg Hgh.
  pose proof (@transitivity _ String.le _ (name f) (name g) (name h)) as Ht.
  unfold String.le in Ht. apply Is_true_true, Ht; by apply Is_true_true.
Qed.

Lemma name_le_total f g : name_le f g ∨ name_le g f.
Proof. apply String.leb_total. Qed.

Lemma insert_by_name_sorted f l :
  StronglySorted name_le l → StronglySorted name_le (insert_by_name f l).
Proof.
  induction 1 as [|g l Hl IH Hg]; simpl.
  - repeat constructor.
  - destruct (String.leb (name f) (name g)) eqn:Hfg.
    + constructor; [by constructor|].
      constructor; [done|].
      eapply Forall_impl; [exact Hg|]. intros h Hh. by eapply name_le_trans.
    + constructor; [done|].
      rewrite insert_by_name_perm. constructor; [|done].
      destruct (name_le_total f g) as [Hc|Hc]; [|done].
      unfold name_le in Hc. congruence.
Qed.

Lemma sorted_by_name_sorted l : StronglySorted name_le (sorted_by_name l).
Proof.
  induction l as [|f l IH]; simpl; [constructor|].
  by apply insert_by_name_sorted.
Qed.

Lemma names_sorted_perm l : names (sorted_by_name l) ≡ₚ names l.
Proof. unfold names. by rewrite sorted_by_name_perm. Qed.

Lemma length_sorted_by_name l : length (sorted_by_name l) = length l.
Proof. by rewrite sorted_by_name_perm. Qed.

(** ** The depth-first traversal *)

Lemma find_file_Some fs x f :
  find_file fs x = Some f → f ∈ fs ∧ name f = x.
Proof.
  unfold find_file. intros Hf. apply find_some in Hf as [Hin Hx].
  apply bool_decide_eq_true in Hx. by rewrite list_elem_of_In.
Qed.

Lemma find_file_is_Some fs x : x ∈ names fs → is_Some (find_file fs x).
Proof.
  unfold names. intros (f & -> & Hf)%list_elem_of_fmap.
  destruct (find_file fs (name f)) as [g|] eqn:Hg; [by eexists|].
  unfold find_file in Hg.
  apply list_elem_of_In in Hf.
  pose proof (find_none _ _ Hg f Hf) as Hn.
  by apply bool_decide_eq_false in Hn.
Qed.

Lemma find_dep_file_Some fs t g :
  find_dep_file fs t = Some g → g ∈ fs ∧ PyStr.startswith t (name g) = true.
Proof.
  unfold find_dep_file. intros Hf. apply find_some in Hf as [Hin Hx].
  by rewrite list_elem_of_In.
Qed.

Section Traversal.

Context `{SetIteration}.
Variable fs : list file.
Variable deps : gmap string (gset string).

(** The loop inside [visit], once the recursive calls are known to
    follow [visits]. *)
Lemma for_each_visits_deps (body : string → dfs_state → option dfs_state) :
  (∀ g st st', body (name g) st = Some st' → visits fs deps (name g) st st') →
  ∀ ts st st',
    for_each (λ dep_table s,
                match find_dep_file fs dep_table with
                | Some dep_file => body (name dep_file) s
                | None => Some s
                end) ts st = Some st' →
    visits_deps fs deps ts st st'.
Proof.
  intros Hbody ts. induction ts as [|t ts IH]; intros st st' Hrun; simpl in Hrun.
  - simplify_eq. constructor.
  - destruct (find_dep_file fs t) as [g|] eqn:Hg.
    + destruct (body (name g) st) as [st1|] eqn:Hv; [|done].
      eapply visits_deps_resolved; eauto.
    + eapply visits_deps_unresolved; eauto.
Qed.

(** Every run of the function [visit] is a derivation of [visits]. *)
Lemma visit_visits fuel x st st' :
  visit fs deps fuel x st = Some st' → visits fs deps x st st'.
Proof.
  revert x st st'. induction fuel as [|fuel IH]; intros x st st' Hrun;
    simpl in Hrun; [done|].
  destruct (decide (x ∈ visited st)) as [Hx|Hx].
  - simplify_eq. by constructor.
  - match type of Hrun with
    | match ?loop with _ => _ end = _ => destruct loop as [st2|] eqn:Hloop
    end; [|done].
    destruct (find_file fs x) as [f|] eqn:Hf; [|done].
    simplify_eq. eapply visits_new; [done| |done].
    eapply for_each_visits_deps; [|exact Hloop].
    intros g s s'. apply IH.
Qed.

Lemma extends_refl st : extends fs st st [].
Proof.
  unfold extends. rewrite app_nil_r. simpl.
  split_and!; [done|set_solver|constructor|constructor].
Qed.

Lemma extends_visited_mono st st' new :
  extends fs st st' new → visited st ⊆ visited st'.
Proof. intros (_ & -> & _). set_solver. Qed.

Lemma extends_trans st st1 st2 n1 n2 :
  extends fs st st1 n1 → extends fs st1 st2 n2 →
  extends fs st st2 (n1 ++ n2).
Proof.
  intros (Hr1 & Hv1 & Hn1 & Hf1) (Hr2 & Hv2 & Hn2 & Hf2).
  unfold extends, names in *. split_and!.
  - by rewrite Hr2, Hr1, (assoc_L (++)).
  - rewrite Hv2, Hv1, fmap_app, list_to_set_app_L. set_solver.
  - rewrite fmap_app. apply NoDup_app. split_and!; [done| |done].
    intros x Hx1 (g & -> & Hg)%list_elem_of_fmap.
    rewrite Forall_forall in Hf2. destruct (Hf2 g Hg) as [Hnv _].
    apply Hnv. rewrite Hv1. apply elem_of_union_r.
    by apply elem_of_list_to_set.
  - apply Forall_app. split; [done|].
    eapply Forall_impl; [exact Hf2|]. intros g [Hnv Hfind]. split; [|done].
    intros Hin. apply Hnv. rewrite Hv1. set_solver.
Qed.

(** Marking [x] and, after the loop, appending its file. *)
Lemma extends_push x st st2 new f :
  x ∉ visited st →
  extends fs (Dfs ({[ x ]} ∪ visited st) (result st)) st2 new →
  find_file fs x = Some f →
  extends fs st (Dfs (visited st2) (result st2 ++ [f])) (new ++ [f]).
Proof.
  intros Hx (Hr & Hv & Hn & Hf) Hfind. simpl in *.
  destruct (find_file_Some _ _ _ Hfind) as [Hin Hname].
  unfold extends, names in *. simpl. split_and!.
  - by rewrite Hr, (assoc_L (++)).
  - rewrite Hv, fmap_app, list_to_set_app_L. simpl. rewrite Hname. set_solver.
  - rewrite fmap_app. apply NoDup_app. split_and!; [done| |apply NoDup_singleton].
    intros y (g & -> & Hg)%list_elem_of_fmap Hy. simpl in Hy.
    apply list_elem_of_singleton in Hy.
    rewrite Forall_forall in Hf. destruct (Hf g Hg) as [Hnv _].
    apply Hnv. rewrite Hy, Hname. set_solver.
  - apply Forall_app. split.
    + eapply Forall_impl; [exact Hf|]. intros g [Hnv Hg]. split; [|done].
      set_solver.
    + constructor; [|constructor]. rewrite Hname. done.
Qed.

Lemma visits_extends_mut :
  (∀ x st st', visits fs deps x st st' →
     x ∈ visited st' ∧ ∃ new, extends fs st st' new)
  ∧ (∀ ts st st', visits_deps fs deps ts st st' →
     ∃ new, extends fs st st' new).
Proof.
  split.
  - apply (visits_mut _ fs deps
      (λ x st st', x ∈ visited st' ∧ ∃ new, extends fs st st' new)
      (λ ts st st', ∃ new, extends fs st st' new)).
    + intros x st Hx. split; [done|]. eexists. apply extends_refl.
    + intros x st st2 f Hx _ [new Hnew] Hfind. simpl. split.
      * apply (extends_visited_mono _ _ _ Hnew). simpl. set_solver.
      * eexists. by eapply extends_push.
    + intros st. eexists. apply extends_refl.
    + intros t ts st st' _ _ IH. exact IH.
    + intros t ts g st st1 st' _ _ [_ [n1 H1]] _ [n2 H2].
      eexists. by eapply extends_trans.
  - apply (visits_deps_mut _ fs deps
      (λ x st st', x ∈ visited st' ∧ ∃ new, extends fs st st' new)
      (λ ts st st', ∃ new, extends fs st st' new)).
    + intros x st Hx. split; [done|]. eexists. apply extends_refl.
    + intros x st st2 f Hx _ [new Hnew] Hfind. simpl. split.
      * apply (extends_visited_mono _ _ _ Hnew). simpl. set_solver.
      * eexists. by eapply extends_push.
    + intros st. eexists. apply extends_refl.
    + intros t ts st st' _ _ IH. exact IH.
    + intros t ts g st st1 st' _ _ [_ [n1 H1]] _ [n2 H2].
      eexists. by eapply extends_trans.
Qed.

End Traversal.

(** ** Termination of the traversal *)

Lemma size_list_to_set_le (l : list string) :
  size (list_to_set l : gset string) ≤ length l.
Proof.
  induction l as [|x l IH]; simpl.
  { change (size (∅ : gset string) ≤ 0). by rewrite size_empty. }
  destruct (decide (x ∈ (list_to_set l : gset string))) as [Hx|Hx].
  - assert ({[ x ]} ∪ (list_to_set l : gset string) = list_to_set l) as ->
      by set_solver. lia.
  - rewrite size_union by set_solver. rewrite size_singleton. lia.
Qed.

Section Termination.

Context `{SetIteration}.
Variable fs : list file.
Variable deps : gmap string (gset string).

Lemma extends_within st st' new :
  extends fs st st' new →
  visited st ⊆ list_to_set (names fs) →
  visited st' ⊆ list_to_set (names fs).
Proof.
  intros (_ & -> & _ & Hf) Hsub. apply union_least; [done|].
  intros x (g & -> & Hg)%elem_of_list_to_set%list_elem_of_fmap.
  rewrite Forall_forall in Hf. destruct (Hf g Hg) as [_ Hfind].
  apply find_file_Some in Hfind as [Hin _].
  apply elem_of_list_to_set, list_elem_of_fmap. eauto.
Qed.

(** With more fuel than there are unmarked names, [visit] returns. *)
Lemma visit_terminates fuel x st :
  x ∈ names fs →
  visited st ⊆ list_to_set (names fs) →
  size ((list_to_set (names fs) : gset string) ∖ visited st) < fuel →
  is_Some (visit fs deps fuel x st).
Proof.
  revert x st. induction fuel as [|fuel IH]; intros x st Hx Hsub Hsize; [lia|].
  simpl. destruct (decide (x ∈ visited st)) as [Hv|Hv]; [by eexists|].
  set (st1 := Dfs ({[ x ]} ∪ visited st) (result st)).
  assert (visited st1 ⊆ list_to_set (names fs)) as Hsub1.
  { simpl. apply union_least; [|done].
    apply singleton_subseteq_l. by apply elem_of_list_to_set. }
  assert (size ((list_to_set (names fs) : gset string) ∖ visited st1) < fuel)
    as Hsize1.
  { assert ((list_to_set (names fs) : gset string) ∖ visited st1
            ⊂ list_to_set (names fs) ∖ visited st) as Hlt.
    { simpl. split; [set_solver|]. intros Hsup.
      assert (x ∈ (list_to_set (names fs) : gset string) ∖ visited st) as Hin.
      { apply elem_of_difference. split; [by apply elem_of_list_to_set|done]. }
      apply Hsup in Hin. set_solver. }
    apply subset_size in Hlt. lia. }
  assert (∀ ts s,
    visited st1 ⊆ visited s → visited s ⊆ list_to_set (names fs) →
    is_Some (for_each (λ dep_table s',
                match find_dep_file fs dep_table with
                | Some dep_file => visit fs deps fuel (name dep_file) s'
                | None => Some s'
                end) ts s)) as Hloop.
  { induction ts as [|t ts IHts]; intros s Hs1 Hs2; simpl; [by eexists|].
    destruct (find_dep_file fs t) as [g|] eqn:Hg; [|by apply IHts].
    destruct (find_dep_file_Some _ _ _ Hg) as [Hgin _].
    destruct (IH (name g) s) as [s' Hs'].
    - apply list_elem_of_fmap. eauto.
    - done.
    - eapply Nat.le_lt_trans; [|exact Hsize1].
      apply subseteq_size. set_solver.
    - rewrite Hs'. pose proof (visit_visits _ _ _ _ _ _ Hs') as Hrel.
      apply visits_extends_mut in Hrel as [_ [new Hnew]].
      apply IHts.
      + etrans; [exact Hs1|]. by eapply extends_visited_mono.
      + by eapply extends_within. }
  destruct (Hloop (deps_of deps x) st1) as [st2 ->]; [done..|].
  destruct (find_file_is_Some fs x Hx) as [f ->]. by eexists.
Qed.

(** The top-level loop returns, and its run is a derivation of
    [visits_all]. *)
Lemma visit_all_terminates fuel l st :
  l ⊆ fs →
  visited st ⊆ list_to_set (names fs) →
  length fs < fuel →
  ∃ st', for_each (λ f s, visit fs deps fuel (name f) s) l st = Some st'
         ∧ visits_all fs deps l st st'.
Proof.
  intros Hl Hsub Hfuel. revert st Hsub.
  induction l as [|f l IH]; intros st Hsub; simpl.
  - eexists. split; [done|constructor].
  - destruct (visit_terminates fuel (name f) st) as [st1 Hst1].
    + apply list_elem_of_fmap. exists f. split; [done|]. apply Hl. left.
    + done.
    + eapply Nat.le_lt_trans; [|exact Hfuel].
      etrans; [apply subseteq_size, subseteq_difference_l; reflexivity|].
      unfold names.
      etrans; [apply size_list_to_set_le|]. by rewrite length_fmap.
    + rewrite Hst1. pose proof (visit_visits _ _ _ _ _ _ Hst1) as Hrel.
      destruct (proj1 (visits_extends_mut fs deps) _ _ _ Hrel) as [_ [new Hnew]].
      destruct (IH (λ g Hg, Hl g (list_elem_of_further _ _ _ Hg)) st1)
        as (st' & Hrun & Hall).
      * by eapply extends_within.
      * exists st'. split; [done|]. by econstructor.
Qed.

End Termination.

(** ** The dictionary of references *)

Lemma build_dependencies_foldl_notin fs (d : gmap string (gset string)) x :
  x ∉ names fs →
  foldl (λ d f, <[ name f := get_table_references (content f) ]> d) d fs !! x
  = d !! x.
Proof.
  revert d. induction fs as [|g fs IH]; intros d Hx; simpl; [done|].
  unfold names in Hx. rewrite fmap_cons in Hx.
  apply not_elem_of_cons in Hx as [Hne Hx].
  rewrite IH by done. by rewrite lookup_insert_ne.
Qed.

Lemma build_dependencies_None fs x :
  x ∉ names fs → build_dependencies fs !! x = None.
Proof.
  intros Hx. unfold build_dependencies.
  by rewrite build_dependencies_foldl_notin.
Qed.

Lemma build_dependencies_Some fs f :
  NoDup (names fs) → f ∈ fs →
  build_dependencies fs !! name f = Some (get_table_references (content f)).
Proof.
  unfold build_dependencies. generalize (∅ : gmap string (gset string)).
  induction fs as [|g fs IH]; intros d Hnd Hf; [by apply elem_of_nil in Hf|].
  unfold names in Hnd. rewrite fmap_cons in Hnd.
  apply NoDup_cons in Hnd as [Hg Hnd]. simpl.
  apply elem_of_cons in Hf as [->|Hf].
  - rewrite build_dependencies_foldl_notin by done. apply lookup_insert_eq.
  - by apply IH.
Qed.

(** ** What [topological_sort] returns *)

Section Sorted.

Context `{SetIteration}.

(** [topological_sort] returns, and what it returns is the result of a
    run of the top-level loop from the empty state. *)
Lemma topological_sort_run files :
  ∃ st,
    topological_sort files = Some (result st)
    ∧ visits_all (sorted_by_name files)
                 (build_dependencies (sorted_by_name files))
                 (sorted_by_name files) (Dfs ∅ []) st.
Proof.
  unfold topological_sort.
  destruct (visit_all_terminates (sorted_by_name files)
              (build_dependencies (sorted_by_name files))
              (S (length (sorted_by_name files)))
              (sorted_by_name files) (Dfs ∅ []))
    as (st & Hrun & Hall); [done|simpl; set_solver|lia|].
  exists st. by rewrite Hrun.
Qed.

Lemma visits_all_extends fs deps l st st' :
  visits_all fs deps l st st' →
  (∀ f, f ∈ l → name f ∈ visited st') ∧ ∃ new, extends fs st st' new.
Proof.
  induction 1 as [st|f l st st1 st' Hv _ [IHin [n2 IH2]]].
  - split; [by intros f ?%elem_of_nil|]. eexists. apply extends_refl.
  - destruct (proj1 (visits_extends_mut fs deps) _ _ _ Hv) as [Hf [n1 H1]].
    split.
    + intros g [->|Hg]%elem_of_cons; [|by apply IHin].
      by apply (extends_visited_mono _ _ _ _ IH2).
    + eexists. by eapply extends_trans.
Qed.

(** The names of the returned files are distinct, they are the names of
    the input, and each returned file is the first input file, in sorted
    order, of its name. *)
Lemma topological_sort_names files :
  ∃ out,
    topological_sort files = Some out
    ∧ NoDup (names out)
    ∧ (∀ x, x ∈ names out ↔ x ∈ names files)
    ∧ (∀ g, g ∈ out → find_file (sorted_by_name files) (name g) = Some g).
Proof.
  destruct (topological_sort_run files) as (st & Hsort & Hall).
  apply visits_all_extends in Hall as [Hin (new & Hr & Hv & Hnd & Hf)].
  simpl in *. subst new. exists (result st). split_and!; [done..| |].
  - intros x. split.
    + intros (g & -> & Hg)%list_elem_of_fmap.
      rewrite Forall_forall in Hf. destruct (Hf g Hg) as [_ Hfind].
      apply find_file_Some in Hfind as [Hgin _].
      rewrite sorted_by_name_perm in Hgin.
      apply list_elem_of_fmap. eauto.
    + intros (f & -> & Hfin)%list_elem_of_fmap.
      rewrite <- sorted_by_name_perm in Hfin. apply Hin in Hfin.
      rewrite Hv in Hfin. set_solver.
  - intros g Hg. rewrite Forall_forall in Hf. by destruct (Hf g Hg).
Qed.

Lemma NoDup_names_inj fs f g :
  NoDup (names fs) → f ∈ fs → g ∈ fs → name f = name g → f = g.
Proof.
  induction fs as [|h fs IH]; [by intros _ ?%elem_of_nil|].
  unfold names. rewrite fmap_cons. intros [Hh Hnd]%NoDup_cons Hf Hg Heq.
  apply elem_of_cons in Hf as [->|Hf]; apply elem_of_cons in Hg as [->|Hg].
  - done.
  - exfalso. apply Hh. rewrite Heq. apply list_elem_of_fmap. eauto.
  - exfalso. apply Hh. rewrite <- Heq. apply list_elem_of_fmap. eauto.
  - by apply IH.
Qed.

Lemma NoDup_names_NoDup fs : NoDup (names fs) → NoDup fs.
Proof. apply NoDup_fmap_1. Qed.

(** With distinct names, the output is a rearrangement of the input. *)
Lemma topological_sort_perm files :
  NoDup (names files) →
  ∃ out, topological_sort files = Some out ∧ out ≡ₚ files.
Proof.
  intros Hnd.
  destruct (topological_sort_names files) as (out & Hout & Hnd' & Hnames & Hfind).
  exists out. split; [done|].
  apply NoDup_Permutation; [by apply NoDup_names_NoDup..|].
  intros g. split.
  - intros Hg. apply Hfind, find_file_Some in Hg as [Hg _].
    by rewrite sorted_by_name_perm in Hg.
  - intros Hg.
    assert (name g ∈ names out) as (g' & Heq & Hg')%list_elem_of_fmap.
    { apply Hnames, list_elem_of_fmap. eauto. }
    pose proof (Hfind g' Hg') as [Hin _]%find_file_Some.
    rewrite sorted_by_name_perm in Hin.
    by rewrite (NoDup_names_inj files g g' Hnd Hg Hin Heq).
Qed.

End Sorted.

(** ** Dependencies come first *)

Lemma precedes_app_l l1 l2 y x : precedes l1 y x → precedes (l1 ++ l2) y x.
Proof.
  intros (i & j & Hi & Hj & Hlt). exists i, j.
  split_and!; [by apply lookup_app_l_Some..|done].
Qed.

Lemma precedes_snoc l y x : y ∈ l → precedes (l ++ [x]) y x.
Proof.
  intros (i & Hi)%list_elem_of_lookup. exists i, (length l). split_and!.
  - by apply lookup_app_l_Some.
  - rewrite lookup_app_r by lia. by rewrite Nat.sub_diag.
  - by apply lookup_lt_Some in Hi.
Qed.

Lemma precedes_app_new l1 l2 y x :
  y ∈ l1 → x ∈ l2 → precedes (l1 ++ l2) y x.
Proof.
  intros (i & Hi)%list_elem_of_lookup (j & Hj)%list_elem_of_lookup.
  exists i, (length l1 + j). split_and!.
  - by apply lookup_app_l_Some.
  - rewrite lookup_app_r by lia. by replace (length l1 + j - length l1) with j by lia.
  - apply lookup_lt_Some in Hi. lia.
Qed.

Section Order.

Context `{SetIteration}.
Variable fs : list file.
Variable deps : gmap string (gset string).

Lemma extends_pending st st' new z :
  extends fs st st' new → pending st' z ↔ pending st z.
Proof.
  intros (Hr & Hv & _ & Hf). unfold pending, names in *.
  rewrite Hr, Hv, fmap_app, elem_of_union, elem_of_app, elem_of_list_to_set.
  split.
  - intros [[Hz|Hz] Hn]; [|by destruct Hn; right].
    split; [done|]. intros Hz'. apply Hn. by left.
  - intros [Hz Hn]. split; [by left|]. intros [Hz'|Hz']; [done|].
    apply list_elem_of_fmap in Hz' as (g & -> & Hg).
    rewrite Forall_forall in Hf. by destruct (Hf g Hg).
Qed.

Lemma extends_result_mono st st' new x :
  extends fs st st' new → x ∈ names (result st) → x ∈ names (result st').
Proof.
  intros (-> & _) Hx. unfold names. rewrite fmap_app. set_solver.
Qed.

Lemma extends_ordered st st' new x y :
  extends fs st st' new →
  precedes (names (result st)) y x → precedes (names (result st')) y x.
Proof.
  intros (-> & _) Hp. unfold names. rewrite fmap_app. by apply precedes_app_l.
Qed.

(** A call of [visit] keeps the result ordered, provided that the calls
    still running all lead to the file it is called for. *)
Lemma visits_ordered_mut :
  (∀ x st st', visits fs deps x st st' →
     ordered (edge fs deps) st →
     (∀ z, pending st z → rtc (edge fs deps) z x) →
     ordered (edge fs deps) st'
     ∧ (x ∈ names (result st') ∨ pending st x))
  ∧ (∀ ts st st', visits_deps fs deps ts st st' →
     ∀ x0, ts ⊆ deps_of deps x0 →
     ordered (edge fs deps) st →
     (∀ z, pending st z → rtc (edge fs deps) z x0) →
     ordered (edge fs deps) st'
     ∧ ∀ t g, t ∈ ts → find_dep_file fs t = Some g →
         name g ∈ names (result st') ∨ pending st (name g)).
Proof.
  set (P := λ x st st',
     ordered (edge fs deps) st →
     (∀ z, pending st z → rtc (edge fs deps) z x) →
     ordered (edge fs deps) st'
     ∧ (x ∈ names (result st') ∨ pending st x)).
  set (Q := λ ts st st',
     ∀ x0, ts ⊆ deps_of deps x0 →
     ordered (edge fs deps) st →
     (∀ z, pending st z → rtc (edge fs deps) z x0) →
     ordered (edge fs deps) st'
     ∧ ∀ t g, t ∈ ts → find_dep_file fs t = Some g →
         name g ∈ names (result st') ∨ pending st (name g)).
  assert (∀ x st, x ∈ visited st → P x st st) as Hseen.
  { intros x st Hx Hord Hpend. split; [done|].
    destruct (decide (x ∈ names (result st))); [by left|by right]. }
  assert (∀ x st st2 f, x ∉ visited st →
    visits_deps fs deps (deps_of deps x)
      (Dfs ({[ x ]} ∪ visited st) (result st)) st2 →
    Q (deps_of deps x) (Dfs ({[ x ]} ∪ visited st) (result st)) st2 →
    find_file fs x = Some f →
    P x st (Dfs (visited st2) (result st2 ++ [f]))) as Hnew.
  { intros x st st2 f Hx Hloop IH Hfind Hord Hpend.
    destruct (find_file_Some _ _ _ Hfind) as [_ Hname].
    destruct (IH x) as [Hord2 Hdeps]; [done|done| |].
    { intros z [Hz Hn]. simpl in *.
      apply elem_of_union in Hz as [->%elem_of_singleton|Hz]; [done|].
      by apply Hpend. }
    simpl. split.
    - intros x' y Hx' Hedge Hback. simpl in Hx' |- *. unfold names in Hx' |- *.
      rewrite fmap_app in Hx' |- *. simpl in Hx' |- *. rewrite Hname in Hx' |- *.
      apply elem_of_app in Hx' as [Hx'|Hx'].
      + by apply precedes_app_l, Hord2.
      + apply list_elem_of_singleton in Hx'. subst x'.
        apply precedes_snoc.
        destruct Hedge as (t & g & Ht & Hg & <-).
        destruct (Hdeps t g Ht Hg) as [Hin|[Hz Hn]]; [done|]. simpl in *.
        exfalso. apply Hback.
        apply elem_of_union in Hz as [->%elem_of_singleton|Hz]; [done|].
        by apply Hpend.
    - left. unfold names. rewrite fmap_app. simpl. rewrite Hname. set_solver. }
  assert (∀ st, Q [] st st) as Hnil.
  { intros st x0 _ Hord _. split; [done|]. by intros t g ?%elem_of_nil. }
  assert (∀ t ts st st', find_dep_file fs t = None →
    visits_deps fs deps ts st st' → Q ts st st' → Q (t :: ts) st st') as Hskip.
  { intros t ts st st' Hnone _ IH x0 Hsub Hord Hpend.
    destruct (IH x0) as [Hord' Hdeps]; [set_solver|done..|].
    split; [done|]. intros t' g [->|Ht']%elem_of_cons Hg; [congruence|eauto]. }
  assert (∀ t ts g st st1 st', find_dep_file fs t = Some g →
    visits fs deps (name g) st st1 → P (name g) st st1 →
    visits_deps fs deps ts st1 st' → Q ts st1 st' → Q (t :: ts) st st')
    as Hstep.
  { intros t ts g st st1 st' Hg Hv IHv Hloop IHloop x0 Hsub Hord Hpend.
    destruct (proj1 (visits_extends_mut fs deps) _ _ _ Hv) as [_ [n1 Hn1]].
    destruct (proj2 (visits_extends_mut fs deps) _ _ _ Hloop) as [n2 Hn2].
    destruct IHv as [Hord1 Hg1]; [done| |].
    { intros z Hz. eapply rtc_r; [by apply Hpend|].
      exists t, g. split_and!; [set_solver|done..]. }
    destruct (IHloop x0) as [Hord' Hdeps]; [set_solver|done| |].
    { intros z Hz. apply Hpend. by apply (extends_pending _ _ _ z Hn1). }
    split; [done|]. intros t' g' [->|Ht']%elem_of_cons Hg'.
    - assert (g' = g) as -> by congruence.
      destruct Hg1 as [Hin|Hp]; [|by right].
      left. by eapply extends_result_mono.
    - destruct (Hdeps t' g' Ht' Hg') as [Hin|Hp]; [by left|].
      right. by apply (extends_pending _ _ _ (name g') Hn1). }
  split.
  - apply (visits_mut _ fs deps P Q); eauto.
  - apply (visits_deps_mut _ fs deps P Q); eauto.
Qed.

(** Between two top-level calls no call of [visit] is running. *)
Lemma visits_all_ordered l st st' :
  visits_all fs deps l st st' →
  ordered (edge fs deps) st → (∀ z, ¬ pending st z) →
  ordered (edge fs deps) st' ∧ (∀ z, ¬ pending st' z).
Proof.
  induction 1 as [st|f l st st1 st' Hv _ IH]; intros Hord Hpend; [done|].
  destruct (proj1 (visits_extends_mut fs deps) _ _ _ Hv) as [_ [n1 Hn1]].
  destruct (proj1 visits_ordered_mut _ _ _ Hv) as [Hord1 _]; [done| |].
  { intros z Hz. by destruct (Hpend z). }
  apply IH; [done|]. intros z Hz. apply (Hpend z).
  by apply (extends_pending _ _ _ z Hn1).
Qed.

End Order.

(** ** From names to files *)

Lemma name_lt_not_le f g : name_lt f g → ¬ name_le g f.
Proof.
  unfold name_lt, name_le, String.ltb, String.leb.
  rewrite (String.compare_antisym (name g) (name f)).
  by destruct (String.compare (name f) (name g)).
Qed.

Lemma name_lt_irrefl f : ¬ name_lt f f.
Proof.
  intros Hlt. apply (name_lt_not_le _ _ Hlt).
  by destruct (name_le_total f f).
Qed.

Lemma precedes_cons l z y x : precedes l y x → precedes (z :: l) y x.
Proof.
  intros (i & j & Hi & Hj & Hlt). exists (S i), (S j).
  split_and!; [done..|lia].
Qed.

(** In a list sorted by name, a strictly smaller name comes first. *)
Lemma sorted_precedes l f1 f2 :
  StronglySorted name_le l → f1 ∈ l → f2 ∈ l → name_lt f1 f2 →
  precedes (names l) (name f1) (name f2).
Proof.
  induction 1 as [|h t Ht IH Hh]; intros H1 H2 Hlt; [by apply elem_of_nil in H1|].
  rewrite Forall_forall in Hh.
  apply elem_of_cons in H1 as [->|H1]; apply elem_of_cons in H2 as [->|H2].
  - by apply name_lt_irrefl in Hlt.
  - apply list_elem_of_lookup in H2 as [k Hk]. exists 0, (S k).
    split_and!; [done| |lia]. simpl. unfold names.
    by rewrite list_lookup_fmap, Hk.
  - exfalso. by apply (name_lt_not_le _ _ Hlt), Hh.
  - by apply precedes_cons, IH.
Qed.

Section Files.

Context `{SetIteration}.
Variable files : list file.
Hypothesis files_distinct : NoDup (names files).

Lemma sorted_distinct : NoDup (names (sorted_by_name files)).
Proof. by rewrite names_sorted_perm. Qed.

Lemma deps_of_file f t :
  f ∈ files →
  t ∈ deps_of (build_dependencies (sorted_by_name files)) (name f)
  ↔ t ∈ get_table_references (content f).
Proof.
  intros Hf. unfold deps_of.
  rewrite build_dependencies_Some;
    [|apply sorted_distinct|by rewrite sorted_by_name_perm].
  by rewrite iter_perm, elem_of_elements.
Qed.

Lemma depends_on_target f g : depends_on files f g → g ∈ files.
Proof.
  intros (_ & t & _ & Hg). apply find_dep_file_Some in Hg as [Hg _].
  by rewrite sorted_by_name_perm in Hg.
Qed.

Lemma depends_on_edge f g :
  depends_on files f g →
  edge (sorted_by_name files) (build_dependencies (sorted_by_name files))
       (name f) (name g).
Proof.
  intros (Hf & t & Ht & Hg). exists t, g.
  split_and!; [by apply deps_of_file|done..].
Qed.

Lemma edge_depends_on x y :
  edge (sorted_by_name files) (build_dependencies (sorted_by_name files)) x y →
  ∃ f g, name f = x ∧ name g = y ∧ depends_on files f g.
Proof.
  intros (t & g & Ht & Hg & <-).
  destruct (decide (x ∈ names (sorted_by_name files))) as [Hx|Hx].
  - apply list_elem_of_fmap in Hx as (f & -> & Hf).
    rewrite sorted_by_name_perm in Hf.
    exists f, g. split_and!; [done..|].
    split; [done|]. exists t. split; [|done]. by apply deps_of_file.
  - unfold deps_of in Ht. rewrite build_dependencies_None in Ht by done.
    by apply elem_of_nil in Ht.
Qed.

Lemma rtc_edge_depends_on y x :
  rtc (edge (sorted_by_name files)
            (build_dependencies (sorted_by_name files))) y x →
  ∀ g, g ∈ files → name g = y →
  ∃ f, f ∈ files ∧ name f = x ∧ rtc (depends_on files) g f.
Proof.
  induction 1 as [y|y z x Hyz _ IH]; intros g Hg Hname.
  - exists g. by split_and!.
  - apply edge_depends_on in Hyz as (g' & h & Hg' & Hh & Hdep).
    assert (g' = g) as ->.
    { apply (NoDup_names_inj files); [done|by destruct Hdep|done|congruence]. }
    destruct (IH h) as (f & Hf & Hfx & Hrtc);
      [by eapply depends_on_target|done|].
    exists f. split_and!; [done..|]. by eapply rtc_l.
Qed.

(** A dependency that does not lead back to its dependent comes out
    before it. *)
Lemma topological_sort_dependency_first out f g :
  topological_sort files = Some out →
  depends_on files f g →
  ¬ rtc (depends_on files) g f →
  precedes (names out) (name g) (name f).
Proof.
  intros Hout Hdep Hback.
  destruct (topological_sort_run files) as (st & Hsort & Hall).
  assert (out = result st) as -> by congruence.
  destruct (topological_sort_names files) as (out & Hout' & _ & Hnames & _).
  assert (out = result st) as -> by congruence.
  destruct (visits_all_ordered _ _ _ _ _ Hall) as [Hord _].
  { intros x y Hx. by apply elem_of_nil in Hx. }
  { intros z [Hz _]. simpl in Hz. set_solver. }
  apply Hord.
  - apply Hnames, list_elem_of_fmap. exists f. by destruct Hdep.
  - by apply depends_on_edge.
  - intros Hrtc. apply Hback.
    destruct (rtc_edge_depends_on _ _ Hrtc g) as (f' & Hf' & Hname & Hr);
      [by eapply depends_on_target|done|].
    assert (f' = f) as ->; [|done].
    apply (NoDup_names_inj files); [done|done|by destruct Hdep|done].
Qed.

End Files.

(** ** Files that nothing depends on keep their order *)

Section Roots.

Context `{SetIteration}.
Variable fs : list file.
Variable deps : gmap string (gset string).

(** Apart from the file it is called for, a call of [visit] only adds
    files that some file depends on. *)
Lemma visits_adds_mut :
  (∀ x st st', visits fs deps x st st' →
     ∀ g, g ∈ result st' →
          g ∈ result st ∨ name g = x ∨ ∃ z, edge fs deps z (name g))
  ∧ (∀ ts st st', visits_deps fs deps ts st st' →
     ∀ x0, ts ⊆ deps_of deps x0 →
     ∀ g, g ∈ result st' → g ∈ result st ∨ ∃ z, edge fs deps z (name g)).
Proof.
  set (P := λ x st st', ∀ g, g ∈ result st' →
     g ∈ result st ∨ name g = x ∨ ∃ z, edge fs deps z (name g)).
  set (Q := λ ts st st', ∀ x0, ts ⊆ deps_of deps x0 →
     ∀ g, g ∈ result st' → g ∈ result st ∨ ∃ z, edge fs deps z (name g)).
  assert (∀ x st, x ∈ visited st → P x st st) as Hseen.
  { intros x st _ g Hg. by left. }
  assert (∀ x st st2 f, x ∉ visited st →
    visits_deps fs deps (deps_of deps x)
      (Dfs ({[ x ]} ∪ visited st) (result st)) st2 →
    Q (deps_of deps x) (Dfs ({[ x ]} ∪ visited st) (result st)) st2 →
    find_file fs x = Some f →
    P x st (Dfs (visited st2) (result st2 ++ [f]))) as Hnew.
  { intros x st st2 f _ _ IH Hfind g Hg. simpl in Hg.
    apply elem_of_app in Hg as [Hg|Hg].
    - unfold Q in IH.
      destruct (IH x ltac:(done) g Hg) as [Hin|Ht]; [by left|by right; right].
    - apply list_elem_of_singleton in Hg as ->. right; left.
      by destruct (find_file_Some _ _ _ Hfind). }
  assert (∀ st, Q [] st st) as Hnil.
  { intros st x0 _ g Hg. by left. }
  assert (∀ t ts st st', find_dep_file fs t = None →
    visits_deps fs deps ts st st' → Q ts st st' → Q (t :: ts) st st') as Hskip.
  { intros t ts st st' _ _ IH x0 Hsub. apply (IH x0). set_solver. }
  assert (∀ t ts g st st1 st', find_dep_file fs t = Some g →
    visits fs deps (name g) st st1 → P (name g) st st1 →
    visits_deps fs deps ts st1 st' → Q ts st1 st' → Q (t :: ts) st st')
    as Hstep.
  { intros t ts g st st1 st' Hg _ IHv _ IHloop x0 Hsub h Hh.
    unfold P, Q in *.
    destruct (IHloop x0 ltac:(set_solver) h Hh) as [Hin|Ht]; [|by right].
    destruct (IHv h Hin) as [Hin'|[Heq|Ht]]; [by left| |by right].
    right. exists x0, t, g. split_and!; [set_solver|done..]. }
  split.
  - apply (visits_mut _ fs deps P Q); eauto.
  - apply (visits_deps_mut _ fs deps P Q); eauto.
Qed.

Lemma visits_all_adds l st st' :
  visits_all fs deps l st st' →
  ∀ g, g ∈ result st' →
       g ∈ result st ∨ name g ∈ names l ∨ ∃ z, edge fs deps z (name g).
Proof.
  induction 1 as [st|f l st st1 st' Hv _ IH]; intros g Hg; [by left|].
  destruct (IH g Hg) as [Hin|[Hin|Ht]].
  - destruct (proj1 visits_adds_mut _ _ _ Hv g Hin) as [Hin'|[Heq|Ht]].
    + by left.
    + right; left. unfold names. rewrite fmap_cons, Heq. by left.
    + by right; right.
  - right; left. unfold names. rewrite fmap_cons. by right.
  - by right; right.
Qed.

Lemma visits_all_app_inv l1 l2 st st' :
  visits_all fs deps (l1 ++ l2) st st' →
  ∃ st1, visits_all fs deps l1 st st1 ∧ visits_all fs deps l2 st1 st'.
Proof.
  revert st. induction l1 as [|f l1 IH]; intros st Hall; simpl in Hall.
  - exists st. split; [constructor|done].
  - inversion Hall as [|f' l' s s1 s' Hv Hrest]; subst.
    destruct (IH _ Hrest) as (st2 & H1 & H2).
    exists st2. split; [by econstructor|done].
Qed.

(** Two names that no file depends on come out in the order in which the
    top-level loop meets them. *)
Lemma visits_all_roots st' x y :
  NoDup (names fs) →
  visits_all fs deps fs (Dfs ∅ []) st' →
  precedes (names fs) x y →
  (¬ ∃ z, edge fs deps z y) →
  precedes (names (result st')) x y.
Proof.
  intros Hnd Hall (i & j & Hi & Hj & Hlt) Hy.
  unfold names in Hi, Hj. rewrite list_lookup_fmap in Hi, Hj.
  destruct (fs !! i) as [fx|] eqn:Hfx; [|done].
  destruct (fs !! j) as [fy|] eqn:Hfy; [|done]. simpl in Hi, Hj.
  simplify_eq.
  assert (visits_all fs deps (take j fs ++ fy :: drop (S j) fs) (Dfs ∅ []) st')
    as Hall' by (by rewrite (take_drop_middle fs j fy Hfy)).
  apply visits_all_app_inv in Hall' as (stc & Hpre & Hrest).
  inversion Hrest as [|f' l' s std s' Hv Hpost]; subst.
  destruct (visits_all_extends _ _ _ _ _ Hpre) as [Hin (n1 & Hr1 & Hv1 & _)].
  destruct (proj1 (visits_extends_mut fs deps) _ _ _ Hv)
    as [Hyin (n2 & Hr2 & Hv2 & _)].
  destruct (visits_all_extends _ _ _ _ _ Hpost) as [_ (n3 & Hn3)].
  simpl in Hr1, Hv1. subst n1.
  eapply extends_ordered; [exact Hn3|].
  rewrite Hr2. unfold names. rewrite fmap_app. apply precedes_app_new.
  - assert (name fx ∈ visited stc) as Hx.
    { apply Hin. apply list_elem_of_lookup. exists i.
      by rewrite lookup_take_lt. }
    rewrite Hv1 in Hx. set_solver.
  - rewrite Hv2 in Hyin. apply elem_of_union in Hyin as [Hyin|Hyin];
      [|by apply elem_of_list_to_set in Hyin].
    exfalso. rewrite Hv1 in Hyin.
    apply elem_of_union in Hyin as [Hyin|Hyin]; [set_solver|].
    apply elem_of_list_to_set, list_elem_of_fmap in Hyin as (g & Hname & Hg).
    destruct (visits_all_adds _ _ _ Hpre g Hg) as [Hin'|[Hin'|Ht]].
    + by apply elem_of_nil in Hin'.
    + rewrite <- Hname in Hin'.
      apply list_elem_of_lookup in Hin' as [k Hk].
      assert (k < j) as Hkj.
      { apply lookup_lt_Some in Hk as Hlen. unfold names in Hlen.
        rewrite length_fmap, length_take in Hlen. lia. }
      unfold names in Hk. rewrite list_lookup_fmap in Hk.
      rewrite lookup_take_lt in Hk by done.
      assert (names fs !! k = Some (name fy)) as Hk'
        by (unfold names; by rewrite list_lookup_fmap).
      assert (names fs !! j = Some (name fy)) as Hj'
        by (unfold names; by rewrite list_lookup_fmap, Hfy).
      pose proof (NoDup_lookup _ _ _ _ Hnd Hk' Hj'). lia.
    + apply Hy. by rewrite Hname.
Qed.

End Roots.

(** ** References found in a file *)

Lemma get_table_references_foldl lines (acc : gset string) m :
  m ∈ foldl
        (λ references line,
           if PyStr.contains "REFERENCES" line then
             match re_search_references line with
             | Some m => {[ m ]} ∪ references
             | None => references
             end
           else references) acc lines
  ↔ m ∈ acc
    ∨ ∃ line, line ∈ lines ∧ PyStr.contains "REFERENCES" line = true
              ∧ re_search_references line = Some m.
Proof.
  revert acc. induction lines as [|l lines IH]; intros acc; simpl.
  - split; [by left|]. intros [?|(? & ?%elem_of_nil & _)]; done.
  - rewrite IH. split.
    + intros [Hm|(line & Hin & Hc & Hs)].
      * destruct (PyStr.contains "REFERENCES" l) eqn:Hc; [|by left].
        destruct (re_search_references l) as [m'|] eqn:Hs; [|by left].
        apply elem_of_union in Hm as [->%elem_of_singleton|Hm]; [|by left].
        right. exists l. split_and!; [by left|done..].
      * right. exists line. split_and!; [by right|done..].
    + intros [Hm|(line & [->|Hin]%elem_of_cons & Hc & Hs)].
      * left. destruct (PyStr.contains "REFERENCES" l); [|done].
        destruct (re_search_references l); [|done]. set_solver.
      * left. rewrite Hc, Hs. set_solver.
      * right. exists line. by split_and!.
Qed.

(** A table name is referenced exactly when some line of the content
    contains [REFERENCES] and the pattern captures that name on it. *)
Lemma elem_of_get_table_references sql_content m :
  m ∈ get_table_references sql_content
  ↔ ∃ line, line ∈ PyStr.split "010"%char sql_content
            ∧ PyStr.contains "REFERENCES" line = true
            ∧ re_search_references line = Some m.
Proof.
  unfold get_table_references. rewrite get_table_references_foldl.
  split; [intros [Hm|Hm]; [set_solver|done]|by right].
Qed.

Lemma build_dependencies_foldl_Some fs (d : gmap string (gset string)) x r :
  foldl (λ d f, <[ name f := get_table_references (content f) ]> d) d fs !! x
  = Some r →
  d !! x = Some r ∨ ∃ f, f ∈ fs ∧ r = get_table_references (content f).
Proof.
  revert d. induction fs as [|g fs IH]; intros d Hx; simpl in Hx; [by left|].
  apply IH in Hx as [Hx|(f & Hf & ->)].
  - destruct (decide (name g = x)) as [<-|Hne].
    + rewrite lookup_insert_eq in Hx. simplify_eq. right. exists g.
      split; [by left|done].
    + rewrite lookup_insert_ne in Hx by done. by left.
  - right. exists f. split; [by right|done].
Qed.

Section NoReferences.

Context `{SetIteration}.

Lemma iter_empty : iter ∅ = [].
Proof.
  apply Permutation_nil_r. rewrite iter_perm. by rewrite elements_empty.
Qed.

(** Without references there is nothing to iterate over in [visit]. *)
Lemma deps_of_no_references fs x :
  (∀ f, f ∈ fs → get_table_references (content f) = ∅) →
  deps_of (build_dependencies fs) x = [].
Proof.
  intros Hnone. unfold deps_of.
  destruct (build_dependencies fs !! x) as [r|] eqn:Hr; [|done].
  apply build_dependencies_foldl_Some in Hr as [Hr|(f & Hf & ->)];
    [by rewrite lookup_empty in Hr|].
  rewrite Hnone by done. apply iter_empty.
Qed.

Lemma find_file_distinct fs f :
  NoDup (names fs) → f ∈ fs → find_file fs (name f) = Some f.
Proof.
  intros Hnd Hf.
  destruct (find_file_is_Some fs (name f)) as [g Hg].
  { apply list_elem_of_fmap. eauto. }
  rewrite Hg. f_equal.
  apply find_file_Some in Hg as [Hgin Hname].
  by apply (NoDup_names_inj fs).
Qed.

Lemma visit_all_no_references fs fuel l st :
  (∀ x, deps_of (build_dependencies fs) x = []) →
  NoDup (names fs) → NoDup (names l) →
  (∀ f, f ∈ l → f ∈ fs ∧ name f ∉ visited st) →
  ∃ st', for_each (λ f s, visit fs (build_dependencies fs) (S fuel) (name f) s)
                  l st = Some st'
         ∧ result st' = result st ++ l.
Proof.
  intros Hdeps Hnd. revert st.
  induction l as [|f l IH]; intros st Hl Hin.
  - exists st. by rewrite app_nil_r.
  - unfold names in Hl. rewrite fmap_cons in Hl.
    apply NoDup_cons in Hl as [Hf Hl].
    destruct (Hin f) as [Hffs Hfv]; [by left|].
    cbn [for_each visit]. rewrite decide_False by done.
    rewrite Hdeps. cbn [for_each]. rewrite find_file_distinct by done.
    destruct (IH (Dfs ({[ name f ]} ∪ visited st) (result st ++ [f])))
      as (st' & Hrun & Hres); [done| |].
    + intros g Hg. destruct (Hin g) as [Hgfs Hgv]; [by right|].
      split; [done|]. simpl. apply not_elem_of_union. split; [|done].
      intros Heq%elem_of_singleton. apply Hf, list_elem_of_fmap. eauto.
    + exists st'. split; [done|]. rewrite Hres. simpl.
      by rewrite <- (assoc_L (++)).
Qed.

Lemma topological_sort_no_references files :
  NoDup (names files) →
  (∀ f, f ∈ files → get_table_references (content f) = ∅) →
  topological_sort files = Some (sorted_by_name files).
Proof.
  intros Hnd Hnone. unfold topological_sort.
  destruct (visit_all_no_references (sorted_by_name files)
              (length (sorted_by_name files)) (sorted_by_name files)
              (Dfs ∅ [])) as (st' & -> & Hres).
  - intros x. apply deps_of_no_references. intros f Hf. apply Hnone.
    by rewrite sorted_by_name_perm in Hf.
  - by rewrite names_sorted_perm.
  - by rewrite names_sorted_perm.
  - intros f Hf. split; [done|]. simpl. set_solver.
  - by rewrite Hres.
Qed.

End NoReferences.

(** ** The properties of [topological_sort] *)

(** In a list without repetition, positions decide [precedes]. *)
Lemma precedes_lookup (l : list string) y x i j :
  NoDup l → l !! i = Some y → l !! j = Some x → precedes l y x → i < j.
Proof.
  intros Hnd Hi Hj (i' & j' & Hi' & Hj' & Hlt).
  by rewrite (NoDup_lookup _ _ _ _ Hnd Hi Hi'), (NoDup_lookup _ _ _ _ Hnd Hj Hj').
Qed.

Lemma precedes_two_inv (a b : string) : a ≠ b → ¬ precedes [a; b] b a.
Proof.
  intros Hne Hp.
  assert (NoDup [a; b]) as Hnd.
  { apply NoDup_cons. split; [set_solver|apply NoDup_singleton]. }
  pose proof (precedes_lookup [a; b] b a 1 0 Hnd eq_refl eq_refl Hp). lia.
Qed.

(** C8. When no file's content yields a referenced table, the list returned
    by [topological_sort] is the input sorted by file name: a rearrangement
    of the input in which names never decrease.  (File names are distinct,
    as those of the files of one directory are.) *)
Theorem topological_sort_lexicographic `{SetIteration} (files : list file) :
  NoDup (names files) →
  (∀ f, f ∈ files → get_table_references (content f) = ∅) →
  topological_sort files = Some (sorted_by_name files)
  ∧ sorted_by_name files ≡ₚ files
  ∧ StronglySorted name_le (sorted_by_name files).
Proof.
  intros Hnd Hnone. split_and!.
  - by apply topological_sort_no_references.
  - apply sorted_by_name_perm.
  - apply sorted_by_name_sorted.
Qed.

(** C8 on three files without references, given out of order. *)
Lemma topological_sort_lexicographic_witness :
  @topological_sort elements_iteration files_plain
  = Some [File "001_init.sql" "CREATE TABLE users (id INT);";
          File "002_items.sql" "CREATE TABLE items (id INT);";
          File "003_tags.sql" "CREATE TABLE tags (id INT);"].
Proof.
  refine (proj1 (@topological_sort_lexicographic elements_iteration
                   files_plain _ _)).
  - by_computation.
  - intros f Hf. unfold files_plain in Hf.
    repeat (apply elem_of_cons in Hf as [->|Hf]; [reflexivity|]).
    by apply elem_of_nil in Hf.
Defined.

Section OrderOfFiles.

Context `{SetIteration}.

Lemma topological_sort_roots files out f g :
  NoDup (names files) →
  topological_sort files = Some out →
  f ∈ files → g ∈ files → ¬ is_dependency files g → name_lt f g →
  precedes (names out) (name f) (name g).
Proof.
  intros Hnd Hout Hf Hg Hroot Hlt.
  destruct (topological_sort_run files) as (st & Hsort & Hall).
  assert (out = result st) as -> by congruence.
  eapply visits_all_roots; [|exact Hall| |].
  - by rewrite names_sorted_perm.
  - apply sorted_precedes; [apply sorted_by_name_sorted| | |done];
      by rewrite sorted_by_name_perm.
  - intros [z Hz]. apply Hroot.
    apply edge_depends_on in Hz as (f' & g' & _ & Hname & Hdep); [|done].
    exists f'. assert (g' = g) as <-; [|done].
    apply (NoDup_names_inj files); [done| |done..].
    by eapply depends_on_target.
Qed.

Lemma topological_sort_example files out ca cb :
  topological_sort files = Some out →
  files ≡ₚ [File "b_table.sql" cb; File "a_table.sql" ca] →
  get_table_references cb = ∅ →
  "FOREIGN KEY REFERENCES b" ∈ PyStr.split "010"%char ca →
  out = [File "b_table.sql" cb; File "a_table.sql" ca].
Proof.
  intros Hout Hperm Hcb Hline.
  assert (NoDup (names files)) as Hnd.
  { unfold names. rewrite Hperm. by_computation. }
  assert (sorted_by_name files
          = [File "a_table.sql" ca; File "b_table.sql" cb]) as Hsorted.
  { symmetry in Hperm.
    by apply Permutation_length_2_inv in Hperm as [->| ->]. }
  assert (depends_on files (File "a_table.sql" ca) (File "b_table.sql" cb))
    as Hdep.
  { split; [rewrite Hperm; set_solver|]. exists "b". split.
    - apply elem_of_get_table_references.
      exists "FOREIGN KEY REFERENCES b". by split_and!.
    - by rewrite Hsorted. }
  assert (¬ rtc (depends_on files) (File "b_table.sql" cb)
                (File "a_table.sql" ca)) as Hback.
  { intros [Heq|(z & (_ & t & Ht & _) & _)]%rtc_inv; [done|].
    simpl in Ht. rewrite Hcb in Ht. set_solver. }
  pose proof (topological_sort_dependency_first files Hnd out _ _
                Hout Hdep Hback) as Hprec.
  destruct (topological_sort_perm files Hnd) as (out' & Hout' & Hperm').
  assert (out' = out) as -> by congruence.
  rewrite Hperm in Hperm'. symmetry in Hperm'.
  apply Permutation_length_2_inv in Hperm' as [->| ->]; [done|].
  by apply precedes_two_inv in Hprec.
Qed.

End OrderOfFiles.

(** C1, as amended.  For files with distinct names, [topological_sort]
    returns a list in which
    - every dependency resolved by the prefix match comes strictly before
      its dependent, unless the dependency itself leads back to the dependent
      along resolved dependencies; so all of them do when the resolved
      dependencies contain no cycle;
    - a file that no file depends on comes after every file of a smaller
      name; so such files keep their lexicographic order among themselves;
    - and [b_table.sql], without references, comes before [a_table.sql]
      when that has the line [FOREIGN KEY REFERENCES b]. *)
Theorem topological_sort_order `{SetIteration} (files : list file) :
  NoDup (names files) →
  ∃ out,
    topological_sort files = Some out
    ∧ (∀ f g, depends_on files f g → ¬ rtc (depends_on files) g f →
              precedes (names out) (name g) (name f))
    ∧ (acyclic files →
       ∀ f g, depends_on files f g → precedes (names out) (name g) (name f))
    ∧ (∀ f g, f ∈ files → g ∈ files → ¬ is_dependency files g → name_lt f g →
              precedes (names out) (name f) (name g))
    ∧ (∀ ca cb,
         files ≡ₚ [File "b_table.sql" cb; File "a_table.sql" ca] →
         get_table_references cb = ∅ →
         "FOREIGN KEY REFERENCES b" ∈ PyStr.split "010"%char ca →
         out = [File "b_table.sql" cb; File "a_table.sql" ca]).
Proof.
  intros Hnd.
  destruct (topological_sort_perm files Hnd) as (out & Hout & _).
  exists out. split_and!; [done|..].
  - intros f g. by apply (topological_sort_dependency_first files).
  - intros Hacyclic f g Hdep.
    apply (topological_sort_dependency_first files); [done..|].
    intros [->|Htc]%rtc_tc; apply (Hacyclic f).
    + by apply tc_once.
    + by eapply tc_l.
  - intros f g. by apply topological_sort_roots.
  - intros ca cb. by apply topological_sort_example.
Qed.

(** C1 on the two files of the example, given in name order: the
    referenced table's file comes out first. *)
Lemma topological_sort_order_witness :
  @topological_sort elements_iteration
    [File "a_table.sql" "CREATE TABLE a (
FOREIGN KEY REFERENCES b
);";
     File "b_table.sql" "CREATE TABLE b (id INT);"]
  = Some [File "b_table.sql" "CREATE TABLE b (id INT);";
          File "a_table.sql" "CREATE TABLE a (
FOREIGN KEY REFERENCES b
);"].
Proof.
  destruct (@topological_sort_order elements_iteration
    [File "a_table.sql" "CREATE TABLE a (
FOREIGN KEY REFERENCES b
);";
     File "b_table.sql" "CREATE TABLE b (id INT);"])
    as (out & Hout & _ & _ & _ & Hexample).
  - by_computation.
  - rewrite Hout. f_equal. apply Hexample.
    + apply Permutation_swap.
    + vm_compute. reflexivity.
    + by_computation.
Defined.

(** C1 as stated fails on [files_cyclic].  [y.sql] depends on [x.sql] and
    comes out before it; [b.sql] and [d.sql] have no resolvable dependency
    and [d.sql] comes out first, being needed by [a.sql]. *)
Lemma topological_sort_order_counterexample :
  @topological_sort elements_iteration files_cyclic = Some out_cyclic
  ∧ ¬ (∀ f g, depends_on files_cyclic f g →
              precedes (names out_cyclic) (name g) (name f))
  ∧ ¬ (∀ f g, f ∈ files_cyclic → g ∈ files_cyclic →
              ¬ has_dependency files_cyclic f →
              ¬ has_dependency files_cyclic g →
              name_lt f g →
              precedes (names out_cyclic) (name f) (name g)).
Proof.
  split_and!.
  - vm_compute. reflexivity.
  - intros Hall.
    assert (depends_on files_cyclic
              (File "y.sql" "CREATE TABLE y (x_id INT REFERENCES x);")
              (File "x.sql" "CREATE TABLE x (y_id INT REFERENCES y);")) as Hdep.
    { split; [by_computation|]. exists "x". split; [by_computation|].
      vm_compute. reflexivity. }
    pose proof (Hall _ _ Hdep) as Hp.
    assert (NoDup (names out_cyclic)) as Hnd by by_computation.
    pose proof (precedes_lookup _ _ _ 4 3 Hnd eq_refl eq_refl Hp). lia.
  - intros Hall.
    assert (∀ c, get_table_references c = ∅ →
                 ¬ has_dependency files_cyclic (File "b.sql" c)) as Hb.
    { intros c Hc (g & _ & t & Ht & _). simpl in Ht. rewrite Hc in Ht.
      set_solver. }
    assert (∀ c, get_table_references c = ∅ →
                 ¬ has_dependency files_cyclic (File "d.sql" c)) as Hd.
    { intros c Hc (g & _ & t & Ht & _). simpl in Ht. rewrite Hc in Ht.
      set_solver. }
    assert (precedes (names out_cyclic) "b.sql" "d.sql") as Hp.
    { apply (Hall (File "b.sql" "CREATE TABLE b (id INT);")
                    (File "d.sql" "CREATE TABLE d (id INT);")).
      - by_computation.
      - by_computation.
      - apply Hb. vm_compute. reflexivity.
      - apply Hd. vm_compute. reflexivity.
      - reflexivity. }
    assert (NoDup (names out_cyclic)) as Hnd by by_computation.
    pose proof (precedes_lookup _ _ _ 2 0 Hnd eq_refl eq_refl Hp). lia.
Qed.

(** ** Python string primitives: what they compute *)

Lemma string_app_cons a s t : String a s +:+ t = String a (s +:+ t).
Proof. reflexivity. Qed.

Lemma string_app_nil s : "" +:+ s = s.
Proof. reflexivity. Qed.

Lemma startswith_spec pre s :
  PyStr.startswith pre s = true ↔ ∃ rest, s = pre +:+ rest.
Proof.
  unfold PyStr.startswith. revert s.
  induction pre as [|a pre IH]; intros s; simpl.
  - destruct s; (split; [intros _; by eexists|done]).
  - destruct s as [|b s]; simpl.
    + split; [done|]. by intros [rest ?].
    + destruct (ascii_dec a b) as [->|Hne].
      * rewrite IH. split; intros [rest Hr]; exists rest.
        -- by rewrite string_app_cons, Hr.
        -- rewrite string_app_cons in Hr. by simplify_eq.
      * split; [done|]. intros [rest Hr].
        rewrite string_app_cons in Hr. by simplify_eq.
Qed.

Lemma contains_spec needle hay :
  PyStr.contains needle hay = true
  ↔ ∃ pre post, hay = pre +:+ needle +:+ post.
Proof.
  induction hay as [|c hay IH]; cbn [PyStr.contains].
  - rewrite orb_false_r, startswith_spec. split.
    + intros [rest Hr]. by exists "", rest.
    + intros (pre & post & Hr). destruct pre; [by exists post|done].
  - rewrite orb_true_iff, startswith_spec, IH. split.
    + intros [[rest Hr]|(pre & post & Hr)].
      * by exists "", rest.
      * exists (String c pre), post. by rewrite string_app_cons, Hr.
    + intros (pre & post & Hr). destruct pre as [|a pre].
      * left. by exists post.
      * right. exists pre, post. rewrite string_app_cons in Hr. by simplify_eq.
Qed.

Lemma upper_app s t : PyStr.upper (s +:+ t) = PyStr.upper s +:+ PyStr.upper t.
Proof.
  unfold PyStr.upper. induction s as [|c s IH]; [done|].
  rewrite string_app_cons. cbn [PyStr.map_chars].
  by rewrite string_app_cons, IH.
Qed.

Lemma lower_char_not_upper_R c : PyStr.lower_char c ≠ "R"%char.
Proof. by destruct c as [[] [] [] [] [] [] [] []]. Qed.

(** [occurs a s]: the character [a] occurs in [s]. *)
Lemma occurs_app a s t :
  a ∈ list_ascii_of_string (s +:+ t)
  ↔ a ∈ list_ascii_of_string s ∨ a ∈ list_ascii_of_string t.
Proof.
  induction s as [|c s IH].
  - rewrite string_app_nil. simpl. split; [by right|].
    intros [?%elem_of_nil|?]; done.
  - rewrite string_app_cons. simpl. rewrite !elem_of_cons, IH. tauto.
Qed.

Lemma occurs_lower a s :
  a ∈ list_ascii_of_string (PyStr.lower s) → ∃ c, a = PyStr.lower_char c.
Proof.
  unfold PyStr.lower.
  induction s as [|c s IH]; simpl; [by intros ?%elem_of_nil|].
  intros [->|Ha]%elem_of_cons; eauto.
Qed.

Lemma occurs_split sep s line a :
  line ∈ PyStr.split sep s → a ∈ list_ascii_of_string line →
  a ∈ list_ascii_of_string s.
Proof.
  revert line. induction s as [|c s IH]; intros line; simpl.
  - by intros ->%list_elem_of_singleton.
  - destruct (decide (c = sep)) as [->|Hne].
    + intros [->|Hin]%elem_of_cons Ha; [by apply elem_of_nil in Ha|].
      right. by eapply IH.
    + destruct (PyStr.split sep s) as [|h t] eqn:Hs.
      * intros ->%list_elem_of_singleton Ha. simpl in Ha.
        apply elem_of_cons in Ha as [->|Ha]; [by left|by apply elem_of_nil in Ha].
      * intros [->|Hin]%elem_of_cons Ha.
        -- simpl in Ha. apply elem_of_cons in Ha as [->|Ha]; [by left|].
           right. apply (IH h); [by left|done].
        -- right. apply (IH line); [by right|done].
Qed.

(** A line without the upper-case letter [R] does not contain
    [REFERENCES]. *)
Lemma contains_REFERENCES_occurs line :
  PyStr.contains "REFERENCES" line = true →
  "R"%char ∈ list_ascii_of_string line.
Proof.
  intros (pre & post & ->)%contains_spec.
  apply occurs_app. right. simpl. by left.
Qed.

Lemma rstrip_cons_nonspace c s :
  PyStr.is_space c = false →
  PyStr.rstrip (String c s) = String c (PyStr.rstrip s).
Proof. intros Hc. simpl. rewrite Hc. by destruct (PyStr.rstrip s). Qed.

(** ** Calls made in sequence *)

Section Attempt.

Variable E : env.

Lemma attempt_cons tr c calls :
  attempt E tr (c :: calls)
  = match db_raises E tr c with
    | Some msg => ([Ev c (Some msg)], Raise (Psycopg2Error msg))
    | None => (Ev c None :: (attempt E (tr ++ [Ev c None]) calls).1,
               (attempt E (tr ++ [Ev c None]) calls).2)
    end.
Proof.
  simpl. destruct (db_raises E tr c); [done|].
  by destruct (attempt E (tr ++ [Ev c None]) calls).
Qed.

(** The calls made are the first of [calls], in their order. *)
Lemma attempt_prefix tr calls :
  ev_call <$> (attempt E tr calls).1 `prefix_of` calls.
Proof.
  revert tr. induction calls as [|c calls IH]; intros tr.
  - by exists [].
  - rewrite attempt_cons. destruct (db_raises E tr c); simpl.
    + by exists calls.
    + by apply prefix_cons.
Qed.

(** When the sequence ends normally, every call was made and returned. *)
Lemma attempt_Ret tr calls :
  (attempt E tr calls).2 = Ret () →
  (attempt E tr calls).1 = (λ c, Ev c None) <$> calls.
Proof.
  revert tr. induction calls as [|c calls IH]; intros tr; [done|].
  rewrite attempt_cons. destruct (db_raises E tr c); simpl; [done|].
  intros Hr. by rewrite IH.
Qed.

(** When it ends with an exception, that is a [psycopg2.Error], raised by
    the last call made; the calls before it returned. *)
Lemma attempt_Raise tr calls e :
  (attempt E tr calls).2 = Raise e →
  ∃ done_calls c msg,
    (attempt E tr calls).1 = ((λ c, Ev c None) <$> done_calls) ++ [Ev c (Some msg)]
    ∧ e = Psycopg2Error msg
    ∧ db_raises E (tr ++ ((λ c, Ev c None) <$> done_calls)) c = Some msg.
Proof.
  revert tr. induction calls as [|c calls IH]; intros tr; [done|].
  rewrite attempt_cons. destruct (db_raises E tr c) as [msg|] eqn:Hc; simpl.
  - intros [= <-]. exists [], c, msg. by rewrite app_nil_r.
  - intros (dc & c' & msg & -> & -> & Hraise)%IH.
    exists (c :: dc), c', msg. split_and!; [done..|].
    by rewrite <- (assoc_L (++)) in Hraise.
Qed.

Lemma attempt_quiet tr calls :
  (∀ tr' c, db_raises E tr' c = None) →
  attempt E tr calls = ((λ c, Ev c None) <$> calls, Ret ()).
Proof.
  intros Hq. revert tr. induction calls as [|c calls IH]; intros tr; [done|].
  by rewrite attempt_cons, Hq, IH.
Qed.

(** Running the calls in the monad is [attempt]. *)
Lemma for_in_db calls w :
  for_in calls (db E) w
  = ((attempt E (trace w) calls).2,
     World (trace w ++ (attempt E (trace w) calls).1)
           (isolation_level w) (log w)).
Proof.
  revert w. induction calls as [|c calls IH]; intros w.
  - simpl. rewrite app_nil_r. by destruct w.
  - rewrite attempt_cons. cbn [for_in]. unfold mbind, M_bind, db at 1.
    destruct (db_raises E (trace w) c) as [msg|]; [done|].
    rewrite IH. simpl. by rewrite <- (assoc_L (++)).
Qed.

(** The loop of autocommit mode makes the calls of the non-empty trimmed
    fragments. *)
Lemma for_in_statements (fragments : list string) w :
  for_in fragments
    (λ statement,
       let statement := PyStr.strip statement in
       if decide (statement = "") then mret () else execute E statement [])
    w
  = for_in ((λ s, Execute s []) <$>
              filter (λ s, s ≠ "") (PyStr.strip <$> fragments)) (db E) w.
Proof.
  revert w. induction fragments as [|s l IH]; intros w; [done|].
  cbn [for_in fmap list_fmap]. rewrite filter_cons.
  destruct (decide (PyStr.strip s = "")) as [Hs|Hs].
  - rewrite decide_False by (by intros []). unfold mbind, M_bind at 1.
    simpl. apply IH.
  - rewrite decide_True by done. cbn [for_in fmap list_fmap].
    unfold mbind, M_bind, execute. destruct (db E _ w) as [[[]|e] w'];
      [apply IH|done].
Qed.

End Attempt.

(** ** The three modes of [apply_migration] *)

Lemma requires_autocommit_spec sql :
  requires_autocommit sql = true ↔ contains_autocommit_marker sql.
Proof.
  unfold requires_autocommit, contains_autocommit_marker.
  rewrite existsb_exists. split.
  - intros (stmt & Hin & (pre & post & Hc)%contains_spec).
    exists stmt, pre, post. by rewrite list_elem_of_In.
  - intros (stmt & pre & post & Hin & Hc). exists stmt.
    rewrite <- list_elem_of_In. split; [done|].
    apply contains_spec. eauto.
Qed.

Lemma has_transaction_block_spec sql :
  has_transaction_block sql = true ↔ has_transaction_start sql.
Proof.
  unfold has_transaction_block, has_transaction_start.
  by rewrite !orb_true_iff, !startswith_spec, contains_spec, (assoc (∨)).
Qed.

Section ApplyMigration.

Variable E : env.

Lemma apply_migration_autocommit f w :
  requires_autocommit (content f) = true → autocommit_run E f w.
Proof.
  intros Hauto. unfold autocommit_run, apply_migration. rewrite Hauto.
  unfold mbind, M_bind, logger, get_isolation_level, set_isolation_level,
    try_finally. simpl.
  rewrite for_in_statements, for_in_db. simpl.
  fold (autocommit_statements (content f)).
  destruct (attempt E _ _) as [evs r0]. simpl.
  by rewrite <- !(assoc_L (++)).
Qed.

Lemma apply_migration_self_managed f w :
  requires_autocommit (content f) = false →
  has_transaction_block (content f) = true →
  self_managed_run E f w.
Proof.
  intros Hauto Htx. unfold self_managed_run, apply_migration.
  rewrite Hauto, Htx.
  unfold mbind, M_bind, logger, execute, db. simpl.
  by destruct (db_raises E (trace w) _).
Qed.

Lemma apply_migration_wrapped f w :
  requires_autocommit (content f) = false →
  has_transaction_block (content f) = false →
  wrapped_run E f w.
Proof.
  intros Hauto Htx. unfold wrapped_run, apply_migration.
  rewrite Hauto, Htx.
  unfold mbind, M_bind, logger, execute, db, add_event. simpl.
  destruct (db_raises E (trace w) _); simpl; [done|].
  destruct (db_raises E (trace w ++ [_]) _); simpl;
    [by rewrite <- ?(assoc_L (++))|].
  destruct (db_raises E ((trace w ++ [_]) ++ [_]) _); simpl;
    by rewrite <- ?(assoc_L (++)).
Qed.

End ApplyMigration.

(** C2. [apply_migration] selects its mode from the content alone, in this
    order: autocommit mode when the content contains an autocommit marker;
    otherwise self-managed mode when the content begins with or contains a
    transaction-start marker; otherwise wrapped mode, which executes
    [BEGIN;], the content as one block, and [COMMIT;].  Exactly one of the
    three cases applies to a content. *)
Theorem apply_migration_mode (E : env) (f : file) (w : world) :
  (contains_autocommit_marker (content f) → autocommit_run E f w)
  ∧ (¬ contains_autocommit_marker (content f) →
     has_transaction_start (content f) → self_managed_run E f w)
  ∧ (¬ contains_autocommit_marker (content f) →
     ¬ has_transaction_start (content f) → wrapped_run E f w)
  ∧ (contains_autocommit_marker (content f)
     ∨ (¬ contains_autocommit_marker (content f)
        ∧ has_transaction_start (content f))
     ∨ (¬ contains_autocommit_marker (content f)
        ∧ ¬ has_transaction_start (content f))).
Proof.
  rewrite <- requires_autocommit_spec, <- has_transaction_block_spec.
  split_and!.
  - apply apply_migration_autocommit.
  - intros Hauto%not_true_is_false Htx. by apply apply_migration_self_managed.
  - intros Hauto%not_true_is_false Htx%not_true_is_false.
    by apply apply_migration_wrapped.
  - destruct (requires_autocommit (content f));
      destruct (has_transaction_block (content f)); naive_solver.
Qed.

(** C2 on one file per mode. *)
Lemma apply_migration_mode_witness :
  autocommit_run (env_with [] [] picky_db) file_create_db world_start
  ∧ self_managed_run (env_with [] [] picky_db) file_own_tx world_start
  ∧ wrapped_run (env_with [] [] picky_db) file_table world_start.
Proof.
  split_and!.
  - apply (proj1 (apply_migration_mode (env_with [] [] picky_db)
                    file_create_db world_start)).
    apply requires_autocommit_spec. reflexivity.
  - apply (proj1 (proj2 (apply_migration_mode (env_with [] [] picky_db)
                           file_own_tx world_start))).
    + intros Hm%requires_autocommit_spec. discriminate Hm.
    + apply has_transaction_block_spec. reflexivity.
  - apply (proj1 (proj2 (proj2 (apply_migration_mode (env_with [] [] picky_db)
                                  file_table world_start)))).
    + intros Hm%requires_autocommit_spec. discriminate Hm.
    + intros Hm%has_transaction_block_spec. discriminate Hm.
Defined.

(** C7. In autocommit mode [apply_migration] sets isolation level 0, then
    executes the semicolon-delimited fragments of the content whose trimmed
    text is not empty, each in a call of its own and in their order, up to
    the first one that raises (all of them when none raises), and then sets
    the isolation level that the connection had before, whether a statement
    raised or not. *)
Theorem apply_migration_autocommit_restores (E : env) (f : file) (w : world) :
  requires_autocommit (content f) = true →
  let r := (apply_migration E f w).1 in
  let w' := (apply_migration E f w).2 in
  let tr0 := trace w ++ [Ev (SetIsolationLevel (Some 0%Z)) None] in
  let calls := (λ s, Execute s []) <$> autocommit_statements (content f) in
  (∀ s, s ∈ autocommit_statements (content f)
        ↔ s ≠ "" ∧ ∃ fragment, fragment ∈ PyStr.split ";"%char (content f)
                               ∧ s = PyStr.strip fragment)
  ∧ ∃ evs,
      trace w' = tr0 ++ evs ++ [Ev (SetIsolationLevel (isolation_level w)) None]
      ∧ isolation_level w' = isolation_level w
      ∧ attempt E tr0 calls = (evs, r)
      ∧ ev_call <$> evs `prefix_of` calls
      ∧ (r = Ret () → evs = (λ c, Ev c None) <$> calls)
      ∧ (∀ e, r = Raise e →
           ∃ done_calls c msg,
             evs = ((λ c, Ev c None) <$> done_calls) ++ [Ev c (Some msg)]
             ∧ e = Psycopg2Error msg).
Proof.
  intros Hauto r w' tr0 calls. split.
  { intros s. unfold autocommit_statements.
    rewrite list_elem_of_filter, list_elem_of_fmap. naive_solver. }
  pose proof (apply_migration_autocommit E f w Hauto) as Hrun.
  unfold autocommit_run in Hrun. subst r w'.
  destruct (apply_migration E f w) as [r w'].
  fold tr0 calls in Hrun.
  pose proof (attempt_prefix E tr0 calls) as Hprefix.
  pose proof (attempt_Ret E tr0 calls) as Hret.
  pose proof (attempt_Raise E tr0 calls) as Hraise.
  destruct (attempt E tr0 calls) as [evs r0]. simpl in *.
  destruct Hrun as (-> & Htrace & Hiso).
  exists evs. split_and!; [done..|].
  intros e He. destruct (Hraise e He) as (dc & c & msg & ? & ? & _). eauto.
Qed.

(** C7 on a file whose third statement raises: the first statement is
    executed, the empty fragment is skipped, the last statement is not
    reached, and the isolation level is back at its previous value. *)
Lemma apply_migration_autocommit_restores_witness :
  trace (apply_migration (env_with [] [] picky_db) file_create_db world_start).2
  = [Ev (SetIsolationLevel (Some 0%Z)) None;
     Ev (Execute "create database app" []) None;
     Ev (Execute "CREATE TABLE BOOM" []) (Some "syntax error at or near BOOM");
     Ev (SetIsolationLevel (Some 1%Z)) None]
  ∧ isolation_level
      (apply_migration (env_with [] [] picky_db) file_create_db world_start).2
    = Some 1%Z.
Proof.
  destruct (apply_migration_autocommit_restores (env_with [] [] picky_db)
              file_create_db world_start eq_refl)
    as (_ & evs & Htrace & Hiso & Hattempt & _).
  split; [|exact Hiso].
  rewrite Htrace. vm_compute in Hattempt.
  injection Hattempt as <-. reflexivity.
Defined.

(** ** One pending file *)

Section Step.

Variable E : env.

Lemma clean_app evs1 evs2 : clean (evs1 ++ evs2) ↔ clean evs1 ∧ clean evs2.
Proof. apply Forall_app. Qed.

Lemma attempt_clean tr calls :
  (attempt E tr calls).2 = Ret () ↔ clean (attempt E tr calls).1.
Proof.
  split.
  - intros Hr. rewrite attempt_Ret by done. unfold clean.
    by apply Forall_fmap, Forall_true.
  - destruct (attempt E tr calls).2 as [[]|e] eqn:Hr; [done|].
    apply attempt_Raise in Hr as (dc & c & msg & -> & _).
    intros [_ Hc]%clean_app. by inversion Hc.
Qed.

Lemma attempt_outcome tr calls :
  (attempt E tr calls).2 = Ret ()
  ∨ ∃ msg, (attempt E tr calls).2 = Raise (Psycopg2Error msg).
Proof.
  destruct (attempt E tr calls).2 as [[]|e] eqn:Hr; [by left|right].
  apply attempt_Raise in Hr as (dc & c & msg & _ & -> & _). eauto.
Qed.

Lemma attempt_calls_in tr calls :
  Forall (λ ev, ev_call ev ∈ calls) (attempt E tr calls).1.
Proof.
  destruct (attempt_prefix E tr calls) as [rest Hrest].
  apply Forall_forall. intros ev Hev. rewrite Hrest.
  apply elem_of_app. left. apply list_elem_of_fmap. eauto.
Qed.

(** What [apply_migration] does to the world, whatever the mode. *)
Lemma apply_migration_result f w :
  ∃ evs,
    trace (apply_migration E f w).2 = trace w ++ evs
    ∧ isolation_level (apply_migration E f w).2 = isolation_level w
    ∧ Forall (λ ev, apply_call f (ev_call ev)) evs
    ∧ (((apply_migration E f w).1 = Ret () ∧ clean evs)
       ∨ (∃ msg, (apply_migration E f w).1 = Raise (Psycopg2Error msg))
         ∧ ¬ clean evs).
Proof.
  destruct (requires_autocommit (content f)) eqn:Hauto;
    [|destruct (has_transaction_block (content f)) eqn:Htx].
  - pose proof (apply_migration_autocommit E f w Hauto) as Hrun.
    unfold autocommit_run in Hrun.
    destruct (apply_migration E f w) as [r w'].
    set (tr0 := trace w ++ [Ev (SetIsolationLevel (Some 0%Z)) None]) in *.
    set (calls := (λ s, Execute s []) <$> autocommit_statements (content f))
      in *.
    pose proof (attempt_clean tr0 calls) as Hclean.
    pose proof (attempt_outcome tr0 calls) as Hout.
    pose proof (attempt_calls_in tr0 calls) as Hcalls.
    destruct (attempt E tr0 calls) as [evs r0]. simpl in *.
    destruct Hrun as (-> & Htrace & Hiso).
    exists ([Ev (SetIsolationLevel (Some 0%Z)) None] ++ evs
            ++ [Ev (SetIsolationLevel (isolation_level w)) None]).
    split_and!.
    + rewrite Htrace. subst tr0. by rewrite <- !(assoc_L (++)).
    + done.
    + apply Forall_app. split; [|apply Forall_app; split].
      * constructor; [|done]. left. by eexists.
      * eapply Forall_impl; [exact Hcalls|]. intros ev Hev.
        apply list_elem_of_fmap in Hev as (s & -> & Hs).
        do 4 right. eauto.
      * constructor; [|done]. left. by eexists.
    + assert (clean ([Ev (SetIsolationLevel (Some 0%Z)) None] ++ evs
                     ++ [Ev (SetIsolationLevel (isolation_level w)) None])
              ↔ clean evs) as ->.
      { rewrite !clean_app. unfold clean at 1 3. rewrite !Forall_singleton.
        simpl. tauto. }
      destruct Hout as [Hr|[msg Hr]].
      * left. split; [done|]. by apply Hclean.
      * right. split; [by eexists|]. rewrite <- Hclean, Hr. done.
  - pose proof (apply_migration_self_managed E f w Hauto Htx) as Hrun.
    unfold self_managed_run in Hrun.
    destruct (apply_migration E f w) as [r w'].
    set (calls := [Execute (content f) []]) in *.
    pose proof (attempt_clean (trace w) calls) as Hclean.
    pose proof (attempt_outcome (trace w) calls) as Hout.
    pose proof (attempt_calls_in (trace w) calls) as Hcalls.
    destruct (attempt E (trace w) calls) as [evs r0]. simpl in *.
    destruct Hrun as (-> & Htrace & Hiso).
    exists evs. split_and!; [done..| |].
    + eapply Forall_impl; [exact Hcalls|]. intros ev Hev.
      apply list_elem_of_singleton in Hev. do 3 right. by left.
    + destruct Hout as [Hr|[msg Hr]].
      * left. split; [done|]. by apply Hclean.
      * right. split; [by eexists|]. rewrite <- Hclean, Hr. done.
  - pose proof (apply_migration_wrapped E f w Hauto Htx) as Hrun.
    unfold wrapped_run in Hrun.
    destruct (apply_migration E f w) as [r w'].
    set (calls := [Execute "BEGIN;" []; Execute (content f) [];
                   Execute "COMMIT;" []]) in *.
    pose proof (attempt_clean (trace w) calls) as Hclean.
    pose proof (attempt_outcome (trace w) calls) as Hout.
    pose proof (attempt_calls_in (trace w) calls) as Hcalls.
    destruct (attempt E (trace w) calls) as [evs r0]. simpl in *.
    destruct Hrun as (-> & Htrace & Hiso).
    exists evs. split_and!; [done..| |].
    + eapply Forall_impl; [exact Hcalls|]. intros ev Hev. unfold apply_call.
      set_solver.
    + destruct Hout as [Hr|[msg Hr]].
      * left. split; [done|]. by apply Hclean.
      * right. split; [by eexists|]. rewrite <- Hclean, Hr. done.
Qed.

End Step.

Section TryStatement.

Variable E : env.

Lemma record_migration_run filename w :
  record_migration E filename w
  = for_in [BEGIN; INSERT filename; COMMIT] (db E) w.
Proof.
  unfold record_migration, execute, BEGIN, INSERT, COMMIT. cbn [for_in].
  unfold mbind, M_bind.
  destruct (db E _ w) as [[[]|e] w1]; [|done].
  destruct (db E _ w1) as [[[]|e] w2]; [|done].
  by destruct (db E _ w2) as [[[]|e] w3].
Qed.

(** The block after [try]: the file is applied and, when that returns,
    recorded. *)
Lemma try_block_run f w :
  try_block E f w
  = match apply_migration E f w with
    | (Raise e, w1) => (Raise e, w1)
    | (Ret _, w1) =>
        let ar := attempt E (trace w1) [BEGIN; INSERT (name f); COMMIT] in
        match ar.2 with
        | Ret _ =>
            (Ret (),
             World (trace w1 ++ ar.1) (isolation_level w1)
                   (log w1 ++ [(INFO, "Applied successfully: " +:+ name f)]))
        | Raise e =>
            (Raise e, World (trace w1 ++ ar.1) (isolation_level w1) (log w1))
        end
    end.
Proof.
  unfold try_block. unfold mbind at 1. unfold M_bind at 1.
  destruct (apply_migration E f w) as [[[]|e] w1]; [|done].
  unfold mbind, M_bind. rewrite record_migration_run, for_in_db. simpl.
  by destruct (attempt E (trace w1) [BEGIN; INSERT (name f); COMMIT]).2
    as [[]|e].
Qed.

(** The block after [try] raises nothing but [psycopg2.Error]. *)
Lemma try_block_raises f w e w2 :
  try_block E f w = (Raise e, w2) → ∃ msg, e = Psycopg2Error msg.
Proof.
  rewrite try_block_run.
  destruct (apply_migration_result E f w) as (A & _ & _ & _ & Hout).
  destruct (apply_migration E f w) as [[[]|e1] w1]; cbv zeta.
  - destruct (attempt_outcome E (trace w1) [BEGIN; INSERT (name f); COMMIT])
      as [Hr|[msg Hr]]; rewrite Hr; [done|].
    intros [= <- _]. by eexists.
  - intros [= <- _]. destruct Hout as [[? _]|[[msg ?] _]]; [done|].
    simplify_eq/=. by eexists.
Qed.

Lemma apply_and_record_Ret f w w2 :
  try_block E f w = (Ret (), w2) → apply_and_record E f w = (Ret (), w2).
Proof. intros Hb. unfold apply_and_record, try_except. by rewrite Hb. Qed.

(** The handler: one rollback is attempted, and [sys.exit(1)] follows
    whether it raised or not. *)
Lemma apply_and_record_Raise f w e w2 :
  try_block E f w = (Raise e, w2) →
  apply_and_record E f w
  = (Raise (SystemExit 1),
     World (trace w2 ++ [Ev ROLLBACK (db_raises E (trace w2) ROLLBACK)])
           (isolation_level w2)
           (log w2 ++ failure_log (name f) e
                        (db_raises E (trace w2) ROLLBACK))).
Proof.
  intros Hb. destruct (try_block_raises _ _ _ _ Hb) as [msg ->].
  unfold apply_and_record, try_except at 1. rewrite Hb. simpl.
  unfold except_block, mbind, M_bind, try_except, logger, execute, db,
    sys_exit, raise, add_event, failure_log, ROLLBACK. simpl.
  destruct (db_raises E (trace w2) _); simpl;
    by rewrite <- !(assoc_L (++)).
Qed.

End TryStatement.

Section Shape.

Variable E : env.

(** The shape of what processing one pending file adds to the trace. *)
Lemma apply_and_record_shape f w :
  ∃ A tail applied_ok ok,
    trace (apply_migration E f w).2 = trace w ++ A
    ∧ ((apply_migration E f w).1 = Ret () ↔ applied_ok = true)
    ∧ (clean A ↔ applied_ok = true)
    ∧ Forall (λ ev, apply_call f (ev_call ev)) A
    ∧ record_events E (trace w ++ A) (name f) applied_ok tail ok
    ∧ trace (apply_and_record E f w).2 = trace w ++ A ++ tail
    ∧ isolation_level (apply_and_record E f w).2 = isolation_level w
    ∧ (apply_and_record E f w).1
      = (if ok then Ret () else Raise (SystemExit 1)).
Proof.
  destruct (apply_migration_result E f w) as (A & HtrA & Hiso & HA & Hout).
  pose proof (try_block_run E f w) as Hblock.
  destruct (apply_migration E f w) as [r1 w1]. simpl in HtrA, Hiso, Hout.
  destruct Hout as [[-> Hclean]|[[msg ->] Hclean]].
  - (* the file was applied; the record is attempted *)
    cbv zeta in Hblock. unfold attempt in Hblock.
    destruct (db_raises E (trace w1) BEGIN) as [m|] eqn:Hb.
    { simpl in Hblock. apply apply_and_record_Raise in Hblock as ->.
      exists A, [Ev BEGIN (Some m); Ev ROLLBACK
                   (db_raises E (trace w1 ++ [Ev BEGIN (Some m)]) ROLLBACK)],
             true, false.
      simpl. rewrite HtrA, <- !(assoc_L (++)).
      split_and!; [done|done|done|done| |done..].
      rewrite <- HtrA. by constructor. }
    destruct (db_raises E (trace w1 ++ [Ev BEGIN None]) (INSERT (name f)))
      as [m|] eqn:Hi.
    { simpl in Hblock. apply apply_and_record_Raise in Hblock as ->.
      exists A, [Ev BEGIN None; Ev (INSERT (name f)) (Some m);
                 Ev ROLLBACK
                   (db_raises E (trace w1 ++ [Ev BEGIN None;
                                   Ev (INSERT (name f)) (Some m)]) ROLLBACK)],
             true, false.
      simpl. rewrite HtrA, <- !(assoc_L (++)).
      split_and!; [done|done|done|done| |done..].
      rewrite <- HtrA. by constructor. }
    destruct (db_raises E ((trace w1 ++ [Ev BEGIN None])
                           ++ [Ev (INSERT (name f)) None]) COMMIT)
      as [m|] eqn:Hc.
    { rewrite <- (assoc_L (++)) in Hc. simpl in Hblock. apply apply_and_record_Raise in Hblock as ->.
      exists A, [Ev BEGIN None; Ev (INSERT (name f)) None;
                 Ev COMMIT (Some m);
                 Ev ROLLBACK
                   (db_raises E (trace w1 ++ [Ev BEGIN None;
                                   Ev (INSERT (name f)) None;
                                   Ev COMMIT (Some m)]) ROLLBACK)],
             true, false.
      simpl. rewrite HtrA, <- !(assoc_L (++)).
      split_and!; [done|done|done|done| |done..].
      rewrite <- HtrA. by constructor. }
    simpl in Hblock. apply apply_and_record_Ret in Hblock as ->.
    exists A, [Ev BEGIN None; Ev (INSERT (name f)) None; Ev COMMIT None],
           true, true.
    simpl. rewrite HtrA, <- !(assoc_L (++)).
    split_and!; [done|done|done|done|by constructor|done..].
  - (* applying the file raised *)
    apply apply_and_record_Raise in Hblock as ->.
    exists A, [Ev ROLLBACK (db_raises E (trace w1) ROLLBACK)], false, false.
    simpl. rewrite HtrA, <- !(assoc_L (++)).
    split_and!; [done|done|by split|done|by constructor|done..].
Qed.

End Shape.

(** ** The loop over the files *)

Section Loop.

Variable E : env.

Lemma process_nil applied w :
  process_migration_files E [] applied w = (Ret (), w).
Proof. done. Qed.

Lemma process_skip f l applied w :
  name f ∈ applied →
  process_migration_files E (f :: l) applied w
  = process_migration_files E l applied
      (World (trace w) (isolation_level w)
             (log w ++ [(INFO, "Skipping (already applied): " +:+ name f)])).
Proof.
  intros Hin. unfold process_migration_files. cbn [for_in].
  rewrite decide_True by done. done.
Qed.

Lemma process_pending f l applied w :
  name f ∉ applied →
  process_migration_files E (f :: l) applied w
  = match apply_and_record E f
            (World (trace w) (isolation_level w)
                   (log w ++ [(INFO, "Applying: " +:+ name f)])) with
    | (Ret _, w') => process_migration_files E l applied w'
    | (Raise e, w') => (Raise e, w')
    end.
Proof.
  intros Hin. unfold process_migration_files. cbn [for_in].
  rewrite decide_False by done. unfold mbind, M_bind, logger. simpl.
  by destruct (apply_and_record E f _) as [[[]|e] w'].
Qed.

(** What processing a list of files adds to the trace. *)
Lemma process_migration_files_events files applied w :
  ∃ (evs : list event) (ok : bool),
    trace (process_migration_files E files applied w).2 = trace w ++ evs
    ∧ isolation_level (process_migration_files E files applied w).2
      = isolation_level w
    ∧ (process_migration_files E files applied w).1
      = (if ok then Ret () else Raise (SystemExit 1))
    ∧ run_events E applied (trace w) files evs ok.
Proof.
  revert w. induction files as [|f l IH]; intros w.
  - exists [], true. rewrite process_nil, app_nil_r.
    split_and!; [done..|constructor].
  - destruct (decide (name f ∈ applied)) as [Hin|Hin].
    + rewrite process_skip by done.
      destruct (IH (World (trace w) (isolation_level w)
                 (log w ++ [(INFO, "Skipping (already applied): "
                                    +:+ name f)])))
        as (evs & ok & Htr & Hiso & Hr & Hrun).
      exists evs, ok. split_and!; [done..|]. by constructor.
    + rewrite process_pending by done.
      set (w0 := World (trace w) (isolation_level w)
                       (log w ++ [(INFO, "Applying: " +:+ name f)])).
      destruct (apply_and_record_shape E f w0)
        as (A & tail & aok & ok & HtrA & Haok & Hclean & HA & Hrec
            & Htr & Hiso & Hr).
      destruct (apply_and_record E f w0) as [r w']. simpl in Htr, Hiso, Hr.
      destruct ok; subst r.
      * inversion Hrec as [Ht| | | |]; subst.
        destruct (IH w') as (evs & ok & Htr' & Hiso' & Hr' & Hrun).
        exists (A ++ [Ev BEGIN None; Ev (INSERT (name f)) None;
                      Ev COMMIT None] ++ evs), ok.
        split_and!.
        -- rewrite Htr', Htr. by rewrite <- !(assoc_L (++)).
        -- by rewrite Hiso', Hiso.
        -- done.
        -- apply (run_ok E applied (trace w) f l w0); try done.
           ++ by apply Haok.
           ++ by apply Hclean.
           ++ by rewrite Htr in Hrun.
      * exists (A ++ tail), false. split_and!; [done..|].
        by apply (run_fail E applied (trace w) f l w0 A tail aok).
Qed.

End Loop.

(** ** Properties of the events of a run *)

Lemma apply_call_not_INSERT f x : ¬ apply_call f (INSERT x).
Proof.
  unfold apply_call, INSERT.
  intros [[lv ?]|[?|[?|[?|(s & _ & ?)]]]]; done.
Qed.

Lemma record_events_not_clean E tr x aok tail A :
  (clean A ↔ aok = true) →
  record_events E tr x aok tail false → ¬ clean (A ++ tail).
Proof.
  intros HA Hrec [Hc1 Hc2]%Forall_app. unfold clean in *.
  inversion Hrec; subst.
  - apply HA in Hc1. done.
  - by inversion Hc2.
  - inversion Hc2 as [|? ? _ Hc3]. by inversion Hc3.
  - inversion Hc2 as [|? ? _ Hc3]. inversion Hc3 as [|? ? _ Hc4].
    by inversion Hc4.
Qed.

Section RunEvents.

Variable E : env.
Variable applied : gset string.

(** A run ends normally exactly when no call raised. *)
Lemma run_events_clean tr files evs ok :
  run_events E applied tr files evs ok → ok = true ↔ clean evs.
Proof.
  induction 1 as [tr|tr f l evs ok Hin _ IH
                  |tr f l w0 A evs ok Hin _ _ _ _ HcA _ IH
                  |tr f l w0 A tail aok Hin _ _ _ _ HcA Hrec].
  - split; [constructor|done].
  - done.
  - rewrite IH. unfold clean. rewrite !Forall_app, !Forall_cons.
    unfold clean in HcA. simpl. naive_solver.
  - split; [done|]. intros Hc.
    by destruct (record_events_not_clean _ _ _ _ _ _ HcA Hrec).
Qed.

(** Every call of a run belongs to a pending file: it is a call of
    [apply_migration] for it, or its record, or the rollback. *)
Lemma run_events_calls tr files evs ok :
  run_events E applied tr files evs ok →
  Forall (λ ev, ∃ g, g ∈ files ∧ name g ∉ applied
                     ∧ (apply_call g (ev_call ev)
                        ∨ ev_call ev ∈ [BEGIN; INSERT (name g);
                                        COMMIT; ROLLBACK])) evs.
Proof.
  induction 1 as [tr|tr f l evs ok Hin _ IH
                  |tr f l w0 A evs ok Hin _ _ _ HA _ _ IH
                  |tr f l w0 A tail aok Hin _ _ _ HA _ Hrec].
  - constructor.
  - eapply Forall_impl; [exact IH|]. intros ev (g & Hg & ?).
    exists g. split; [by right|done].
  - apply Forall_app. split; [|apply Forall_app; split].
    + eapply Forall_impl; [exact HA|]. intros ev Hev.
      exists f. split_and!; [by left|done|by left].
    + repeat constructor; exists f;
        (split_and!; [by left|done|right; simpl; set_solver]).
    + eapply Forall_impl; [exact IH|]. intros ev (g & Hg & ?).
      exists g. split; [by right|done].
  - apply Forall_app. split.
    + eapply Forall_impl; [exact HA|]. intros ev Hev.
      exists f. split_and!; [by left|done|by left].
    + inversion Hrec; subst; repeat constructor; exists f;
        (split_and!; [by left|done|right; simpl; set_solver]).
Qed.

(** A record is only ever inserted for a pending file of the list. *)
Lemma run_events_insert tr files evs ok ev x :
  run_events E applied tr files evs ok →
  ev ∈ evs → ev_call ev = INSERT x →
  x ∈ names files ∧ x ∉ applied.
Proof.
  intros Hrun Hev Hcall. apply run_events_calls in Hrun.
  rewrite Forall_forall in Hrun.
  destruct (Hrun ev Hev) as (g & Hg & Hpending & [Hc|Hc]).
  - rewrite Hcall in Hc. by apply apply_call_not_INSERT in Hc.
  - rewrite Hcall in Hc. unfold BEGIN, INSERT, COMMIT, ROLLBACK in Hc.
    assert (x = name g) as -> by set_solver.
    split; [|done]. apply list_elem_of_fmap. eauto.
Qed.

(** After a run that ended normally every pending file has its
    record. *)
Lemma run_events_recorded tr files evs g :
  run_events E applied tr files evs true →
  g ∈ files → name g ∉ applied →
  Ev (INSERT (name g)) None ∈ evs.
Proof.
  intros Hrun. remember true as ok eqn:Hok.
  induction Hrun as [tr|tr f l evs ok Hin _ IH
                     |tr f l w0 A evs ok Hin _ _ _ _ _ _ IH
                     |tr f l w0 A tail aok Hin _ _ _ _ _ Hrec];
    intros Hg Hpending.
  - by apply elem_of_nil in Hg.
  - apply elem_of_cons in Hg as [->|Hg]; [done|]. by apply IH.
  - apply elem_of_cons in Hg as [->|Hg].
    + rewrite !elem_of_app. right; left. set_solver.
    + rewrite !elem_of_app. right; right. by apply IH.
  - done.
Qed.

End RunEvents.

Lemma filter_none {A} (P : A → Prop) `{∀ x, Decision (P x)} (l : list A) :
  Forall (λ x, ¬ P x) l → filter P l = [].
Proof.
  induction 1 as [|x l Hx _ IH]; [done|]. by rewrite filter_cons_False.
Qed.

Section Inserts.

Variable E : env.
Variable applied : gset string.

Lemma filter_insert_apply_calls f x A :
  Forall (λ ev, apply_call f (ev_call ev)) A →
  filter (λ ev, ev_call ev = INSERT x) A = [].
Proof.
  intros HA. apply filter_none.
  eapply Forall_impl; [exact HA|]. intros ev Hcall Heq. simpl in *.
  rewrite Heq in Hcall. by apply apply_call_not_INSERT in Hcall.
Qed.

Lemma filter_insert_tail tr x y aok tail ok :
  record_events E tr y aok tail ok →
  length (filter (λ ev, ev_call ev = INSERT x) tail) ≤ 1.
Proof.
  unfold BEGIN, INSERT, COMMIT, ROLLBACK.
  inversion 1; subst; rewrite ?filter_cons, ?filter_nil;
    repeat case_decide; simplify_eq/=; lia.
Qed.

(** With distinct file names, at most one record is inserted per
    name. *)
Lemma run_events_insert_once tr files evs ok x :
  NoDup (names files) →
  run_events E applied tr files evs ok →
  length (filter (λ ev, ev_call ev = INSERT x) evs) ≤ 1.
Proof.
  intros Hnd Hrun.
  induction Hrun as [tr|tr f l evs ok Hin _ IH
                     |tr f l w0 A evs ok Hin _ _ _ HA _ Hrest IH
                     |tr f l w0 A tail aok Hin _ _ _ HA _ Hrec];
    unfold names in Hnd; rewrite ?fmap_cons in Hnd.
  - simpl. lia.
  - apply NoDup_cons in Hnd as [_ Hnd]. by apply IH.
  - apply NoDup_cons in Hnd as [Hf Hnd].
    rewrite !filter_app, !length_app, (filter_insert_apply_calls f) by done.
    destruct (decide (x = name f)) as [->|Hne].
    + assert (filter (λ ev, ev_call ev = INSERT (name f)) evs = []) as ->.
      { apply filter_none, Forall_forall. intros ev Hev Hcall.
        by destruct (run_events_insert _ _ _ _ _ _ _ _ Hrest Hev Hcall). }
      pose proof (filter_insert_tail tr (name f) (name f) true _ true
                    (recorded E tr (name f) true eq_refl)). simpl in *. lia.
    + assert (filter (λ ev, ev_call ev = INSERT x)
                [Ev BEGIN None; Ev (INSERT (name f)) None; Ev COMMIT None]
              = []) as ->.
      { unfold BEGIN, INSERT, COMMIT. rewrite !filter_cons, filter_nil.
        repeat case_decide; simplify_eq/=; done. }
      simpl. by apply IH.
  - rewrite !filter_app, !length_app, (filter_insert_apply_calls f) by done.
    simpl. by eapply filter_insert_tail.
Qed.

(** Where a record is inserted: the events before it are those of a
    successful [apply_migration] of the pending file of that name,
    followed by a [BEGIN;] that returned; and when the insert returns, the
    next call is [COMMIT;]. *)
Lemma run_events_insert_context tr files evs ok i ev x :
  run_events E applied tr files evs ok →
  evs !! i = Some ev → ev_call ev = INSERT x →
  ∃ g w0 A,
    g ∈ files ∧ name g = x ∧ x ∉ applied
    ∧ (apply_migration E g w0).1 = Ret ()
    ∧ trace (apply_migration E g w0).2 = trace w0 ++ A
    ∧ tr ++ take i evs = trace w0 ++ A ++ [Ev BEGIN None]
    ∧ (ev_error ev = None → ∃ c, evs !! S i = Some (Ev COMMIT c)).
Proof.
  intros Hrun. revert i.
  induction Hrun as [tr|tr f l evs ok Hin _ IH
                     |tr f l w0 A evs ok Hin Htr Hret HtrA HA _ _ IH
                     |tr f l w0 A tail aok Hin Htr Hret HtrA HA Hcl Hrec];
    intros i Hi Hcall.
  - done.
  - destruct (IH i Hi Hcall) as (g & w1 & A & Hg & ?).
    exists g, w1, A. split; [by right|done].
  - apply lookup_app_Some in Hi as [Hi|[Hlen Hi]].
    { apply list_elem_of_lookup_2 in Hi. rewrite Forall_forall in HA.
      apply HA in Hi. rewrite Hcall in Hi.
      by apply apply_call_not_INSERT in Hi. }
    assert (i = length A + (i - length A)) as Hidx by lia.
    destruct (i - length A) as [|[|[|j]]] eqn:Hj; simpl in Hi.
    + simplify_eq/=.
    + injection Hi as <-. injection Hcall as <-.
      exists f, w0, A. rewrite HtrA, Htr, Hidx, take_app_add.
      split_and!; [by left|done..| |].
      * simpl. by rewrite <- ?(assoc_L (++)).
      * intros _. exists None.
        rewrite lookup_app_r by lia.
        by replace (S (length A + 1) - length A) with 2 by lia.
    + simplify_eq/=.
    + destruct (IH j Hi Hcall) as (g & w1 & A1 & Hg & Hname & Hp & Hr1 & Ht1
                                   & Htake & Hnext).
      exists g, w1, A1. split_and!; [by right|done..| |].
      * rewrite <- Htake, Hidx, take_app_add. simpl.
        by rewrite <- ?(assoc_L (++)).
      * intros Hok. destruct (Hnext Hok) as [c Hc]. exists c.
        rewrite lookup_app_r by lia.
        by replace (S i - length A) with (3 + S j) by lia.
  - apply lookup_app_Some in Hi as [Hi|[Hlen Hi]].
    { apply list_elem_of_lookup_2 in Hi. rewrite Forall_forall in HA.
      apply HA in Hi. rewrite Hcall in Hi.
      by apply apply_call_not_INSERT in Hi. }
    assert (i = length A + (i - length A)) as Hidx by lia.
    inversion Hrec as [|rb Hk|msg rb Hk|msg rb Hk|msg rb Hk]; subst tail aok;
      destruct (i - length A) as [|[|[|[|j]]]] eqn:Hj; simpl in Hi;
      try done; try (by injection Hi as <-).
    + injection Hi as <-. injection Hcall as <-.
      exists f, w0, A. rewrite HtrA, Htr, Hidx, take_app_add.
      split_and!; [by left|done|done|by apply Hret|done| |done].
      simpl. by rewrite <- ?(assoc_L (++)).
    + injection Hi as <-. injection Hcall as <-.
      exists f, w0, A. rewrite HtrA, Htr, Hidx, take_app_add.
      split_and!; [by left|done|done|by apply Hret|done| |].
      * simpl. by rewrite <- ?(assoc_L (++)).
      * intros _. exists (Some msg). rewrite lookup_app_r by lia.
        by replace (S (length A + 1) - length A) with 2 by lia.
Qed.

End Inserts.

(** ** The log does not influence a run *)

Lemma agree_refl w : agree w w.
Proof. done. Qed.

Lemma agree_log w1 w2 l1 l2 :
  agree w1 w2 →
  agree (World (trace w1) (isolation_level w1) l1)
        (World (trace w2) (isolation_level w2) l2).
Proof. by intros [? ?]. Qed.

Section Respects.

Variable E : env.

Lemma respects_ret {A} (a : A) : respects (mret a).
Proof. by intros w1 w2 Hw. Qed.

Lemma respects_raise {A} e : respects (@raise A e).
Proof. by intros w1 w2 Hw. Qed.

Lemma respects_bind {A B} (m : M A) (k : A → M B) :
  respects m → (∀ a, respects (k a)) → respects (m ≫= k).
Proof.
  intros Hm Hk w1 w2 Hw. unfold mbind, M_bind.
  destruct (Hm w1 w2 Hw) as [Hr Hw'].
  destruct (m w1) as [[a|e] w1'], (m w2) as [[a'|e'] w2'];
    simplify_eq/=; [by apply Hk|done].
Qed.

Lemma respects_try_except {A} (body : M A) catches handler :
  respects body → (∀ e, respects (handler e)) →
  respects (try_except body catches handler).
Proof.
  intros Hm Hk w1 w2 Hw. unfold try_except.
  destruct (Hm w1 w2 Hw) as [Hr Hw'].
  destruct (body w1) as [[a|e] w1'], (body w2) as [[a'|e'] w2'];
    simplify_eq/=; [done|].
  destruct (catches e'); [by apply Hk|done].
Qed.

Lemma respects_try_finally {A} (body : M A) cleanup :
  respects body → respects cleanup → respects (try_finally body cleanup).
Proof.
  intros Hm Hc w1 w2 Hw. unfold try_finally.
  destruct (Hm w1 w2 Hw) as [Hr Hw'].
  destruct (body w1) as [r1 w1'], (body w2) as [r2 w2']. simpl in *. subst r2.
  destruct (Hc w1' w2' Hw') as [Hr' Hw''].
  by destruct (cleanup w1') as [[[]|e] w1''],
              (cleanup w2') as [[[]|e'] w2'']; simplify_eq/=.
Qed.

Lemma respects_for_in {A} (l : list A) (body : A → M unit) :
  (∀ x, respects (body x)) → respects (for_in l body).
Proof.
  intros Hbody. induction l as [|x l IH]; [apply respects_ret|].
  cbn [for_in]. by apply respects_bind.
Qed.

Lemma respects_logger lv msg : respects (logger lv msg).
Proof. intros w1 w2 Hw. split; [done|]. by apply agree_log. Qed.

Lemma respects_db c : respects (db E c).
Proof.
  intros w1 w2 [Htr Hiso]. unfold db, add_event. rewrite Htr.
  destruct (db_raises E (trace w2) c); (split; [done|]);
    split; simpl; congruence.
Qed.

Lemma respects_get_isolation_level : respects get_isolation_level.
Proof. intros w1 w2 [Htr Hiso]. unfold get_isolation_level. by rewrite Hiso. Qed.

Lemma respects_set_isolation_level lv : respects (set_isolation_level lv).
Proof.
  intros w1 w2 [Htr Hiso]. unfold set_isolation_level.
  split; [done|]. split; simpl; congruence.
Qed.

Lemma respects_apply_migration f : respects (apply_migration E f).
Proof.
  unfold apply_migration.
  destruct (requires_autocommit (content f));
    [|destruct (has_transaction_block (content f))].
  - apply respects_bind; [apply respects_logger|intros _].
    apply respects_bind; [apply respects_get_isolation_level|intros old].
    apply respects_bind; [apply respects_set_isolation_level|intros _].
    apply respects_try_finally; [|apply respects_set_isolation_level].
    apply respects_for_in. intros s. cbv zeta.
    destruct (decide (PyStr.strip s = "")); [apply respects_ret|].
    apply respects_db.
  - apply respects_bind; [apply respects_logger|intros _]. apply respects_db.
  - apply respects_bind; [apply respects_logger|intros _].
    apply respects_bind; [apply respects_db|intros _].
    apply respects_bind; [apply respects_db|intros _]. apply respects_db.
Qed.

Lemma respects_apply_and_record f : respects (apply_and_record E f).
Proof.
  unfold apply_and_record. apply respects_try_except.
  - unfold try_block.
    apply respects_bind; [apply respects_apply_migration|intros _].
    apply respects_bind; [|intros _; apply respects_logger].
    unfold record_migration.
    apply respects_bind; [apply respects_db|intros _].
    apply respects_bind; [apply respects_db|intros _]. apply respects_db.
  - intros e. unfold except_block.
    apply respects_bind; [apply respects_logger|intros _].
    apply respects_bind.
    + apply respects_try_except; [|intros e'; apply respects_logger].
      apply respects_bind; [apply respects_db|intros _].
      apply respects_logger.
    + intros _. apply respects_bind; [apply respects_logger|intros _].
      apply respects_raise.
Qed.

(** Processing a list and processing it without the files of the applied
    set make the same calls and end alike. *)
Lemma process_filter_applied files applied w1 w2 :
  agree w1 w2 →
  (process_migration_files E files applied w1).1
  = (process_migration_files E
       (filter (λ f, name f ∉ applied) files) applied w2).1
  ∧ agree (process_migration_files E files applied w1).2
          (process_migration_files E
             (filter (λ f, name f ∉ applied) files) applied w2).2.
Proof.
  revert w1 w2. induction files as [|f l IH]; intros w1 w2 Hw; [done|].
  destruct (decide (name f ∈ applied)) as [Hin|Hin].
  - rewrite filter_cons_False by (by intros []).
    rewrite process_skip by done. apply IH. destruct Hw. by split.
  - rewrite filter_cons_True by done. rewrite !process_pending by done.
    destruct (respects_apply_and_record f
                (World (trace w1) (isolation_level w1)
                       (log w1 ++ [(INFO, "Applying: " +:+ name f)]))
                (World (trace w2) (isolation_level w2)
                       (log w2 ++ [(INFO, "Applying: " +:+ name f)])))
      as [Hr Hw']; [by apply agree_log|].
    destruct (apply_and_record E f _) as [[[]|e] w1'],
             (apply_and_record E f _) as [[[]|e'] w2']; simplify_eq/=;
      [by apply IH|done].
Qed.

End Respects.

(** ** Halting on failure, skipping what is applied *)

Section Failure.

Variable E : env.

Lemma for_in_app {A} (l1 l2 : list A) (body : A → M unit) w :
  for_in (l1 ++ l2) body w
  = match for_in l1 body w with
    | (Ret _, w1) => for_in l2 body w1
    | (Raise e, w1) => (Raise e, w1)
    end.
Proof.
  revert w. induction l1 as [|x l1 IH]; intros w; [done|].
  cbn [for_in app]. unfold mbind, M_bind.
  destruct (body x w) as [[[]|e] w']; [apply IH|done].
Qed.

Lemma try_block_trace f w :
  trace w `prefix_of` trace (try_block E f w).2.
Proof.
  rewrite try_block_run.
  destruct (apply_migration_result E f w) as (A & HtrA & _).
  destruct (apply_migration E f w) as [[[]|e] w1]; simpl in HtrA.
  - cbv zeta.
    destruct (attempt E (trace w1) [BEGIN; INSERT (name f); COMMIT])
      as [evs [[]|e]]; simpl; rewrite HtrA, <- (assoc_L (++));
      by eexists.
  - simpl. rewrite HtrA. by eexists.
Qed.

End Failure.

(** C3. When applying or recording a pending file raises, after the files
    before it were processed, [process_migration_files] attempts one
    [ROLLBACK;], logs the original error (and the error of the rollback,
    should the rollback raise too), and raises [SystemExit(1)] either way:
    the exit status is 1.  No later file is attempted: the outcome is that of
    the list cut after the failing file.  The calls made for the earlier
    files stay the beginning of the history, with the record of each pending
    one among them, and only the rollback follows the failure. *)
Theorem process_halts_on_failure (E : env) (done_files : list file) (f : file)
    (rest : list file) (applied : gset string) (w w1 w2 : world) (e : exn) :
  process_migration_files E done_files applied w = (Ret (), w1) →
  name f ∉ applied →
  try_block E f (logger INFO ("Applying: " +:+ name f) w1).2 = (Raise e, w2) →
  let rb := db_raises E (trace w2) ROLLBACK in
  let final := process_migration_files E (done_files ++ f :: rest) applied w in
  final.1 = Raise (SystemExit 1)
  ∧ exit_status final.1 = 1%Z
  ∧ trace final.2 = trace w2 ++ [Ev ROLLBACK rb]
  ∧ log final.2 = log w2 ++ failure_log (name f) e rb
  ∧ final = process_migration_files E (done_files ++ [f]) applied w
  ∧ trace w1 `prefix_of` trace w2
  ∧ (∀ g, g ∈ done_files → name g ∉ applied →
          Ev (INSERT (name g)) None ∈ trace w1).
Proof.
  intros Hdone Hpending Hblock rb final.
  assert (∀ l, process_migration_files E (done_files ++ f :: l) applied w
               = (Raise (SystemExit 1),
                  World (trace w2 ++ [Ev ROLLBACK rb]) (isolation_level w2)
                        (log w2 ++ failure_log (name f) e rb))) as Hrun.
  { intros l. unfold process_migration_files at 1. rewrite for_in_app.
    fold (process_migration_files E done_files applied w). rewrite Hdone.
    fold (process_migration_files E (f :: l) applied w1).
    rewrite process_pending by done.
    change (logger INFO ("Applying: " +:+ name f) w1).2
      with (World (trace w1) (isolation_level w1)
                  (log w1 ++ [(INFO, "Applying: " +:+ name f)])) in Hblock.
    by rewrite (apply_and_record_Raise E f _ e w2 Hblock). }
  subst final. rewrite !Hrun. split_and!; [done..| |].
  - pose proof (try_block_trace E f
                  (logger INFO ("Applying: " +:+ name f) w1).2) as Hpre.
    by rewrite Hblock in Hpre.
  - intros g Hg Hgp.
    destruct (process_migration_files_events E done_files applied w)
      as (evs & ok & Htr & _ & Hr & Hevs).
    rewrite Hdone in Htr, Hr. simpl in Htr, Hr. destruct ok; [|done].
    rewrite Htr. apply elem_of_app. right.
    by eapply run_events_recorded.
Qed.

(** C3 on three pending files of which the second raises: the first one
    is applied and recorded, the second is rolled back, the third is never
    attempted. *)
Lemma process_halts_on_failure_witness :
  (process_migration_files (env_with [] [] picky_db)
     [file_table; file_broken; file_later] ∅ world_start).1
  = Raise (SystemExit 1)
  ∧ ev_call <$> trace (process_migration_files (env_with [] [] picky_db)
                         [file_table; file_broken; file_later] ∅ world_start).2
    = [BEGIN; Execute "CREATE TABLE items (id INT);" []; COMMIT;
       BEGIN; INSERT "002_items.sql"; COMMIT;
       BEGIN; Execute "CREATE TABLE BOOM (id INT);" []; ROLLBACK].
Proof.
  destruct (process_halts_on_failure (env_with [] [] picky_db)
              [file_table] file_broken [file_later] ∅ world_start
              (process_migration_files (env_with [] [] picky_db)
                 [file_table] ∅ world_start).2
              (try_block (env_with [] [] picky_db) file_broken
                 (logger INFO ("Applying: " +:+ name file_broken)
                    (process_migration_files (env_with [] [] picky_db)
                       [file_table] ∅ world_start).2).2).2
              (Psycopg2Error "syntax error at or near BOOM"))
    as (Hr & _ & Htr & _).
  - vm_compute. reflexivity.
  - apply not_elem_of_empty.
  - vm_compute. reflexivity.
  - split; [exact Hr|]. simpl app in Htr. rewrite Htr. vm_compute. reflexivity.
Defined.

(** C5. A file whose name is in the applied set is skipped: processing the
    list ends the same way and makes the same calls as processing the list
    without such files, every call made belongs to a pending file, and no
    record is inserted for an applied name. *)
Theorem process_skips_applied (E : env) (files : list file)
    (applied : gset string) (w : world) :
  let run := process_migration_files E files applied w in
  let run' := process_migration_files E
                (filter (λ f, name f ∉ applied) files) applied w in
  run.1 = run'.1
  ∧ trace run.2 = trace run'.2
  ∧ isolation_level run.2 = isolation_level run'.2
  ∧ ∃ evs,
      trace run.2 = trace w ++ evs
      ∧ Forall (λ ev, ∃ g, g ∈ files ∧ name g ∉ applied
                           ∧ (apply_call g (ev_call ev)
                              ∨ ev_call ev ∈ [BEGIN; INSERT (name g);
                                              COMMIT; ROLLBACK])) evs
      ∧ ∀ filename, filename ∈ applied →
                    Forall (λ ev, ev_call ev ≠ INSERT filename) evs.
Proof.
  intros run run'.
  destruct (process_filter_applied E files applied w w (agree_refl w))
    as (Hr & Htr & Hiso).
  split_and!; [done..|].
  destruct (process_migration_files_events E files applied w)
    as (evs & ok & Hevs & _ & _ & Hrun).
  exists evs. split_and!; [done|by eapply run_events_calls|].
  intros filename Hin. apply Forall_forall. intros ev Hev Hcall.
  by destruct (run_events_insert _ _ _ _ _ _ _ _ Hrun Hev Hcall).
Qed.

(** C5 with [001_init.sql] in the applied set: nothing is executed for it,
    and the only record inserted is that of the other file. *)
Lemma process_skips_applied_witness :
  ev_call <$> trace (process_migration_files (env_with [] [] picky_db)
                       [file_own_tx; file_table] {[ "001_init.sql" ]}
                       world_start).2
  = [BEGIN; Execute "CREATE TABLE items (id INT);" []; COMMIT;
     BEGIN; INSERT "002_items.sql"; COMMIT].
Proof.
  destruct (process_skips_applied (env_with [] [] picky_db)
              [file_own_tx; file_table] {[ "001_init.sql" ]} world_start)
    as (_ & -> & _).
  vm_compute. reflexivity.
Defined.

(** ** A whole run *)

Section Main.

Context `{SetIteration}.
Variable E : env.

(** What [run_migrations] adds to the trace: the events of processing
    the sorted files of the directory, or nothing when there is no
    directory or no file. *)
Lemma run_migrations_events applied w :
  ∃ (evs : list event) (ok : bool) (files : list file),
    trace (run_migrations E applied w).2 = trace w ++ evs
    ∧ (run_migrations E applied w).1
      = (if ok then Ret () else Raise (SystemExit 1))
    ∧ run_events E applied (trace w) files evs ok
    ∧ NoDup (names files)
    ∧ files ⊆ dir_glob_sql E
    ∧ (dir_exists E = false ∨ dir_glob_sql E = [] → files = []).
Proof.
  unfold run_migrations.
  destruct (dir_exists E) eqn:Hdir; simpl.
  - destruct (decide (dir_glob_sql E = [])) as [Hnil|Hnil].
    + exists [], true, []. rewrite app_nil_r.
      split_and!; [done|done|apply run_nil|apply NoDup_nil_2|set_solver|done].
    + destruct (topological_sort_names (dir_glob_sql E))
        as (sorted_files & Hsort & Hnd & _ & Hfind).
      rewrite Hsort. unfold mbind, M_bind, logger.
      match goal with
      | |- context [process_migration_files E sorted_files applied ?w0] =>
          destruct (process_migration_files_events E sorted_files applied w0)
            as (evs & ok & Htr & _ & Hr & Hrun)
      end.
      exists evs, ok, sorted_files.
      split_and!; [done|done|done|done| |].
      * intros g Hg. apply Hfind, find_file_Some in Hg as [Hg _].
        by rewrite sorted_by_name_perm in Hg.
      * by intros [?|?].
  - exists [], true, []. rewrite app_nil_r.
    split_and!; [done|done|apply run_nil|apply NoDup_nil_2|set_solver|done].
Qed.

(** The part of [main] between opening and closing the cursor. *)
Lemma main_try_block_run w :
  main_try_block E w
  = match attempt E (trace w) setup_calls with
    | (setup, Raise e) =>
        (Raise e, World (trace w ++ setup) (isolation_level w) (log w))
    | (setup, Ret _) =>
        (run_migrations E (list_to_set (fetchall_rows E)) ;;
         logger INFO "Migration process completed.")
          (World (trace w ++ setup ++ [Ev FetchAll None])
                 (isolation_level w) (log w))
    end.
Proof.
  unfold main_try_block, create_applied_migrations_table,
    get_applied_migrations, execute, client, setup_calls, attempt.
  unfold mbind, M_bind, mret, M_ret, db, add_event. simpl.
  destruct (db_raises E (trace w) _); [done|]. simpl.
  destruct (db_raises E (trace w ++ [_]) Commit); simpl;
    [by rewrite <- ?(assoc_L (++))|].
  destruct (db_raises E ((trace w ++ [_]) ++ [_]) _); simpl;
    by rewrite <- ?(assoc_L (++)).
Qed.

(** What a whole run adds to the trace, and how it ends. *)
Lemma main_run w :
  ∃ (evs : list event) (ok : bool),
    trace (main E w).2 = trace w ++ evs
    ∧ (main E w).1 = (if ok then Ret () else Raise (SystemExit 1))
    ∧ main_events E (trace w) evs ok.
Proof.
  remember (main E w) as res eqn:Hmain.
  unfold main, database_connection in Hmain.
  destruct (DATABASE_URL E) as [[|c cs]|] eqn:Hurl.
  - subst res. exists [], false. rewrite app_nil_r.
    split_and!; [reflexivity..|]. apply no_url. by right.
  - unfold mbind at 1 in Hmain. unfold M_bind at 1 in Hmain.
    unfold logger at 1 in Hmain.
    cbv beta iota in Hmain. unfold db at 1 in Hmain. cbn [trace] in Hmain.
    destruct (db_raises E (trace w) (Connect (String c cs))) as [msg|] eqn:Hc.
    { subst res. exists [Ev (Connect (String c cs)) (Some msg)], false.
      split_and!; [reflexivity..|]. by eapply connect_failed. }
    unfold try_finally at 1 in Hmain. unfold try_except at 1 in Hmain.
    unfold mbind at 1 in Hmain. unfold M_bind at 1 in Hmain.
    unfold client at 1 in Hmain.
    cbv beta iota in Hmain. unfold try_finally at 1 in Hmain.
    rewrite main_try_block_run in Hmain. unfold add_event in Hmain.
    cbn [trace isolation_level log] in Hmain.
    rewrite <- (assoc_L (++)) in Hmain. cbn [app] in Hmain.
    destruct (attempt E (trace w ++ [Ev (Connect (String c cs)) None;
                                     Ev OpenCursor None]) setup_calls)
      as [setup [[]|e]] eqn:Hsetup.
    + unfold mbind at 1 in Hmain. unfold M_bind at 1 in Hmain.
      match type of Hmain with
      | context [run_migrations E ?applied ?w0] =>
          destruct (run_migrations_events applied w0)
            as (evs & ok & files & Htr & Hr & Hrun & Hnd & Hsub & Hnone);
          destruct (run_migrations E applied w0) as [r w']
      end.
      cbn [trace fst snd] in Htr, Hr, Hrun.
      exists ([Ev (Connect (String c cs)) None; Ev OpenCursor None] ++ setup
              ++ [Ev FetchAll None] ++ evs
              ++ [Ev CloseCursor None; Ev CloseConnection None]), ok.
      split_and!.
      * destruct ok; subst r res; simpl; rewrite Htr;
          by rewrite <- !(assoc_L (++)).
      * by destruct ok; subst r res.
      * eapply migrated; try done.
        by rewrite <- !(assoc_L (++)) in Hrun.
    + destruct (attempt_outcome E (trace w ++ [Ev (Connect (String c cs)) None;
                                   Ev OpenCursor None]) setup_calls)
        as [Hr|[msg Hr]]; rewrite Hsetup in Hr; simpl in Hr; [done|].
      injection Hr as ->.
      exists ([Ev (Connect (String c cs)) None; Ev OpenCursor None] ++ setup
              ++ [Ev CloseCursor None; Ev CloseConnection None]), false.
      subst res. split_and!.
      * simpl. by rewrite <- !(assoc_L (++)).
      * done.
      * by eapply setup_failed.
  - subst res. exists [], false. rewrite app_nil_r.
    split_and!; [reflexivity..|]. apply no_url. by left.
Qed.

End Main.

(** ** Exit status *)

Lemma main_events_ok E tr evs ok :
  main_events E tr evs ok → ok = true ↔ url_set E ∧ clean evs.
Proof.
  unfold url_set.
  destruct 1 as [Hurl|cs msg Hurl Hcs Hc|cs setup e Hurl Hcs Hc Hsetup
                 |cs setup files evs ok Hurl Hcs Hc Hsetup Hrun _ _ _].
  - split; [done|]. intros [(cs & Hcs & Hne) _].
    destruct Hurl as [Hurl|Hurl]; rewrite Hurl in Hcs; by simplify_eq.
  - split; [done|]. intros [_ Hclean]. by inversion Hclean.
  - split; [done|]. intros [_ Hclean].
    apply clean_app in Hclean as [_ [Hclean _]%clean_app].
    pose proof (attempt_clean E (tr ++ [Ev (Connect cs) None; Ev OpenCursor None])
                  setup_calls) as Hiff.
    rewrite Hsetup in Hiff. simpl in Hiff. by apply Hiff in Hclean.
  - rewrite (run_events_clean _ _ _ _ _ _ Hrun).
    pose proof (attempt_clean E (tr ++ [Ev (Connect cs) None; Ev OpenCursor None])
                  setup_calls) as Hiff.
    rewrite Hsetup in Hiff. simpl in Hiff.
    rewrite !clean_app. unfold clean at 2 4 6. rewrite !Forall_cons.
    simpl. split.
    + intros Hclean. split; [by exists cs|]. split_and!; try done.
      by apply Hiff.
    + by intros (_ & _ & _ & _ & ? & _).
Qed.

(** When the database refuses nothing, nothing raises. *)
Lemma apply_migration_quiet E f w :
  (∀ tr c, db_raises E tr c = None) → (apply_migration E f w).1 = Ret ().
Proof.
  intros Hquiet.
  destruct (requires_autocommit (content f)) eqn:Hauto;
    [|destruct (has_transaction_block (content f)) eqn:Htx].
  - pose proof (apply_migration_autocommit E f w Hauto) as Hrun.
    unfold autocommit_run in Hrun. rewrite attempt_quiet in Hrun by done.
    destruct (apply_migration E f w). by destruct Hrun.
  - pose proof (apply_migration_self_managed E f w Hauto Htx) as Hrun.
    unfold self_managed_run in Hrun. rewrite attempt_quiet in Hrun by done.
    destruct (apply_migration E f w). by destruct Hrun.
  - pose proof (apply_migration_wrapped E f w Hauto Htx) as Hrun.
    unfold wrapped_run in Hrun. rewrite attempt_quiet in Hrun by done.
    destruct (apply_migration E f w). by destruct Hrun.
Qed.

Lemma run_events_quiet E applied tr files evs ok :
  (∀ tr c, db_raises E tr c = None) →
  run_events E applied tr files evs ok → ok = true.
Proof.
  intros Hquiet.
  induction 1 as [tr|tr f l evs ok Hin _ IH
                  |tr f l w0 A evs ok Hin _ _ _ _ _ _ IH
                  |tr f l w0 A tail aok Hin _ Hret _ _ _ Hrec]; try done.
  assert (aok = true) as -> by (by apply Hret, apply_migration_quiet).
  inversion Hrec as [|rb Hk|msg rb _ Hc|msg rb _ Hc|msg rb _ Hc];
    try done; by rewrite Hquiet in Hc.
Qed.

Lemma main_events_quiet E tr evs ok :
  (∀ tr c, db_raises E tr c = None) → url_set E →
  main_events E tr evs ok → ok = true.
Proof.
  intros Hquiet (cs & Hurl & Hcs).
  destruct 1 as [Hu|cs' msg _ _ Hc|cs' setup e _ _ _ Hsetup
                 |cs' setup files evs ok _ _ _ _ Hrun _ _ _].
  - destruct Hu as [Hu|Hu]; rewrite Hu in Hurl; by simplify_eq.
  - by rewrite Hquiet in Hc.
  - by rewrite attempt_quiet in Hsetup.
  - by eapply run_events_quiet.
Qed.

(** C6. The process exits with status 0 or 1.  It exits with 0 exactly when
    the connection string is set and no call on the database raised: on
    full success, and when, the connection and the tracking table being
    fine, the migrations directory is missing or holds no file; it does so
    whenever the database refuses nothing.  It exits with 1 when [DATABASE_URL] is unset or empty (and then nothing is called),
    when connecting raises, and when any later call raises, as a failing
    migration does. *)
Theorem main_exit_status `{SetIteration} (E : env) (w : world) :
  ∃ evs,
    trace (main E w).2 = trace w ++ evs
    ∧ (exit_status (main E w).1 = 0%Z ∨ exit_status (main E w).1 = 1%Z)
    ∧ (exit_status (main E w).1 = 0%Z ↔ url_set E ∧ clean evs)
    ∧ (url_set E → (∀ tr c, db_raises E tr c = None) →
       exit_status (main E w).1 = 0%Z)
    ∧ (¬ url_set E → exit_status (main E w).1 = 1%Z ∧ evs = [])
    ∧ (∀ cs, DATABASE_URL E = Some cs →
             is_Some (db_raises E (trace w) (Connect cs)) →
             exit_status (main E w).1 = 1%Z)
    ∧ (∀ ev, ev ∈ evs → ev_error ev ≠ None →
             exit_status (main E w).1 = 1%Z)
    ∧ (∀ cs, DATABASE_URL E = Some cs → cs ≠ "" →
             db_raises E (trace w) (Connect cs) = None →
             (attempt E (trace w ++ [Ev (Connect cs) None; Ev OpenCursor None])
                      setup_calls).2 = Ret () →
             dir_exists E = false ∨ dir_glob_sql E = [] →
             exit_status (main E w).1 = 0%Z).
Proof.
  destruct (main_run E w) as (evs & ok & Htr & Hr & Hev).
  pose proof (main_events_ok _ _ _ _ Hev) as Hok.
  assert (exit_status (main E w).1 = 0%Z ↔ ok = true) as Hexit.
  { rewrite Hr. by destruct ok. }
  assert (exit_status (main E w).1 = 0%Z ∨ exit_status (main E w).1 = 1%Z)
    as H01.
  { rewrite Hr. destruct ok; [by left|by right]. }
  exists evs. split_and!; [done|done|by rewrite Hexit| | | | |].
  - intros Hurl Hquiet. apply Hexit. by eapply main_events_quiet.
  - intros Hnourl. split.
    + destruct H01 as [H0|?]; [|done]. apply Hexit, Hok in H0 as [? _]. done.
    + inversion Hev; subst; try done; destruct Hnourl; by eexists.
  - intros cs Hurl [msg Hmsg].
    destruct H01 as [H0|?]; [|done]. exfalso.
    apply Hexit in H0. subst ok.
    inversion Hev; simplify_eq.
  - intros ev Hin Herr. destruct H01 as [H0|?]; [|done]. exfalso.
    apply Hexit, Hok in H0 as [_ Hclean]. unfold clean in Hclean.
    rewrite Forall_forall in Hclean. by apply Herr, Hclean.
  - intros cs Hurl Hcs Hconnect Hsetup Hnone. apply Hexit.
    inversion Hev as [Hu|cs' msg Hu _ Hc|cs' setup e Hu _ _ Hs
                      |cs' setup files evs' ok' Hu _ _ Hs Hrun _ _ Hfiles];
      subst; simplify_eq.
    + destruct Hu as [Hu|Hu]; rewrite Hu in Hurl; by simplify_eq.
    + rewrite Hs in Hsetup. done.
    + rewrite (Hfiles Hnone) in Hrun. by inversion Hrun.
Qed.

(** C6 on five runs: no connection string, a database out of reach, no
    migrations directory, two files applied, and a file that fails. *)
Lemma main_exit_status_witness :
  exit_status (@main elements_iteration env_no_url world_start).1 = 1%Z
  ∧ exit_status (@main elements_iteration
                   (env_with [file_table] [] unreachable_db) world_start).1
    = 1%Z
  ∧ exit_status (@main elements_iteration env_no_dir world_start).1 = 0%Z
  ∧ exit_status (@main elements_iteration
                   (env_with [file_table; file_own_tx] [] quiet_db)
                   world_start).1 = 0%Z
  ∧ exit_status (@main elements_iteration
                   (env_with [file_table; file_broken; file_later] []
                             picky_db) world_start).1 = 1%Z.
Proof.
  split_and!.
  - destruct (@main_exit_status elements_iteration env_no_url world_start)
      as (evs & _ & _ & _ & _ & Hnourl & _).
    apply Hnourl. intros (cs & Hcs & _). discriminate Hcs.
  - destruct (@main_exit_status elements_iteration
                (env_with [file_table] [] unreachable_db) world_start)
      as (evs & _ & _ & _ & _ & _ & Hconnect & _).
    apply (Hconnect "postgresql://app@db/app"); [reflexivity|].
    by eexists.
  - destruct (@main_exit_status elements_iteration env_no_dir world_start)
      as (evs & _ & _ & _ & _ & _ & _ & _ & Hnoop).
    apply (Hnoop "postgresql://app@db/app"); try reflexivity; [done|by left].
  - destruct (@main_exit_status elements_iteration
                (env_with [file_table; file_own_tx] [] quiet_db) world_start)
      as (evs & Htr & _ & Hiff & _).
    apply Hiff. split.
    + exists "postgresql://app@db/app". by split.
    + simpl in Htr. rewrite <- Htr. vm_compute. repeat constructor.
  - destruct (@main_exit_status elements_iteration
                (env_with [file_table; file_broken; file_later] [] picky_db)
                world_start)
      as (evs & Htr & _ & _ & _ & _ & _ & Hfail & _).
    apply (Hfail (Ev (Execute "CREATE TABLE BOOM (id INT);" [])
                     (Some "syntax error at or near BOOM"))); [|done].
    simpl in Htr. rewrite <- Htr. vm_compute. set_solver.
Defined.

(** ** Records in the tracking table *)

Lemma session_call_not_INSERT c x : session_call c → c ≠ INSERT x.
Proof.
  unfold session_call, INSERT. intros [[cs ->]|Hc]; [done|].
  intros ->. repeat (apply elem_of_cons in Hc as [?|Hc]; [done|]).
  by apply elem_of_nil in Hc.
Qed.

Lemma filter_insert_session x evs :
  Forall (λ ev, session_call (ev_call ev)) evs →
  filter (λ ev, ev_call ev = INSERT x) evs = [].
Proof.
  intros Hs. apply filter_none. eapply Forall_impl; [exact Hs|].
  intros ev Hc. simpl in *. by apply session_call_not_INSERT.
Qed.

Lemma setup_events_session E tr :
  Forall (λ ev, session_call (ev_call ev)) (attempt E tr setup_calls).1.
Proof.
  eapply Forall_impl; [apply attempt_calls_in|].
  intros ev Hev. simpl in *. right. unfold setup_calls in Hev. set_solver.
Qed.

(** C9. Throughout a run, at most one record is inserted into the tracking
    table per file name.  A record is inserted only for a pending file of the
    directory, right after all the calls of [apply_migration] for that file
    returned, and inside a transaction of its own: the call before the insert
    is a [BEGIN;] that returned, and the call after an insert that returned is
    [COMMIT;].  The run issues nothing else on its own account than the
    calls that open and close the session, create the table and select its
    rows, and [BEGIN;], the insert, [COMMIT;] and [ROLLBACK;]: no update and
    no delete; every other call comes from [apply_migration] for a pending
    file. *)
Theorem tracking_records `{SetIteration} (E : env) (w : world) :
  ∃ evs,
    trace (main E w).2 = trace w ++ evs
    ∧ (∀ x, length (filter (λ ev, ev_call ev = INSERT x) evs) ≤ 1)
    ∧ (∀ i ev x,
         evs !! i = Some ev → ev_call ev = INSERT x →
         ∃ g w0 A,
           g ∈ dir_glob_sql E ∧ name g = x ∧ x ∉ fetchall_rows E
           ∧ (apply_migration E g w0).1 = Ret ()
           ∧ trace (apply_migration E g w0).2 = trace w0 ++ A
           ∧ trace w ++ take i evs = trace w0 ++ A ++ [Ev BEGIN None]
           ∧ (ev_error ev = None → ∃ c, evs !! S i = Some (Ev COMMIT c)))
    ∧ Forall (λ ev,
        session_call (ev_call ev)
        ∨ ∃ g, g ∈ dir_glob_sql E ∧ name g ∉ fetchall_rows E
               ∧ (apply_call g (ev_call ev)
                  ∨ ev_call ev ∈ [BEGIN; INSERT (name g); COMMIT; ROLLBACK]))
        evs.
Proof.
  destruct (main_run E w) as (evs & ok & Htr & _ & Hev).
  exists evs. split; [done|].
  assert (∀ l, Forall (λ ev, session_call (ev_call ev)) l →
    (∀ x, length (filter (λ ev, ev_call ev = INSERT x) l) ≤ 1)
    ∧ (∀ i ev x, l !! i = Some ev → ev_call ev = INSERT x → False)) as Hsession.
  { intros l Hl. split.
    - intros x. rewrite filter_insert_session by done. simpl. lia.
    - intros i ev x Hi Hc. apply list_elem_of_lookup_2 in Hi.
      rewrite Forall_forall in Hl. apply Hl in Hi.
      by apply (session_call_not_INSERT _ x) in Hi. }
  assert (∀ l, Forall (λ ev, session_call (ev_call ev)) l →
    Forall (λ ev,
        session_call (ev_call ev)
        ∨ ∃ g, g ∈ dir_glob_sql E ∧ name g ∉ fetchall_rows E
               ∧ (apply_call g (ev_call ev)
                  ∨ ev_call ev ∈ [BEGIN; INSERT (name g); COMMIT; ROLLBACK]))
      l) as Hleft.
  { intros l Hl. eapply Forall_impl; [exact Hl|]. intros ev ?. by left. }
  assert (∀ cs, Forall (λ ev, session_call (ev_call ev))
                  [Ev (Connect cs) None; Ev OpenCursor None]) as Hopen.
  { intros cs. rewrite !Forall_cons. split_and!; [|right; set_solver|done].
    left. by eexists. }
  assert (Forall (λ ev, session_call (ev_call ev))
            [Ev CloseCursor None; Ev CloseConnection None]) as Hclose.
  { rewrite !Forall_cons. split_and!; [right; set_solver..|done]. }
  destruct Hev as [Hurl|cs msg Hurl Hcs Hc|cs setup e Hurl Hcs Hc Hsetup
                   |cs setup files R ok Hurl Hcs Hc Hsetup Hrun Hnd Hsub _].
  - split_and!; [simpl; lia|by intros i ev x ?|constructor].
  - assert (Forall (λ ev, session_call (ev_call ev))
              [Ev (Connect cs) (Some msg)]) as Hs.
    { rewrite Forall_singleton. left. by eexists. }
    destruct (Hsession _ Hs) as [Hcount Hnone].
    split_and!; [done| |by apply Hleft].
    intros i ev x Hi Hcall. by destruct (Hnone i ev x).
  - assert (Forall (λ ev, session_call (ev_call ev))
              ([Ev (Connect cs) None; Ev OpenCursor None] ++ setup
               ++ [Ev CloseCursor None; Ev CloseConnection None])) as Hs.
    { rewrite !Forall_app. split_and!; [done| |done].
      pose proof (setup_events_session E
        (trace w ++ [Ev (Connect cs) None; Ev OpenCursor None])) as Hse.
      by rewrite Hsetup in Hse. }
    destruct (Hsession _ Hs) as [Hcount Hnone].
    split_and!; [done| |by apply Hleft].
    intros i ev x Hi Hcall. by destruct (Hnone i ev x).
  - set (P := [Ev (Connect cs) None; Ev OpenCursor None] ++ setup
              ++ [Ev FetchAll None]).
    set (Q := [Ev CloseCursor None; Ev CloseConnection None]) in *.
    assert ([Ev (Connect cs) None; Ev OpenCursor None] ++ setup
            ++ [Ev FetchAll None] ++ R ++ Q = P ++ R ++ Q) as ->.
    { unfold P. by rewrite <- !(assoc_L (++)). }
    assert (Forall (λ ev, session_call (ev_call ev)) P) as HP.
    { unfold P. rewrite !Forall_app. split_and!; [done| |].
      - pose proof (setup_events_session E
          (trace w ++ [Ev (Connect cs) None; Ev OpenCursor None])) as Hse.
        by rewrite Hsetup in Hse.
      - rewrite Forall_singleton. right. set_solver. }
    assert (trace w ++ [Ev (Connect cs) None; Ev OpenCursor None] ++ setup
            ++ [Ev FetchAll None] = trace w ++ P) as HtrP by done.
    rewrite HtrP in Hrun.
    assert (∀ g, g ∈ files → name g ∉ (list_to_set (fetchall_rows E)
                                         : gset string) →
                 g ∈ dir_glob_sql E ∧ name g ∉ fetchall_rows E) as Hpending.
    { intros g Hg Hn. split; [by apply Hsub|].
      intros Hin. apply Hn. by apply elem_of_list_to_set. }
    split_and!.
    + intros x. rewrite !filter_app, !length_app.
      rewrite (filter_insert_session x P), (filter_insert_session x Q) by done.
      pose proof (run_events_insert_once _ _ _ _ _ _ x Hnd Hrun). simpl. lia.
    + intros i ev x Hi Hcall.
      apply lookup_app_Some in Hi as [Hi|[Hlen Hi]].
      { by destruct (proj2 (Hsession _ HP) i ev x). }
      apply lookup_app_Some in Hi as [Hi|[Hlen' Hi]];
        [|by destruct (proj2 (Hsession _ Hclose) _ ev x Hi)].
      destruct (run_events_insert_context _ _ _ _ _ _ _ _ _ Hrun Hi Hcall)
        as (g & w0 & A & Hg & Hname & Hx & Hret & HtrA & Htake & Hnext).
      destruct (run_events_insert _ _ _ _ _ _ _ _ Hrun
                  (list_elem_of_lookup_2 _ _ _ Hi) Hcall) as [_ Hx'].
      exists g, w0, A. rewrite <- Hname in Hx.
      destruct (Hpending g Hg Hx) as [Hgin Hrows]. rewrite Hname in Hrows.
      split_and!; [done..| |].
      * rewrite <- Htake.
        replace i with (length P + (i - length P)) at 1 by lia.
        rewrite take_app_add, take_app_le, (assoc_L (++)); [done|].
        apply lookup_lt_Some in Hi. lia.
      * intros Hok. destruct (Hnext Hok) as [c Hc']. exists c.
        rewrite lookup_app_r by lia.
        replace (S i - length P) with (S (i - length P)) by lia.
        by apply lookup_app_l_Some.
    + rewrite !Forall_app. split_and!; [by apply Hleft| |by apply Hleft].
      eapply Forall_impl; [by eapply run_events_calls|].
      intros ev (g & Hg & Hn & Hc'). right. exists g.
      destruct (Hpending g Hg Hn). by split_and!.
Qed.

(** C9 on a run with two pending files: one record each. *)
Lemma tracking_records_witness :
  length (filter (λ ev, ev_call ev = INSERT "002_items.sql")
            (trace (@main elements_iteration
                      (env_with [file_table; file_own_tx] [] quiet_db)
                      world_start).2)) ≤ 1
  ∧ Ev (INSERT "002_items.sql") None
    ∈ trace (@main elements_iteration
               (env_with [file_table; file_own_tx] [] quiet_db)
               world_start).2.
Proof.
  destruct (@tracking_records elements_iteration
              (env_with [file_table; file_own_tx] [] quiet_db) world_start)
    as (evs & Htr & Hcount & _).
  split.
  - rewrite Htr. apply Hcount.
  - vm_compute. set_solver.
Defined.

(** ** More on the order of files *)

(** In a list sorted by [R], [find] returns an element that is [R]-below
    every element satisfying the test. *)
Lemma find_sorted_least {A} (R : relation A) (Hrefl : ∀ x, R x x) (p : A → bool)
    (l : list A) (x : A) :
  StronglySorted R l → List.find p l = Some x →
  ∀ y, y ∈ l → p y = true → R x y.
Proof.
  induction 1 as [|a l Hl IH Ha]; intros Hfind y Hy Hp; [done|].
  simpl in Hfind. destruct (p a) eqn:Hpa.
  - simplify_eq. apply elem_of_cons in Hy as [->|Hy]; [apply Hrefl|].
    rewrite Forall_forall in Ha. by apply Ha.
  - apply elem_of_cons in Hy as [->|Hy]; [congruence|]. by apply IH.
Qed.

Lemma name_le_refl (f : file) : name_le f f.
Proof. by destruct (name_le_total f f). Qed.

(** X1. The prefix match resolves a table name to the file of the smallest
    name, in lexicographic order, among the files whose name starts with the
    table name; it resolves to nothing exactly when no file name starts with
    it. *)
Theorem find_dep_file_smallest (files : list file) (dep_table : string) :
  match find_dep_file (sorted_by_name files) dep_table with
  | Some g =>
      g ∈ files
      ∧ PyStr.startswith dep_table (name g) = true
      ∧ ∀ h, h ∈ files → PyStr.startswith dep_table (name h) = true →
             name_le g h
  | None =>
      ∀ h, h ∈ files → PyStr.startswith dep_table (name h) = false
  end.
Proof.
  destruct (find_dep_file (sorted_by_name files) dep_table) as [g|] eqn:Hfind.
  - destruct (find_dep_file_Some _ _ _ Hfind) as [Hg Hstart].
    rewrite sorted_by_name_perm in Hg. split_and!; [done..|].
    intros h Hh Hp.
    eapply (find_sorted_least name_le name_le_refl); [apply sorted_by_name_sorted|exact Hfind| |done].
    by rewrite sorted_by_name_perm.
  - intros h Hh. unfold find_dep_file in Hfind.
    apply (find_none _ _ Hfind h), list_elem_of_In.
    by rewrite sorted_by_name_perm.
Qed.

(** On [files_numbered], the table name [a] resolves to [a_users.sql]. *)
Lemma find_dep_file_smallest_witness :
  File "a_users.sql" "CREATE TABLE a_users (id INT);" ∈ files_numbered
  ∧ PyStr.startswith "a" "a_users.sql" = true
  ∧ ∀ h, h ∈ files_numbered → PyStr.startswith "a" (name h) = true →
         name_le (File "a_users.sql" "CREATE TABLE a_users (id INT);") h.
Proof.
  pose proof (find_dep_file_smallest files_numbered "a") as Hsmallest.
  assert (find_dep_file (sorted_by_name files_numbered) "a"
          = Some (File "a_users.sql" "CREATE TABLE a_users (id INT);")) as Heq
    by (vm_compute; reflexivity).
  rewrite Heq in Hsmallest. exact Hsmallest.
Defined.

Lemma numbered_consistently_spec (files : list file) :
  numbered_consistently files = true →
  ∀ f g, depends_on files f g → name_le g f.
Proof.
  unfold numbered_consistently. rewrite forallb_forall.
  intros Hall f g (Hf & t & Ht & Hg).
  apply list_elem_of_In, Hall in Hf. rewrite forallb_forall in Hf.
  specialize (Hf t). rewrite Hg in Hf. apply Hf.
  by apply list_elem_of_In, elem_of_elements.
Qed.

Section Numbering.

Context `{SetIteration}.

(** A loop over references that resolve to marked names only leaves the
    state as it is. *)
Lemma for_each_marked fs deps fuel ts st :
  0 < fuel →
  (∀ t g, t ∈ ts → find_dep_file fs t = Some g → name g ∈ visited st) →
  for_each (λ dep_table st',
              match find_dep_file fs dep_table with
              | Some dep_file => visit fs deps fuel (name dep_file) st'
              | None => Some st'
              end) ts st = Some st.
Proof.
  intros Hfuel. destruct fuel as [|fuel]; [lia|].
  induction ts as [|t ts IH]; intros Hm; cbn [for_each]; [done|].
  destruct (find_dep_file fs t) as [g|] eqn:Hg.
  - cbn [visit]. rewrite decide_True by (eapply Hm; [by left|done]).
    apply IH. intros t' g' Ht'. apply Hm. by right.
  - apply IH. intros t' g' Ht'. apply Hm. by right.
Qed.

Lemma visit_all_numbered files l pre st :
  NoDup (names files) →
  (∀ f g, depends_on files f g → name_le g f) →
  sorted_by_name files = pre ++ l →
  visited st = list_to_set (names pre) → result st = pre →
  ∃ st',
    for_each (λ f s, visit (sorted_by_name files)
                       (build_dependencies (sorted_by_name files))
                       (S (length (sorted_by_name files))) (name f) s)
             l st = Some st'
    ∧ result st' = pre ++ l.
Proof.
  intros Hnd Hnum. revert pre st.
  induction l as [|f l IH]; intros pre st Hsplit Hvis Hres.
  - exists st. by rewrite app_nil_r.
  - assert (NoDup (names (sorted_by_name files))) as Hnd'
      by (by rewrite names_sorted_perm).
    assert (f ∈ sorted_by_name files) as Hf by (rewrite Hsplit; set_solver).
    assert (f ∈ files) as Hf' by (by rewrite sorted_by_name_perm in Hf).
    assert (name f ∉ visited st) as Hfresh.
    { rewrite Hvis, elem_of_list_to_set. rewrite Hsplit in Hnd'.
      unfold names in Hnd'. rewrite fmap_app, fmap_cons in Hnd'.
      apply NoDup_app in Hnd' as (_ & Hdisj & _).
      intros Hin. apply (Hdisj _ Hin). by left. }
    cbn [for_each visit]. rewrite decide_False by done.
    rewrite for_each_marked; cycle 1.
    { rewrite Hsplit, length_app. simpl. lia. }
    { intros t g Ht Hg. simpl.
      assert (name_le g f) as Hle.
      { apply Hnum. split; [done|]. exists t. split; [|done].
        by apply (deps_of_file files Hnd f t Hf'). }
      apply find_dep_file_Some in Hg as [Hg _]. rewrite Hsplit in Hg.
      apply elem_of_app in Hg as [Hg|Hg].
      - apply elem_of_union_r. rewrite Hvis, elem_of_list_to_set.
        apply list_elem_of_fmap. eauto.
      - apply elem_of_union_l, elem_of_singleton.
        apply elem_of_cons in Hg as [->|Hg]; [done|].
        apply String.leb_antisym; [done|].
        pose proof (sorted_by_name_sorted files) as Hsorted.
        rewrite Hsplit in Hsorted.
        apply StronglySorted_app_1_r, StronglySorted_inv in Hsorted
          as [_ Hall].
        rewrite Forall_forall in Hall. by apply Hall. }
    rewrite find_file_distinct by done. simpl.
    destruct (IH (pre ++ [f])
                (Dfs ({[ name f ]} ∪ visited st) (result st ++ [f])))
      as (st' & Hrun & Hres').
    + by rewrite <- (assoc_L (++)).
    + simpl. rewrite Hvis. unfold names.
      rewrite fmap_app, list_to_set_app_L. simpl. set_solver.
    + simpl. by rewrite Hres.
    + exists st'. split; [done|]. by rewrite Hres', <- (assoc_L (++)).
Qed.

End Numbering.

(** X2. The order in which the directory listing yields the files does
    not matter: two lists with the same files, of distinct names, are
    sorted to the same list. *)
Theorem topological_sort_listing_order `{SetIteration}
    (files files' : list file) :
  NoDup (names files) → files ≡ₚ files' →
  topological_sort files = topological_sort files'.
Proof.
  intros Hnd Hperm.
  assert (sorted_by_name files = sorted_by_name files') as Hsorted.
  { apply (StronglySorted_unique_strong name_le);
      [|apply sorted_by_name_sorted..|by rewrite !sorted_by_name_perm].
    intros f g Hf Hg Hfg Hgf. rewrite sorted_by_name_perm in Hf, Hg.
    rewrite <- Hperm in Hg.
    apply (NoDup_names_inj files); [done..|].
    by apply String.leb_antisym. }
  unfold topological_sort. by rewrite Hsorted.
Qed.

(** X3. When every reference that resolves leads to a file whose name is
    not larger than that of the referencing file, as with files numbered
    in the order of their creation, the files come out in lexicographic
    order of their names. *)
Theorem topological_sort_numbered `{SetIteration} (files : list file) :
  NoDup (names files) →
  (∀ f g, depends_on files f g → name_le g f) →
  topological_sort files = Some (sorted_by_name files).
Proof.
  intros Hnd Hnum. unfold topological_sort.
  destruct (visit_all_numbered files (sorted_by_name files) [] (Dfs ∅ []))
    as (st' & Hrun & Hres); [done..|].
  rewrite Hrun. by rewrite Hres.
Qed.

Lemma topological_sort_listing_order_witness :
  @topological_sort elements_iteration files_plain
  = @topological_sort elements_iteration (reverse files_plain).
Proof.
  apply (@topological_sort_listing_order elements_iteration).
  - by_computation.
  - apply (Permutation_sym (reverse_Permutation files_plain)).
Defined.

Lemma topological_sort_numbered_witness :
  @topological_sort elements_iteration files_numbered
  = Some (sorted_by_name files_numbered).
Proof.
  apply (@topological_sort_numbered elements_iteration).
  - by_computation.
  - apply numbered_consistently_spec. vm_compute. reflexivity.
Defined.

(** ** Files that come out before a file of a smaller name *)

Section Reach.

Context `{SetIteration}.
Variable fs : list file.
Variable deps : gmap string (gset string).

(** A call of [visit] only adds files that can be reached from the name
    it is called for. *)
Lemma visits_reach_mut :
  (∀ x st st', visits fs deps x st st' →
     ∀ g, g ∈ result st' →
          g ∈ result st ∨ rtc (edge fs deps) x (name g))
  ∧ (∀ ts st st', visits_deps fs deps ts st st' →
     ∀ x0, ts ⊆ deps_of deps x0 →
     ∀ g, g ∈ result st' →
          g ∈ result st ∨ tc (edge fs deps) x0 (name g)).
Proof.
  set (P := λ x st st', ∀ g, g ∈ result st' →
     g ∈ result st ∨ rtc (edge fs deps) x (name g)).
  set (Q := λ ts st st', ∀ x0, ts ⊆ deps_of deps x0 →
     ∀ g, g ∈ result st' → g ∈ result st ∨ tc (edge fs deps) x0 (name g)).
  assert (∀ x st, x ∈ visited st → P x st st) as Hseen.
  { intros x st _ g Hg. by left. }
  assert (∀ x st st2 f, x ∉ visited st →
    visits_deps fs deps (deps_of deps x)
      (Dfs ({[ x ]} ∪ visited st) (result st)) st2 →
    Q (deps_of deps x) (Dfs ({[ x ]} ∪ visited st) (result st)) st2 →
    find_file fs x = Some f →
    P x st (Dfs (visited st2) (result st2 ++ [f]))) as Hnew.
  { intros x st st2 f _ _ IH Hfind g Hg. simpl in Hg.
    apply elem_of_app in Hg as [Hg|Hg].
    - unfold Q in IH.
      destruct (IH x ltac:(done) g Hg) as [Hin|Ht]; [by left|].
      right. by apply tc_rtc.
    - apply list_elem_of_singleton in Hg as ->. right.
      destruct (find_file_Some _ _ _ Hfind) as [_ ->]. done. }
  assert (∀ st, Q [] st st) as Hnil.
  { intros st x0 _ g Hg. by left. }
  assert (∀ t ts st st', find_dep_file fs t = None →
    visits_deps fs deps ts st st' → Q ts st st' → Q (t :: ts) st st') as Hskip.
  { intros t ts st st' _ _ IH x0 Hsub. apply (IH x0). set_solver. }
  assert (∀ t ts g st st1 st', find_dep_file fs t = Some g →
    visits fs deps (name g) st st1 → P (name g) st st1 →
    visits_deps fs deps ts st1 st' → Q ts st1 st' → Q (t :: ts) st st')
    as Hstep.
  { intros t ts g st st1 st' Hg _ IHv _ IHloop x0 Hsub h Hh.
    unfold P, Q in *.
    destruct (IHloop x0 ltac:(set_solver) h Hh) as [Hin|Ht]; [|by right].
    destruct (IHv h Hin) as [Hin'|Hr]; [by left|].
    right. eapply tc_rtc_r; [|exact Hr]. apply tc_once.
    exists t, g. split_and!; [set_solver|done..]. }
  split.
  - apply (visits_mut _ fs deps P Q); eauto.
  - apply (visits_deps_mut _ fs deps P Q); eauto.
Qed.

Lemma visits_all_reach l st st' :
  visits_all fs deps l st st' →
  ∀ g, g ∈ result st' →
       g ∈ result st ∨ ∃ h, h ∈ l ∧ rtc (edge fs deps) (name h) (name g).
Proof.
  induction 1 as [st|f l st st1 st' Hv _ IH]; intros g Hg; [by left|].
  destruct (IH g Hg) as [Hin|(h & Hh & Hr)].
  - destruct (proj1 visits_reach_mut _ _ _ Hv g Hin) as [Hin'|Hr].
    + by left.
    + right. exists f. split; [by left|done].
  - right. exists h. split; [by right|done].
Qed.

End Reach.

Lemma precedes_within (l1 l2 : list string) y x :
  NoDup (l1 ++ l2) → x ∈ l1 → precedes (l1 ++ l2) y x → y ∈ l1.
Proof.
  intros Hnd Hx (i & j & Hi & Hj & Hlt).
  apply list_elem_of_lookup in Hx as [k Hk].
  assert ((l1 ++ l2) !! k = Some x) as Hk' by (by apply lookup_app_l_Some).
  assert (j = k) as -> by (by eapply NoDup_lookup).
  apply lookup_lt_Some in Hk. rewrite lookup_app_l in Hi by lia.
  by eapply list_elem_of_lookup_2.
Qed.

(** X4. The lexicographic order is left only where a reference demands it:
    when a file comes out before a file of a smaller name, it is needed,
    along one or more resolved references, by that file or by a file of a
    still smaller name. *)
Theorem topological_sort_displaced `{SetIteration} (files out : list file)
    (f g : file) :
  NoDup (names files) →
  topological_sort files = Some out →
  f ∈ files → g ∈ files → name_lt f g →
  precedes (names out) (name g) (name f) →
  ∃ h, h ∈ files ∧ name_le h f ∧ tc (depends_on files) h g.
Proof.
  intros Hnd Hout Hf Hg Hlt Hprec.
  destruct (topological_sort_run files) as (st & Hsort & Hall).
  assert (out = result st) as -> by congruence.
  destruct (topological_sort_names files) as (out & Hout' & Hnd' & _ & _).
  assert (out = result st) as -> by congruence.
  set (sorted := sorted_by_name files) in *.
  assert (f ∈ sorted) as [k Hk]%list_elem_of_lookup
    by (unfold sorted; by rewrite sorted_by_name_perm).
  pose proof (sorted_by_name_sorted files) as Hsorted. fold sorted in Hsorted.
  rewrite <- (take_drop_middle sorted k f Hk) in Hall at 3.
  rewrite <- (take_drop_middle sorted k f Hk) in Hsorted.
  apply visits_all_app_inv in Hall as (stc & Hpre & Hrest).
  inversion Hrest as [|f' l' s std s' Hv Hpost]; subst.
  destruct (visits_all_extends _ _ _ _ _ Hpre) as [_ (n1 & Hr1 & Hv1 & _)].
  destruct (proj1 (visits_extends_mut sorted _) _ _ _ Hv)
    as [Hfin (n2 & Hr2 & Hv2 & _)].
  destruct (visits_all_extends _ _ _ _ _ Hpost) as [_ (n3 & Hr3 & _)].
  simpl in Hr1, Hv1.
  assert (name f ∈ names (result std)) as Hfres.
  { rewrite Hv2, Hv1 in Hfin. rewrite Hr2, Hr1. unfold names.
    rewrite fmap_app. set_solver. }
  rewrite Hr3 in Hprec, Hnd'. unfold names in Hprec, Hnd'.
  rewrite fmap_app in Hprec, Hnd'.
  apply precedes_within in Hprec; [|done..].
  apply list_elem_of_fmap in Hprec as (g' & Hname & Hg').
  assert (∀ h, h ∈ files →
            rtc (edge sorted (build_dependencies sorted)) (name h) (name g') →
            h = g ∨ tc (depends_on files) h g) as Hreach.
  { intros h Hh Hr.
    destruct (rtc_edge_depends_on files Hnd _ _ Hr h Hh eq_refl)
      as (g'' & Hg'' & Hname' & Hrtc).
    assert (g'' = g) as ->
      by (apply (NoDup_names_inj files); [done..|congruence]).
    apply rtc_tc in Hrtc as [->|Htc]; [by left|by right]. }
  destruct (proj1 (visits_reach_mut sorted _) _ _ _ Hv g' Hg') as [Hin|Hr].
  - destruct (visits_all_reach _ _ _ _ _ Hpre g' Hin) as [Hnil|(h & Hh & Hr)];
      [by apply elem_of_nil in Hnil|].
    assert (name_le h f) as Hle.
    { eapply (StronglySorted_app_1_elem_of name_le); [exact Hsorted|done|].
      by left. }
    assert (h ∈ files) as Hh'.
    { apply elem_of_take in Hh as (i & Hi & _).
      apply list_elem_of_lookup_2 in Hi. unfold sorted in Hi.
      by rewrite sorted_by_name_perm in Hi. }
    exists h. split_and!; [done..|].
    destruct (Hreach h Hh' Hr) as [->|Htc]; [|done].
    by destruct (name_lt_not_le _ _ Hlt).
  - exists f. split_and!; [done|apply name_le_refl|].
    destruct (Hreach f Hf Hr) as [->|Htc]; [|done].
    by destruct (name_lt_irrefl g).
Qed.

(** On [files_cyclic], [d.sql] comes out before [b.sql]: it is needed by
    [a.sql]. *)
Lemma topological_sort_displaced_witness :
  ∃ h, h ∈ files_cyclic
       ∧ name_le h (File "b.sql" "CREATE TABLE b (id INT);")
       ∧ tc (depends_on files_cyclic) h (File "d.sql" "CREATE TABLE d (id INT);").
Proof.
  apply (@topological_sort_displaced elements_iteration files_cyclic out_cyclic).
  - by_computation.
  - vm_compute. reflexivity.
  - by_computation.
  - by_computation.
  - reflexivity.
  - exists 0, 2. split_and!; [reflexivity..|lia].
Defined.

(** ** More on the inspection of the content *)

Lemma all_chars_nil p : all_chars p "".
Proof. constructor. Qed.

Lemma all_chars_cons p c s :
  all_chars p (String c s) ↔ p c = true ∧ all_chars p s.
Proof. unfold all_chars. simpl. by rewrite Forall_cons. Qed.

Lemma span_spec p s a b :
  PyStr.span p s = (a, b) →
  s = a +:+ b ∧ all_chars p a ∧ ∀ c rest, b = String c rest → p c = false.
Proof.
  revert a b. induction s as [|c s IH]; intros a b Hspan; simpl in Hspan.
  - simplify_eq. split_and!; [done|apply all_chars_nil|done].
  - destruct (p c) eqn:Hc.
    + destruct (PyStr.span p s) as [a' b'] eqn:Hs. simplify_eq.
      destruct (IH a' b eq_refl) as (-> & Ha & Hb).
      split_and!; [done|by apply all_chars_cons|done].
    + simplify_eq. split_and!; [done|apply all_chars_nil|].
      intros c' rest ?; by simplify_eq.
Qed.

Lemma strip_prefix_spec pre s r :
  PyStr.strip_prefix pre s = Some r → s = pre +:+ r.
Proof.
  revert s. induction pre as [|a pre IH]; intros s Hs; simpl in Hs.
  - by simplify_eq.
  - destruct s as [|b s]; [done|].
    destruct (decide (a = b)) as [->|]; [|done].
    rewrite string_app_cons. f_equal. by apply IH.
Qed.

Lemma match_references_at_spec s m :
  match_references_at s = Some m →
  ∃ ws post,
    s = "REFERENCES" +:+ ws +:+ m +:+ post
    ∧ ws ≠ "" ∧ all_chars PyStr.is_space ws
    ∧ m ≠ "" ∧ all_chars PyStr.is_word m
    ∧ ∀ c rest, post = String c rest → PyStr.is_word c = false.
Proof.
  unfold match_references_at. intros Hm.
  destruct (PyStr.strip_prefix "REFERENCES" s) as [r|] eqn:Hr; [|done].
  apply strip_prefix_spec in Hr as ->.
  destruct (PyStr.span PyStr.is_space r) as [ws r'] eqn:Hws.
  destruct (PyStr.span PyStr.is_word r') as [w post] eqn:Hw.
  destruct (decide (ws = "")); [done|].
  destruct (decide (w = "")); [done|]. simplify_eq.
  apply span_spec in Hws as (-> & Hws & _).
  apply span_spec in Hw as (-> & Hw & Hpost).
  exists ws, post. by split_and!.
Qed.

Lemma re_search_references_spec line m :
  re_search_references line = Some m →
  ∃ pre ws post,
    line = pre +:+ "REFERENCES" +:+ ws +:+ m +:+ post
    ∧ ws ≠ "" ∧ all_chars PyStr.is_space ws
    ∧ m ≠ "" ∧ all_chars PyStr.is_word m
    ∧ ∀ c rest, post = String c rest → PyStr.is_word c = false.
Proof.
  induction line as [|c line IH]; cbn [re_search_references].
  - intros Hm. by vm_compute in Hm.
  - destruct (match_references_at (String c line)) as [w|] eqn:Hw.
    + intros ?; simplify_eq.
      apply match_references_at_spec in Hw as (ws & post & Heq & Hrest).
      by exists "", ws, post.
    + intros (pre & ws & post & -> & Hrest)%IH.
      by exists (String c pre), ws, post.
Qed.

(** X5. Every table name that [get_table_references] extracts is a
    non-empty run of word characters that stands, on some line of the
    content, after the word [REFERENCES] in capitals and a non-empty run
    of white space, and that ends where the line ends or a character
    other than a word character follows. *)
Theorem get_table_references_sound (sql_content m : string) :
  m ∈ get_table_references sql_content →
  m ≠ "" ∧ all_chars PyStr.is_word m
  ∧ ∃ line pre ws post,
      line ∈ PyStr.split "010"%char sql_content
      ∧ line = pre +:+ "REFERENCES" +:+ ws +:+ m +:+ post
      ∧ ws ≠ "" ∧ all_chars PyStr.is_space ws
      ∧ ∀ c rest, post = String c rest → PyStr.is_word c = false.
Proof.
  intros (line & Hline & _ & Hm)%elem_of_get_table_references.
  apply re_search_references_spec in Hm
    as (pre & ws & post & Heq & Hws & Hsp & Hne & Hword & Hpost).
  split_and!; [done..|]. exists line, pre, ws, post. by split_and!.
Qed.

Lemma get_table_references_sound_witness :
  "a_users" ≠ "" ∧ all_chars PyStr.is_word "a_users"
  ∧ ∃ line pre ws post,
      line ∈ PyStr.split "010"%char
               "CREATE TABLE b_orders (user_id INT REFERENCES a_users(id));"
      ∧ line = pre +:+ "REFERENCES" +:+ ws +:+ "a_users" +:+ post
      ∧ ws ≠ "" ∧ all_chars PyStr.is_space ws
      ∧ ∀ c rest, post = String c rest → PyStr.is_word c = false.
Proof.
  apply (get_table_references_sound
           "CREATE TABLE b_orders (user_id INT REFERENCES a_users(id));").
  by_computation.
Defined.

Lemma get_table_references_size lines (acc : gset string) :
  size (foldl
          (λ references line,
             if PyStr.contains "REFERENCES" line then
               match re_search_references line with
               | Some m => {[ m ]} ∪ references
               | None => references
               end
             else references) acc lines)
  ≤ size acc
    + length (filter (λ line, PyStr.contains "REFERENCES" line = true) lines).
Proof.
  revert acc. induction lines as [|l lines IH]; intros acc; simpl; [lia|].
  etrans; [apply IH|].
  destruct (PyStr.contains "REFERENCES" l) eqn:Hc.
  - rewrite filter_cons_True by done. simpl.
    destruct (re_search_references l) as [m|]; [|lia].
    pose proof (size_union_alt ({[ m ]} : gset string) acc) as Hsz.
    rewrite size_singleton in Hsz.
    pose proof (subseteq_size (acc ∖ {[ m ]}) acc ltac:(set_solver)). lia.
  - rewrite filter_cons_False by (by rewrite Hc). lia.
Qed.

(** X6. A line yields at most one table name, however many [REFERENCES]
    clauses it holds: there are no more names than lines that contain
    [REFERENCES]. *)
Theorem get_table_references_one_per_line (sql_content : string) :
  size (get_table_references sql_content)
  ≤ length (filter (λ line, PyStr.contains "REFERENCES" line = true)
                   (PyStr.split "010"%char sql_content)).
Proof.
  unfold get_table_references.
  etrans; [apply get_table_references_size|]. by rewrite size_empty.
Qed.

Lemma string_app_assoc s t u : (s +:+ t) +:+ u = s +:+ (t +:+ u).
Proof.
  induction s as [|c s IH]; [done|]. by rewrite !string_app_cons, IH.
Qed.

(** X7. A marker of autocommit mode counts wherever it stands: content
    that calls for autocommit mode still does so within any surrounding
    text, such as a comment. *)
Theorem requires_autocommit_context (pre sql post : string) :
  requires_autocommit sql = true →
  requires_autocommit (pre +:+ sql +:+ post) = true.
Proof.
  rewrite !requires_autocommit_spec.
  intros (stmt & a & b & Hstmt & Heq).
  exists stmt, (PyStr.upper pre +:+ a), (b +:+ PyStr.upper post).
  split; [done|]. rewrite !upper_app, Heq.
  by rewrite !string_app_assoc.
Qed.

Lemma requires_autocommit_context_witness :
  requires_autocommit ("-- was: " +:+ "drop database old" +:+ ";
CREATE TABLE t (id INT);") = true.
Proof.
  apply requires_autocommit_context. reflexivity.
Defined.

(** *** White space around the content *)

Lemma is_space_upper_char c :
  PyStr.is_space (PyStr.upper_char c) = PyStr.is_space c.
Proof. by destruct c as [[] [] [] [] [] [] [] []]. Qed.

Lemma all_space_upper s :
  all_chars PyStr.is_space s → all_chars PyStr.is_space (PyStr.upper s).
Proof.
  unfold PyStr.upper. induction s as [|c s IH]; [done|].
  cbn [PyStr.map_chars]. rewrite !all_chars_cons, is_space_upper_char.
  intros [? ?]. split; [done|]. by apply IH.
Qed.

Lemma lstrip_all_space s : all_chars PyStr.is_space s → PyStr.lstrip s = "".
Proof.
  induction s as [|c s IH]; [done|]. rewrite all_chars_cons.
  intros [Hc Hs]. simpl. rewrite Hc. by apply IH.
Qed.

Lemma rstrip_all_space s : all_chars PyStr.is_space s → PyStr.rstrip s = "".
Proof.
  induction s as [|c s IH]; [done|]. rewrite all_chars_cons.
  intros [Hc Hs]. simpl. by rewrite IH, Hc.
Qed.

Lemma lstrip_space_app a s :
  all_chars PyStr.is_space a → PyStr.lstrip (a +:+ s) = PyStr.lstrip s.
Proof.
  induction a as [|c a IH]; [done|]. rewrite all_chars_cons.
  intros [Hc Ha]. rewrite string_app_cons. simpl. rewrite Hc. by apply IH.
Qed.

Lemma rstrip_app_space s b :
  all_chars PyStr.is_space b → PyStr.rstrip (s +:+ b) = PyStr.rstrip s.
Proof.
  intros Hb. induction s as [|c s IH].
  - rewrite string_app_nil. by apply rstrip_all_space.
  - rewrite string_app_cons. simpl. by rewrite IH.
Qed.

Lemma strip_app_space s b :
  all_chars PyStr.is_space b → PyStr.strip (s +:+ b) = PyStr.strip s.
Proof.
  intros Hb. unfold PyStr.strip. induction s as [|c s IH].
  - rewrite string_app_nil. by rewrite lstrip_all_space.
  - rewrite string_app_cons. simpl. destruct (PyStr.is_space c); [done|].
    by apply (rstrip_app_space (String c s)).
Qed.

Lemma strip_space_around a s b :
  all_chars PyStr.is_space a → all_chars PyStr.is_space b →
  PyStr.strip (a +:+ s +:+ b) = PyStr.strip s.
Proof.
  intros Ha Hb. unfold PyStr.strip. rewrite lstrip_space_app by done.
  by apply strip_app_space.
Qed.

(** X8. White space before and after the content does not change
    whether the content counts as managing its own transaction. *)
Theorem has_transaction_block_surrounding_space (ws1 sql ws2 : string) :
  all_chars PyStr.is_space ws1 → all_chars PyStr.is_space ws2 →
  has_transaction_block (ws1 +:+ sql +:+ ws2) = has_transaction_block sql.
Proof.
  intros H1 H2. unfold has_transaction_block. cbv zeta.
  rewrite !upper_app. by rewrite strip_space_around by by apply all_space_upper.
Qed.

Lemma has_transaction_block_surrounding_space_witness :
  has_transaction_block ("
  " +:+ "start transaction; CREATE TABLE t (id INT); commit;" +:+ "
") = true.
Proof.
  rewrite has_transaction_block_surrounding_space.
  - reflexivity.
  - by_computation.
  - by_computation.
Defined.

(** *** The statements of autocommit mode *)

Lemma split_no_sep sep s fragment :
  fragment ∈ PyStr.split sep s → sep ∉ list_ascii_of_string fragment.
Proof.
  revert fragment. induction s as [|c s IH]; intros fragment; simpl.
  - intros ->%list_elem_of_singleton. apply not_elem_of_nil.
  - destruct (decide (c = sep)) as [->|Hne].
    + intros [->|Hin]%elem_of_cons; [apply not_elem_of_nil|by apply IH].
    + destruct (PyStr.split sep s) as [|h t] eqn:Hs.
      * intros ->%list_elem_of_singleton. simpl.
        rewrite not_elem_of_cons. split; [done|apply not_elem_of_nil].
      * intros [->|Hin]%elem_of_cons.
        -- simpl. rewrite not_elem_of_cons. split; [done|].
           apply IH. by left.
        -- apply IH. by right.
Qed.

Lemma occurs_lstrip a s :
  a ∈ list_ascii_of_string (PyStr.lstrip s) → a ∈ list_ascii_of_string s.
Proof.
  induction s as [|c s IH]; [done|]. simpl.
  destruct (PyStr.is_space c); [|done]. intros Ha. right. by apply IH.
Qed.

Lemma occurs_rstrip a s :
  a ∈ list_ascii_of_string (PyStr.rstrip s) → a ∈ list_ascii_of_string s.
Proof.
  induction s as [|c s IH]; [done|]. simpl.
  destruct (PyStr.rstrip s) as [|c' r'].
  - destruct (PyStr.is_space c); simpl; [by intros ?%elem_of_nil|].
    intros ->%list_elem_of_singleton. by left.
  - simpl. intros [->|Ha]%elem_of_cons; [by left|]. right. by apply IH.
Qed.

Lemma rstrip_idemp s : PyStr.rstrip (PyStr.rstrip s) = PyStr.rstrip s.
Proof.
  induction s as [|c s IH]; [done|]. simpl.
  destruct (PyStr.rstrip s) as [|c' r'] eqn:Hr.
  - destruct (PyStr.is_space c) eqn:Hc; [done|]. simpl. by rewrite Hc.
  - change (PyStr.rstrip (String c (String c' r')))
      with (match PyStr.rstrip (String c' r') with
            | "" => if PyStr.is_space c then "" else String c ""
            | String _ _ as r => String c r
            end).
    by rewrite IH.
Qed.

Lemma lstrip_rstrip_lstrip s :
  PyStr.lstrip (PyStr.rstrip (PyStr.lstrip s)) = PyStr.rstrip (PyStr.lstrip s).
Proof.
  induction s as [|c s IH]; [done|]. simpl.
  destruct (PyStr.is_space c) eqn:Hc; [done|].
  rewrite rstrip_cons_nonspace by done. simpl. by rewrite Hc.
Qed.

Lemma strip_idemp s : PyStr.strip (PyStr.strip s) = PyStr.strip s.
Proof.
  unfold PyStr.strip. by rewrite lstrip_rstrip_lstrip, rstrip_idemp.
Qed.



(** *** Content without text *)

Lemma contains_first_char needle c hay :
  PyStr.contains (String c needle) hay = true → c ∈ list_ascii_of_string hay.
Proof.
  intros (pre & post & ->)%contains_spec.
  apply occurs_app. right. rewrite string_app_cons. simpl. by left.
Qed.

Lemma requires_autocommit_blank sql :
  all_chars PyStr.is_space sql → requires_autocommit sql = false.
Proof.
  intros Hsp%all_space_upper. unfold requires_autocommit. cbv zeta.
  apply not_true_is_false. intros (stmt & Hstmt & Hc)%existsb_exists.
  unfold all_chars in Hsp. rewrite Forall_forall in Hsp.
  unfold AUTOCOMMIT_STATEMENTS in Hstmt. simpl in Hstmt.
  destruct Hstmt as [<-|[<-|[<-|[<-|[<-|[]]]]]];
    apply contains_first_char, Hsp in Hc; done.
Qed.

Lemma has_transaction_block_blank sql :
  all_chars PyStr.is_space sql → has_transaction_block sql = false.
Proof.
  intros Hsp%all_space_upper. unfold has_transaction_block. cbv zeta.
  unfold PyStr.strip. by rewrite lstrip_all_space.
Qed.

(** X10. A file without text (empty, or white space only) is applied in
    wrapped mode: its content is passed to [execute] as it is, between
    [BEGIN;] and [COMMIT;]. *)
Theorem apply_migration_blank (E : env) (f : file) (w : world) :
  all_chars PyStr.is_space (content f) → wrapped_run E f w.
Proof.
  intros Hsp. apply apply_migration_wrapped.
  - by apply requires_autocommit_blank.
  - by apply has_transaction_block_blank.
Qed.

Lemma apply_migration_blank_witness :
  wrapped_run (env_with [] [] quiet_db) (File "005_empty.sql" "
") world_start.
Proof.
  apply apply_migration_blank. by_computation.
Defined.

(** *** The first [REFERENCES] clause of a line *)

Lemma is_word_not_space c : PyStr.is_word c = true → PyStr.is_space c = false.
Proof. by destruct c as [[] [] [] [] [] [] [] []]. Qed.

Lemma span_app p a b :
  all_chars p a → (∀ c rest, b = String c rest → p c = false) →
  PyStr.span p (a +:+ b) = (a, b).
Proof.
  intros Ha Hb. induction a as [|c a IH].
  - rewrite string_app_nil. destruct b as [|c b]; [done|].
    simpl. by rewrite (Hb c b).
  - apply all_chars_cons in Ha as [Hc Ha].
    rewrite string_app_cons. simpl. by rewrite Hc, IH.
Qed.

Lemma strip_prefix_app pre s : PyStr.strip_prefix pre (pre +:+ s) = Some s.
Proof.
  induction pre as [|c pre IH]; [by destruct s|].
  rewrite string_app_cons. simpl. by rewrite decide_True.
Qed.

Lemma match_references_at_here ws m post :
  ws ≠ "" → all_chars PyStr.is_space ws →
  m ≠ "" → all_chars PyStr.is_word m →
  (∀ c rest, post = String c rest → PyStr.is_word c = false) →
  match_references_at ("REFERENCES" +:+ ws +:+ m +:+ post) = Some m.
Proof.
  intros Hws Hsp Hm Hword Hpost. unfold match_references_at.
  rewrite strip_prefix_app.
  rewrite (span_app PyStr.is_space ws (m +:+ post)); [|done|].
  - rewrite (span_app PyStr.is_word m post) by done.
    by rewrite !decide_False.
  - intros c rest Heq. destruct m as [|c' m]; [done|].
    rewrite string_app_cons in Heq. simplify_eq.
    apply all_chars_cons in Hword as [Hc _]. by apply is_word_not_space.
Qed.

(** The word [REFERENCES] does not overlap with itself: it cannot start
    inside a text that does not start with it and end inside a following
    [REFERENCES]. *)
Lemma strip_prefix_straddle x rest :
  x ≠ "" → PyStr.startswith "REFERENCES" x = false →
  PyStr.strip_prefix "REFERENCES" (x +:+ "REFERENCES" +:+ rest) = None.
Proof.
  intros Hx Hstart.
  destruct (PyStr.strip_prefix "REFERENCES" (x +:+ "REFERENCES" +:+ rest))
    as [r|] eqn:Hr; [exfalso|done].
  do 10 (destruct x as [|? x];
         [rewrite ?string_app_cons, ?string_app_nil in Hr; simpl in Hr;
          repeat case_decide; simplify_eq|]).
  rewrite ?string_app_cons in Hr. simpl in Hr.
  repeat case_decide; simplify_eq.
  assert (PyStr.startswith "REFERENCES" ("REFERENCES" +:+ x) = true) as Heq
    by (apply startswith_spec; by eexists).
  change ("REFERENCES" +:+ x)
    with (String "R" (String "E" (String "F" (String "E" (String "R"
           (String "E" (String "N" (String "C" (String "E" (String "S" x))))))))))
    in Heq.
  congruence.
Qed.

Lemma re_search_references_first pre ws m post :
  PyStr.contains "REFERENCES" pre = false →
  ws ≠ "" → all_chars PyStr.is_space ws →
  m ≠ "" → all_chars PyStr.is_word m →
  (∀ c rest, post = String c rest → PyStr.is_word c = false) →
  re_search_references (pre +:+ "REFERENCES" +:+ ws +:+ m +:+ post) = Some m.
Proof.
  intros Hpre Hws Hsp Hm Hword Hpost. induction pre as [|c pre IH].
  - rewrite string_app_nil.
    pose proof (match_references_at_here ws m post Hws Hsp Hm Hword Hpost)
      as Hhere.
    change ("REFERENCES" +:+ ws +:+ m +:+ post)
      with (String "R" ("EFERENCES" +:+ ws +:+ m +:+ post)) in *.
    cbn [re_search_references]. by rewrite Hhere.
  - cbn [PyStr.contains] in Hpre. apply orb_false_iff in Hpre as [Hstart Hpre].
    rewrite string_app_cons. cbn [re_search_references].
    rewrite <- string_app_cons.
    unfold match_references_at at 1.
    rewrite strip_prefix_straddle by done. by apply IH.
Qed.

(** X11. The first [REFERENCES] clause of a line is found: when a line of
    the content has white space and then a run of word characters after
    its first [REFERENCES], that run, up to the first character that is
    not a word character, is among the extracted table names. *)
Theorem get_table_references_first (sql_content line pre ws m post : string) :
  line ∈ PyStr.split "010"%char sql_content →
  line = pre +:+ "REFERENCES" +:+ ws +:+ m +:+ post →
  PyStr.contains "REFERENCES" pre = false →
  ws ≠ "" → all_chars PyStr.is_space ws →
  m ≠ "" → all_chars PyStr.is_word m →
  (∀ c rest, post = String c rest → PyStr.is_word c = false) →
  m ∈ get_table_references sql_content.
Proof.
  intros Hline -> Hpre Hws Hsp Hm Hword Hpost.
  apply elem_of_get_table_references.
  exists (pre +:+ "REFERENCES" +:+ ws +:+ m +:+ post). split_and!; [done| |].
  - apply contains_spec. by eexists _, _.
  - by apply re_search_references_first.
Qed.

Lemma get_table_references_first_witness :
  "users" ∈ get_table_references "CREATE TABLE orders (
  user_id INT REFERENCES users(id), item_id INT REFERENCES items(id)
);".
Proof.
  apply (get_table_references_first _
           "  user_id INT REFERENCES users(id), item_id INT REFERENCES items(id)"
           "  user_id INT " " " "users"
           "(id), item_id INT REFERENCES items(id)").
  - by_computation.
  - reflexivity.
  - reflexivity.
  - done.
  - by_computation.
  - done.
  - by_computation.
  - intros c rest [= <- _]. reflexivity.
Defined.

(** ** More on the processing of the files *)

(** X12. [process_migration_files] either returns, and then no call
    raised, or raises [SystemExit(1)], and then some call raised: no
    [psycopg2.Error] escapes it.  Either way the isolation level of the
    connection is what it was. *)
Theorem process_migration_files_outcome (E : env) (files : list file)
    (applied : gset string) (w : world) :
  ∃ evs,
    trace (process_migration_files E files applied w).2 = trace w ++ evs
    ∧ isolation_level (process_migration_files E files applied w).2
      = isolation_level w
    ∧ (((process_migration_files E files applied w).1 = Ret () ∧ clean evs)
       ∨ ((process_migration_files E files applied w).1
          = Raise (SystemExit 1) ∧ ¬ clean evs)).
Proof.
  destruct (process_migration_files_events E files applied w)
    as (evs & ok & Htr & Hiso & Hr & Hrun).
  exists evs. split_and!; [done..|].
  pose proof (run_events_clean _ _ _ _ _ _ Hrun) as Hclean.
  destruct ok.
  - left. split; [done|]. by apply Hclean.
  - right. split; [done|]. intros Hc. by apply Hclean in Hc.
Qed.

Lemma inserted_names_app evs1 evs2 :
  inserted_names (evs1 ++ evs2) = inserted_names evs1 ++ inserted_names evs2.
Proof. apply omap_app. Qed.

Lemma inserted_names_apply_calls f A :
  Forall (λ ev, apply_call f (ev_call ev)) A → inserted_names A = [].
Proof.
  induction 1 as [|[c e] A Hc _ IH]; [done|].
  change (Ev c e :: A) with ([Ev c e] ++ A).
  rewrite inserted_names_app, IH. simpl in Hc.
  by destruct Hc as [[lv ->]|[->|[->|[->|(s & _ & ->)]]]].
Qed.

Lemma inserted_names_recorded x e1 e2 e3 :
  inserted_names [Ev BEGIN e1; Ev (INSERT x) e2; Ev COMMIT e3] = [x].
Proof.
  reflexivity.
Qed.

Lemma inserted_names_tail E tr x aok tail :
  record_events E tr x aok tail false →
  inserted_names tail = [] ∨ inserted_names tail = [x].
Proof.
  unfold BEGIN, INSERT, COMMIT, ROLLBACK, inserted_names.
  inversion 1; subst; simpl; auto.
Qed.

Lemma pending_files_cons_pending applied f l :
  name f ∉ applied →
  pending_files applied (f :: l) = f :: pending_files applied l.
Proof. intros Hf. unfold pending_files. by rewrite filter_cons_True. Qed.

Lemma pending_files_cons_applied applied f l :
  name f ∈ applied →
  pending_files applied (f :: l) = pending_files applied l.
Proof.
  intros Hf. unfold pending_files. rewrite filter_cons_False; [done|].
  by intros Hn.
Qed.

Lemma run_events_inserted E applied tr files evs ok :
  run_events E applied tr files evs ok →
  inserted_names evs `prefix_of` names (pending_files applied files)
  ∧ (ok = true → inserted_names evs = names (pending_files applied files)).
Proof.
  induction 1 as [tr|tr f l evs ok Hin _ IH
                  |tr f l w0 A evs ok Hin _ _ _ HA _ _ IH
                  |tr f l w0 A tail aok Hin _ _ _ HA _ Hrec].
  - done.
  - by rewrite pending_files_cons_applied.
  - rewrite pending_files_cons_pending by done.
    rewrite inserted_names_app, (inserted_names_apply_calls f) by done.
    rewrite (inserted_names_app [_; _; _]), inserted_names_recorded.
    destruct IH as [IHpre IHeq]. unfold names in *. rewrite fmap_cons. simpl.
    split; [by apply prefix_cons|]. intros Hok. by rewrite IHeq.
  - rewrite pending_files_cons_pending by done.
    rewrite inserted_names_app, (inserted_names_apply_calls f) by done.
    unfold names. rewrite fmap_cons. simpl. split; [|done].
    destruct (inserted_names_tail _ _ _ _ _ Hrec) as [->| ->].
    + apply prefix_nil.
    + apply prefix_cons, prefix_nil.
Qed.

(** X13. The records are inserted in the order of the list and without
    gaps: the file names passed to the insert, in the order of the calls,
    are the names of the first pending files of the list, and of all of
    them when the processing returns. *)
Theorem process_inserts_in_order (E : env) (files : list file)
    (applied : gset string) (w : world) :
  ∃ evs,
    trace (process_migration_files E files applied w).2 = trace w ++ evs
    ∧ inserted_names evs `prefix_of` names (pending_files applied files)
    ∧ ((process_migration_files E files applied w).1 = Ret () →
       inserted_names evs = names (pending_files applied files)).
Proof.
  destruct (process_migration_files_events E files applied w)
    as (evs & ok & Htr & _ & Hr & Hrun).
  exists evs. destruct (run_events_inserted _ _ _ _ _ _ Hrun) as [Hpre Heq].
  split_and!; [done..|]. intros Hret. apply Heq.
  rewrite Hr in Hret. by destruct ok.
Qed.

Lemma process_inserts_in_order_witness :
  inserted_names
    (trace (process_migration_files (env_with [] [] picky_db)
              [file_own_tx; file_table; file_broken; file_later]
              {[ "001_init.sql" ]} world_start).2)
  `prefix_of` ["002_items.sql"; "003_broken.sql"; "004_later.sql"].
Proof.
  destruct (process_inserts_in_order (env_with [] [] picky_db)
              [file_own_tx; file_table; file_broken; file_later]
              {[ "001_init.sql" ]} world_start) as (evs & Htr & Hpre & _).
  simpl in Htr. rewrite Htr. exact Hpre.
Defined.

Lemma process_all_applied E files applied w :
  (∀ f, f ∈ files → name f ∈ applied) →
  (process_migration_files E files applied w).1 = Ret ()
  ∧ trace (process_migration_files E files applied w).2 = trace w
  ∧ isolation_level (process_migration_files E files applied w).2
    = isolation_level w.
Proof.
  revert w. induction files as [|f l IH]; intros w Hall; [done|].
  rewrite process_skip by (apply Hall; by left).
  destruct (IH (World (trace w) (isolation_level w)
                  (log w ++ [(INFO, "Skipping (already applied): "
                                     +:+ name f)]))) as (Hr & Htr & Hiso).
  { intros g Hg. apply Hall. by right. }
  done.
Qed.



(** X15. When [run_migrations] returns and the directory exists, every
    file of the directory is on record: its name is in the applied set, or
    an insert of its name into the tracking table returned during the
    run. *)
Theorem run_migrations_records_all `{SetIteration} (E : env)
    (applied : gset string) (w : world) :
  (run_migrations E applied w).1 = Ret () →
  dir_exists E = true →
  ∃ evs,
    trace (run_migrations E applied w).2 = trace w ++ evs
    ∧ ∀ f, f ∈ dir_glob_sql E →
           name f ∈ applied ∨ Ev (INSERT (name f)) None ∈ evs.
Proof.
  unfold run_migrations. intros Hret Hdir. rewrite Hdir in *. simpl in *.
  destruct (decide (dir_glob_sql E = [])) as [Hnil|Hnil].
  { exists []. rewrite app_nil_r. split; [done|]. rewrite Hnil.
    by intros f Hf%elem_of_nil. }
  destruct (topological_sort_names (dir_glob_sql E))
    as (sorted_files & Hsort & _ & Hnames & _).
  rewrite Hsort in *. unfold mbind, M_bind, logger in *.
  match goal with
  | |- context [process_migration_files E sorted_files applied ?w0] =>
      destruct (process_migration_files_events E sorted_files applied w0)
        as (evs & ok & Htr & _ & Hr & Hrun)
  end.
  exists evs. split; [done|]. intros f Hf.
  rewrite Hr in Hret. destruct ok; [|done].
  destruct (decide (name f ∈ applied)) as [Hin|Hin]; [by left|right].
  assert (name f ∈ names sorted_files) as (g & Heq & Hg)%list_elem_of_fmap.
  { apply Hnames, list_elem_of_fmap. eauto. }
  rewrite Heq. eapply run_events_recorded; [done..|]. by rewrite <- Heq.
Qed.

Lemma run_migrations_records_all_witness :
  ∃ evs,
    trace (@run_migrations elements_iteration
             (env_with [file_table; file_own_tx] [] quiet_db)
             {[ "001_init.sql" ]} world_start).2 = trace world_start ++ evs
    ∧ ∀ f, f ∈ [file_table; file_own_tx] →
           name f ∈ ({[ "001_init.sql" ]} : gset string)
           ∨ Ev (INSERT (name f)) None ∈ evs.
Proof.
  apply (@run_migrations_records_all elements_iteration
           (env_with [file_table; file_own_tx] [] quiet_db)).
  - vm_compute. reflexivity.
  - reflexivity.
Defined.

(** ** More on a whole run *)

Lemma connection_call_inv c :
  connection_call c →
  match c with
  | Connect _ | OpenCursor | CloseCursor | CloseConnection => True
  | _ => False
  end.
Proof.
  intros [[cs ->]|Hin]; [done|].
  rewrite !elem_of_cons, elem_of_nil in Hin.
  by destruct Hin as [->|[->|[->|[]]]].
Qed.

Lemma setup_events_inner E tr :
  Forall (λ ev, ¬ connection_call (ev_call ev)) (attempt E tr setup_calls).1.
Proof.
  eapply Forall_impl; [apply attempt_calls_in|].
  intros ev Hev Hc%connection_call_inv. simpl in *. unfold setup_calls in Hev.
  rewrite !elem_of_cons, elem_of_nil in Hev.
  by destruct Hev as [Heq|[Heq|[Heq|[]]]]; rewrite Heq in Hc.
Qed.

Lemma run_events_inner E applied tr files evs ok :
  run_events E applied tr files evs ok →
  Forall (λ ev, ¬ connection_call (ev_call ev)) evs.
Proof.
  intros Hrun%run_events_calls. eapply Forall_impl; [exact Hrun|].
  intros ev (g & _ & _ & Hcall) Hc%connection_call_inv. simpl in *.
  destruct Hcall as [[[lv Heq]|[Heq|[Heq|[Heq|(s & _ & Heq)]]]]|Hin].
  1-5: by rewrite Heq in Hc.
  unfold BEGIN, INSERT, COMMIT, ROLLBACK in Hin.
  rewrite !elem_of_cons, elem_of_nil in Hin.
  by destruct Hin as [Heq|[Heq|[Heq|[Heq|[]]]]]; rewrite Heq in Hc.
Qed.

(** X16. A run closes what it opened, once and at the very end: when
    the connection was established, the calls of the run begin with
    connecting and opening the cursor and end with closing the cursor and
    closing the connection, whatever happened in between, and nothing is
    opened or closed in between; otherwise the run makes no call but the
    failed attempt to connect, if any. *)
Theorem main_closes_what_it_opened `{SetIteration} (E : env) (w : world) :
  ∃ evs,
    trace (main E w).2 = trace w ++ evs
    ∧ (evs = []
       ∨ (∃ cs msg, evs = [Ev (Connect cs) (Some msg)])
       ∨ (∃ cs inner,
            evs = [Ev (Connect cs) None; Ev OpenCursor None] ++ inner
                  ++ [Ev CloseCursor None; Ev CloseConnection None]
            ∧ Forall (λ ev, ¬ connection_call (ev_call ev)) inner)).
Proof.
  destruct (main_run E w) as (evs & ok & Htr & _ & Hev).
  exists evs. split; [done|].
  destruct Hev as [Hurl|cs msg Hurl Hcs Hc|cs setup e Hurl Hcs Hc Hsetup
                   |cs setup files evs ok Hurl Hcs Hc Hsetup Hrun _ _ _].
  - by left.
  - right; left. by exists cs, msg.
  - right; right. exists cs, setup. split; [done|].
    pose proof (setup_events_inner E
                  (trace w ++ [Ev (Connect cs) None; Ev OpenCursor None]))
      as Hinner.
    by rewrite Hsetup in Hinner.
  - right; right. exists cs, (setup ++ [Ev FetchAll None] ++ evs).
    split; [by rewrite <- !(assoc_L (++))|].
    rewrite !Forall_app. split_and!.
    + pose proof (setup_events_inner E
                    (trace w ++ [Ev (Connect cs) None; Ev OpenCursor None]))
        as Hinner.
      by rewrite Hsetup in Hinner.
    + apply Forall_singleton. by intros Hc'%connection_call_inv.
    + by eapply run_events_inner.
Qed.

(** X17. A [psycopg2.Error] raised while the tracking table is ensured or
    read, on a connection that was established, is reported as a database
    connection error: the cursor and the connection are closed, that one
    line is logged after the opening line, and the run ends in
    [SystemExit(1)]. *)
Theorem main_setup_failure `{SetIteration} (E : env) (w : world)
    (cs msg : string) (setup : list event) :
  DATABASE_URL E = Some cs → cs ≠ "" →
  db_raises E (trace w) (Connect cs) = None →
  attempt E (trace w ++ [Ev (Connect cs) None; Ev OpenCursor None]) setup_calls
  = (setup, Raise (Psycopg2Error msg)) →
  main E w
  = (Raise (SystemExit 1),
     World (trace w ++ [Ev (Connect cs) None; Ev OpenCursor None] ++ setup
              ++ [Ev CloseCursor None; Ev CloseConnection None])
           (isolation_level w)
           (log w ++ [(INFO, "Starting migration process...");
                      (ERROR, "Database connection error: " +:+ msg)])).
Proof.
  intros Hurl Hcs Hc Hsetup.
  remember (main E w) as res eqn:Hmain.
  unfold main, database_connection in Hmain. rewrite Hurl in Hmain.
  destruct cs as [|c cs]; [done|].
  unfold mbind at 1 in Hmain. unfold M_bind at 1 in Hmain.
  unfold logger at 1 in Hmain.
  cbv beta iota in Hmain. unfold db at 1 in Hmain. cbn [trace] in Hmain.
  rewrite Hc in Hmain.
  unfold try_finally at 1 in Hmain. unfold try_except at 1 in Hmain.
  unfold mbind at 1 in Hmain. unfold M_bind at 1 in Hmain.
  unfold client at 1 in Hmain.
  cbv beta iota in Hmain. unfold try_finally at 1 in Hmain.
  rewrite main_try_block_run in Hmain. unfold add_event in Hmain.
  cbn [trace isolation_level log] in Hmain.
  rewrite <- (assoc_L (++)) in Hmain. cbn [app] in Hmain.
  rewrite Hsetup in Hmain. subst res.
  unfold mbind, M_bind, logger, sys_exit, raise. cbn.
  unfold add_event. cbn. by rewrite <- !(assoc_L (++)).
Qed.

Lemma main_setup_failure_witness :
  (@main elements_iteration (env_with [file_table] [] no_select_db)
     world_start).1 = Raise (SystemExit 1)
  ∧ log (@main elements_iteration (env_with [file_table] [] no_select_db)
           world_start).2
    = [(INFO, "Starting migration process...");
       (ERROR, "Database connection error: permission denied for table applied_migrations")].
Proof.
  rewrite (@main_setup_failure elements_iteration
             (env_with [file_table] [] no_select_db) world_start
             "postgresql://app@db/app"
             "permission denied for table applied_migrations"
             [Ev (Execute CREATE_TABLE_SQL []) None; Ev Commit None;
              Ev (Execute SELECT_SQL [])
                 (Some "permission denied for table applied_migrations")]).
  - by split.
  - reflexivity.
  - done.
  - reflexivity.
  - vm_compute. reflexivity.
Defined.

(** X18. No file is touched before the tracking table is in place and
    read: when a run makes any call other than those of the session
    itself, such as a statement of a file or the insert of a record, its
    calls begin with connecting, opening the cursor, ensuring the table,
    committing, selecting the applied names and fetching them, and all of
    these returned. *)
Theorem main_setup_first `{SetIteration} (E : env) (w : world) :
  ∃ evs,
    trace (main E w).2 = trace w ++ evs
    ∧ ∀ ev, ev ∈ evs → ¬ session_call (ev_call ev) →
            ∃ cs rest,
              evs = [Ev (Connect cs) None; Ev OpenCursor None] ++ setup_done
                    ++ rest.
Proof.
  destruct (main_run E w) as (evs & ok & Htr & _ & Hev).
  exists evs. split; [done|]. intros ev Hin Hcall.
  destruct Hev as [Hurl|cs msg Hurl Hcs Hc|cs setup e Hurl Hcs Hc Hsetup
                   |cs setup files evs ok Hurl Hcs Hc Hsetup Hrun _ _ _].
  - by apply elem_of_nil in Hin.
  - apply list_elem_of_singleton in Hin as ->. destruct Hcall. left. by eexists.
  - exfalso. apply Hcall.
    pose proof (setup_events_session E
                  (trace w ++ [Ev (Connect cs) None; Ev OpenCursor None]))
      as Hsession.
    rewrite Hsetup in Hsession. simpl in Hsession.
    rewrite Forall_forall in Hsession.
    rewrite !elem_of_app in Hin. destruct Hin as [Hin|[Hin|Hin]].
    + rewrite !elem_of_cons, elem_of_nil in Hin.
      destruct Hin as [->|[->|[]]]; [left; by eexists|].
      right. simpl. set_solver.
    + by apply Hsession.
    + rewrite !elem_of_cons, elem_of_nil in Hin.
      destruct Hin as [->|[->|[]]]; right; simpl; set_solver.
  - exists cs, (evs ++ [Ev CloseCursor None; Ev CloseConnection None]).
    pose proof (attempt_Ret E
                  (trace w ++ [Ev (Connect cs) None; Ev OpenCursor None])
                  setup_calls) as Hret.
    rewrite Hsetup in Hret. simpl in Hret. rewrite Hret by done.
    reflexivity.
Qed.

Lemma main_setup_first_witness :
  ∃ cs rest,
    trace (@main elements_iteration
             (env_with [file_table] [] quiet_db) world_start).2
    = [Ev (Connect cs) None; Ev OpenCursor None] ++ setup_done ++ rest.
Proof.
  destruct (@main_setup_first elements_iteration
              (env_with [file_table] [] quiet_db) world_start)
    as (evs & Htr & Hfirst).
  simpl in Htr. rewrite Htr.
  apply (Hfirst (Ev (INSERT "002_items.sql") None)).
  - rewrite <- Htr. by_computation.
  - intros Hs. by apply (session_call_not_INSERT _ "002_items.sql") in Hs.
Defined.

(** ** The order in which a set of references is enumerated *)

Lemma iter_small `{SetIteration} (X : gset string) :
  size X ≤ 1 → iter X = elements X.
Proof.
  intros Hsize. pose proof (iter_perm X) as Hperm.
  unfold size, set_size in Hsize. simpl in Hsize.
  destruct (elements X) as [|a [|b l]]; simpl in Hsize.
  - by apply Permutation_nil_r.
  - by apply Permutation_singleton_r.
  - lia.
Qed.

Lemma deps_of_small (I1 I2 : SetIteration) fs x :
  (∀ f, f ∈ fs → size (get_table_references (content f)) ≤ 1) →
  @deps_of I1 (build_dependencies fs) x = @deps_of I2 (build_dependencies fs) x.
Proof.
  intros Hsmall. unfold deps_of.
  destruct (build_dependencies fs !! x) as [r|] eqn:Hr; [|done].
  apply build_dependencies_foldl_Some in Hr as [Hr|(f & Hf & ->)];
    [by rewrite lookup_empty in Hr|].
  by rewrite !iter_small by by apply Hsmall.
Qed.

Lemma for_each_ext {A S : Type} (body1 body2 : A → S → option S) l s :
  (∀ x s', body1 x s' = body2 x s') →
  for_each body1 l s = for_each body2 l s.
Proof.
  intros Hext. revert s. induction l as [|x l IH]; intros s; [done|].
  simpl. rewrite Hext. by destruct (body2 x s).
Qed.

Lemma visit_iteration (I1 I2 : SetIteration) fs deps fuel x st :
  (∀ y, @deps_of I1 deps y = @deps_of I2 deps y) →
  @visit I1 fs deps fuel x st = @visit I2 fs deps fuel x st.
Proof.
  intros Hdeps. revert x st.
  induction fuel as [|fuel IH]; intros x st; [done|].
  cbn [visit]. destruct (decide (x ∈ visited st)); [done|].
  rewrite Hdeps.
  rewrite (for_each_ext _
             (λ dep_table st',
                match find_dep_file fs dep_table with
                | Some dep_file => @visit I2 fs deps fuel (name dep_file) st'
                | None => Some st'
                end)); [done|].
  intros t s'. by destruct (find_dep_file fs t).
Qed.

(** X19. The order in which Python enumerates a set of references only
    matters for a file with several references: when no file holds more
    than one, [topological_sort] returns the same list whatever that order
    is.  With two references in one file the result can depend on it:
    for [files_two_references], enumerating the set one way or the other
    gives two different lists. *)
Theorem topological_sort_iteration_order (I1 I2 : SetIteration)
    (files : list file) :
  ((∀ f, f ∈ files → size (get_table_references (content f)) ≤ 1) →
   @topological_sort I1 files = @topological_sort I2 files)
  ∧ @topological_sort elements_iteration files_two_references
    ≠ @topological_sort reverse_iteration files_two_references.
Proof.
  split; [|by vm_compute].
  intros Hsmall. unfold topological_sort.
  rewrite (for_each_ext _
    (λ f st, @visit I2 (sorted_by_name files)
               (build_dependencies (sorted_by_name files))
               (S (length (sorted_by_name files))) (name f) st)); [done|].
  intros f st. apply visit_iteration. intros y. apply deps_of_small.
  intros g Hg. apply Hsmall. by rewrite sorted_by_name_perm in Hg.
Qed.

Lemma topological_sort_iteration_order_witness :
  @topological_sort elements_iteration files_cyclic
  = @topological_sort reverse_iteration files_cyclic.
Proof.
  apply (proj1 (topological_sort_iteration_order
                  elements_iteration reverse_iteration files_cyclic)).
  intros f Hf.
  apply (Forall_forall
           (λ f, size (get_table_references (content f)) ≤ 1) files_cyclic);
    [|done].
  by_computation.
Defined.

(** ** Case of letters *)

Lemma get_table_references_no_keyword sql :
  (∀ line, line ∈ PyStr.split "010"%char sql →
           PyStr.contains "REFERENCES" line = false) →
  get_table_references sql = ∅.
Proof.
  intros Hnone. apply elem_of_equiv_empty_L. intros m.
  rewrite elem_of_get_table_references. intros (line & Hin & Hc & _).
  rewrite Hnone in Hc by done. done.
Qed.

(** Text in lower case does not contain the upper-case word. *)
Lemma contains_REFERENCES_lower s :
  PyStr.contains "REFERENCES" (PyStr.lower s) = false.
Proof.
  destruct (PyStr.contains "REFERENCES" (PyStr.lower s)) eqn:Hc; [|done].
  apply contains_REFERENCES_occurs, occurs_lower in Hc as [c Hc].
  symmetry in Hc. by apply lower_char_not_upper_R in Hc.
Qed.

Lemma requires_autocommit_lowercase pre post :
  requires_autocommit (pre +:+ "create database" +:+ post) = true.
Proof.
  apply requires_autocommit_spec.
  exists "CREATE DATABASE", (PyStr.upper pre), (PyStr.upper post).
  split; [by left|]. rewrite !upper_app. reflexivity.
Qed.

Lemma has_transaction_block_lowercase rest :
  has_transaction_block ("begin" +:+ rest) = true.
Proof.
  apply has_transaction_block_spec. left.
  exists (PyStr.rstrip (PyStr.upper rest)). rewrite upper_app.
  change (PyStr.upper "begin" +:+ PyStr.upper rest)
    with (String "B" (String "E" (String "G" (String "I"
            (String "N" (PyStr.upper rest)))))).
  unfold PyStr.strip. cbn [PyStr.lstrip].
  change (PyStr.is_space "B") with false. cbv iota.
  by rewrite !rstrip_cons_nonspace by reflexivity.
Qed.

(** A text without the separator is its own single fragment. *)
Lemma split_self sep s :
  sep ∉ list_ascii_of_string s → PyStr.split sep s = [s].
Proof.
  induction s as [|c s IH]; [done|]. simpl.
  rewrite not_elem_of_cons. intros [Hne Hs].
  rewrite decide_False by done. by rewrite IH.
Qed.

(** What a line of a content yields when it is taken on its own. *)
Lemma get_table_references_line sql line m :
  line ∈ PyStr.split "010"%char sql →
  m ∈ get_table_references line
  ↔ PyStr.contains "REFERENCES" line = true
    ∧ re_search_references line = Some m.
Proof.
  intros Hline. rewrite elem_of_get_table_references.
  rewrite (split_self _ line) by (by eapply split_no_sep).
  split.
  - by intros (l & ->%list_elem_of_singleton & Hc & Hm).
  - intros [Hc Hm]. exists line. split_and!; [by left|done..].
Qed.

(** The references of a content are those of its lines that contain the
    upper-case word, each line taken on its own. *)
Lemma get_table_references_lines sql :
  get_table_references sql
  = ⋃ (get_table_references
         <$> filter (λ line, PyStr.contains "REFERENCES" line = true)
                    (PyStr.split "010"%char sql)).
Proof.
  apply set_eq. intros m.
  rewrite elem_of_get_table_references, elem_of_union_list. split.
  - intros (line & Hline & Hc & Hm).
    exists (get_table_references line). split.
    + apply list_elem_of_fmap. exists line. split; [done|].
      by apply list_elem_of_filter.
    + by apply (get_table_references_line sql).
  - intros (X & (line & -> & [Hc Hline]%list_elem_of_filter)%list_elem_of_fmap
              & Hm).
    apply (get_table_references_line sql) in Hm as [_ Hm]; [|done].
    by exists line.
Qed.

(** C10. Reference extraction looks for the upper-case word only, line by
    line: in every content, the referenced tables are those of the lines
    that contain [REFERENCES], each taken on its own, so a line that holds
    the word in lower case only contributes nothing, whatever the other
    lines hold; text in lower case never contains the upper-case word; and
    every dependency of a file comes from a line of its content that
    contains [REFERENCES].  Mode detection upper-cases the content first:
    two contents with the same upper-case form get the same answers, so
    [create database] selects autocommit mode and a leading [begin]
    self-managed mode. *)
Theorem case_sensitivity :
  (∀ sql,
     get_table_references sql
     = ⋃ (get_table_references
            <$> filter (λ line, PyStr.contains "REFERENCES" line = true)
                       (PyStr.split "010"%char sql)))
  ∧ (∀ sql line m,
       line ∈ PyStr.split "010"%char sql →
       PyStr.contains "REFERENCES" line = false →
       get_table_references line = ∅
       ∧ (m ∈ get_table_references sql →
          ∃ line', line' ∈ PyStr.split "010"%char sql ∧ line' ≠ line
                   ∧ PyStr.contains "REFERENCES" line' = true
                   ∧ m ∈ get_table_references line'))
  ∧ (∀ s, PyStr.contains "REFERENCES" (PyStr.lower s) = false)
  ∧ (∀ sql, (∀ line, line ∈ PyStr.split "010"%char sql →
                     PyStr.contains "REFERENCES" line = false) →
            get_table_references sql = ∅)
  ∧ (∀ files f g,
       depends_on files f g →
       ∃ line t, line ∈ PyStr.split "010"%char (content f)
                 ∧ PyStr.contains "REFERENCES" line = true
                 ∧ t ∈ get_table_references line
                 ∧ find_dep_file (sorted_by_name files) t = Some g)
  ∧ (∀ s s', PyStr.upper s = PyStr.upper s' →
             requires_autocommit s = requires_autocommit s'
             ∧ has_transaction_block s = has_transaction_block s')
  ∧ (∀ E f w pre post,
       content f = pre +:+ "create database" +:+ post →
       requires_autocommit (content f) = true ∧ autocommit_run E f w)
  ∧ (∀ E f w rest,
       content f = "begin" +:+ rest →
       has_transaction_block (content f) = true
       ∧ (requires_autocommit (content f) = false → self_managed_run E f w)).
Proof.
  split_and!.
  - apply get_table_references_lines.
  - intros sql line m Hline Hnone. split.
    + apply get_table_references_no_keyword. intros l Hl.
      rewrite (split_self _ line) in Hl by (by eapply split_no_sep).
      by apply list_elem_of_singleton in Hl as ->.
    + intros (line' & Hline' & Hc & Hm)%elem_of_get_table_references.
      exists line'. split_and!; [done| |done|].
      * intros ->. congruence.
      * by apply (get_table_references_line sql).
  - apply contains_REFERENCES_lower.
  - apply get_table_references_no_keyword.
  - intros files f g (_ & t & Ht & Hg).
    apply elem_of_get_table_references in Ht as (line & Hline & Hc & Hm).
    exists line, t. split_and!; [done..| |done].
    by apply (get_table_references_line (content f)).
  - intros s s' Heq. unfold requires_autocommit, has_transaction_block.
    by rewrite Heq.
  - intros E f w pre post Hc.
    assert (requires_autocommit (content f) = true) as Hauto
      by (rewrite Hc; apply requires_autocommit_lowercase).
    split; [done|]. by apply apply_migration_autocommit.
  - intros E f w rest Hc.
    assert (has_transaction_block (content f) = true) as Htx
      by (rewrite Hc; apply has_transaction_block_lowercase).
    split; [done|]. intros Hauto. by apply apply_migration_self_managed.
Qed.

(** C10 on a content with the word in upper case on one line and in lower
    case on the next, on [create database] and on a leading [begin]. *)
Lemma case_sensitivity_witness :
  get_table_references "CREATE TABLE a (
  d_id INT REFERENCES d,
  e_id INT references e
);" = get_table_references "  d_id INT REFERENCES d,"
  ∧ get_table_references "  e_id INT references e" = ∅
  ∧ autocommit_run (env_with [] [] picky_db) file_create_db world_start
  ∧ self_managed_run (env_with [] [] picky_db) file_own_tx world_start.
Proof.
  destruct case_sensitivity
    as (Hlines & Hline & _ & _ & _ & _ & Hauto & Htx).
  split_and!.
  - rewrite Hlines. vm_compute. reflexivity.
  - apply (Hline "CREATE TABLE a (
  d_id INT REFERENCES d,
  e_id INT references e
);" _ ""); [by_computation|reflexivity].
  - apply (Hauto _ _ _ "" " app; ;
CREATE TABLE BOOM;
CREATE TABLE late (id INT);"). reflexivity.
  - apply (Htx _ _ _ "; CREATE TABLE users (id INT); commit;");
      reflexivity.
Defined.

(** ** The depth of the recursion *)

Lemma for_each_mono {A S : Type} (body1 body2 : A → S → option S) l s s' :
  (∀ x s1 s2, body1 x s1 = Some s2 → body2 x s1 = Some s2) →
  for_each body1 l s = Some s' → for_each body2 l s = Some s'.
Proof.
  intros Hmono. revert s. induction l as [|x l IH]; intros s; [done|].
  simpl. destruct (body1 x s) as [s1|] eqn:Hb; [|done].
  rewrite (Hmono _ _ _ Hb). apply IH.
Qed.

(** A call of [visit] that returns with room for [fuel] nested calls
    returns the same with room for more. *)
Lemma visit_fuel_mono `{SetIteration} fs deps fuel fuel' x st st' :
  fuel ≤ fuel' →
  visit fs deps fuel x st = Some st' → visit fs deps fuel' x st = Some st'.
Proof.
  revert fuel' x st st'.
  induction fuel as [|fuel IH]; intros fuel' x st st' Hle; [done|].
  destruct fuel' as [|fuel']; [lia|]. cbn [visit].
  destruct (decide (x ∈ visited st)); [done|].
  destruct (for_each _ (deps_of deps x) _) as [st2|] eqn:Hloop; [|done].
  eapply (for_each_mono _
            (λ dep_table st',
               match find_dep_file fs dep_table with
               | Some dep_file => visit fs deps fuel' (name dep_file) st'
               | None => Some st'
               end)) in Hloop.
  - by rewrite Hloop.
  - intros t s1 s2. destruct (find_dep_file fs t); [|done].
    apply IH. lia.
Qed.

Lemma topological_sort_within_mono `{SetIteration} depth depth' files out :
  depth ≤ depth' →
  topological_sort_within depth files = Some out →
  topological_sort_within depth' files = Some out.
Proof.
  intros Hle. unfold topological_sort_within.
  destruct (for_each _ (sorted_by_name files) _) as [st|] eqn:Hloop; [|done].
  intros [= <-].
  eapply (for_each_mono _
            (λ f st, visit (sorted_by_name files)
                       (build_dependencies (sorted_by_name files))
                       depth' (name f) st)) in Hloop.
  - by rewrite Hloop.
  - intros f s1 s2. by apply visit_fuel_mono.
Qed.

(** [topological_sort] is the function on a stack with room for one call
    more than there are files. *)
Lemma topological_sort_unfold `{SetIteration} files :
  topological_sort files
  = topological_sort_within (S (length (sorted_by_name files))) files.
Proof. reflexivity. Qed.

(** Whatever the room on the stack, a call that returns returns what
    [topological_sort] gives. *)
Lemma topological_sort_within_Some `{SetIteration} depth files out :
  topological_sort_within depth files = Some out →
  topological_sort files = Some out.
Proof.
  intros Hout.
  destruct (topological_sort_names files) as (out' & Hout' & _).
  rewrite Hout'. f_equal.
  rewrite topological_sort_unfold in Hout'.
  set (d := S (length (sorted_by_name files))) in *.
  apply (topological_sort_within_mono _ (depth `max` d)) in Hout; [|lia].
  apply (topological_sort_within_mono _ (depth `max` d)) in Hout'; [|lia].
  congruence.
Qed.

Lemma topological_sort_within_returns `{SetIteration} depth files :
  length files < depth → is_Some (topological_sort_within depth files).
Proof.
  intros Hlen. unfold topological_sort_within.
  destruct (visit_all_terminates (sorted_by_name files)
              (build_dependencies (sorted_by_name files))
              depth (sorted_by_name files) (Dfs ∅ []))
    as (st & Hrun & _); [done|simpl; set_solver| |].
  - by rewrite length_sorted_by_name.
  - rewrite Hrun. by eexists.
Qed.

(** *** A chain of references *)

Lemma repeat_char_chars c n x :
  x ∈ list_ascii_of_string (repeat_char c n) → x = c.
Proof.
  induction n as [|n IH]; simpl; [by intros ?%elem_of_nil|].
  intros [->|Hx]%elem_of_cons; [done|by apply IH].
Qed.

Lemma chain_table_chars i x :
  x ∈ list_ascii_of_string (chain_table i) →
  x ∈ list_ascii_of_string "tab_".
Proof.
  unfold chain_table, chain_code. rewrite !occurs_app.
  intros [Hx|[[Hx|Hx]|Hx]].
  - apply list_elem_of_singleton in Hx as ->. by_computation.
  - apply repeat_char_chars in Hx as ->. by_computation.
  - apply repeat_char_chars in Hx as ->. by_computation.
  - apply list_elem_of_singleton in Hx as ->. by_computation.
Qed.

Lemma chain_table_app i s :
  chain_table i +:+ s
  = String "t" (repeat_char "a" (i / 32) +:+ repeat_char "b" (i mod 32)
                +:+ String "_" s).
Proof. unfold chain_table, chain_code. by rewrite !string_app_assoc. Qed.

Lemma repeat_b_inj r r' X Y :
  repeat_char "b" r +:+ String "_" X = repeat_char "b" r' +:+ String "_" Y →
  r = r'.
Proof.
  revert r'. induction r as [|r IH]; intros [|r']; cbn [repeat_char];
    rewrite ?string_app_cons, ?string_app_nil; intros Heq;
    [done|done|done|].
  injection Heq as Heq. f_equal. by apply IH.
Qed.

Lemma repeat_ab_inj q q' r r' X Y :
  repeat_char "a" q +:+ repeat_char "b" r +:+ String "_" X
  = repeat_char "a" q' +:+ repeat_char "b" r' +:+ String "_" Y →
  q = q' ∧ r = r'.
Proof.
  revert q'. induction q as [|q IH]; intros [|q']; cbn [repeat_char];
    rewrite ?string_app_cons, ?string_app_nil; intros Heq.
  - split; [done|]. by eapply repeat_b_inj.
  - destruct r; cbn [repeat_char] in Heq;
      rewrite ?string_app_cons, ?string_app_nil in Heq; done.
  - destruct r'; cbn [repeat_char] in Heq;
      rewrite ?string_app_cons, ?string_app_nil in Heq; done.
  - injection Heq as Heq. destruct (IH _ Heq) as [-> ->]. done.
Qed.

(** The table name of one file of the chain is the beginning of the name
    of that file only. *)
Lemma chain_table_prefix i j :
  PyStr.startswith (chain_table i) (name (chain_file j)) = true → i = j.
Proof.
  intros [rest Heq]%startswith_spec. cbn [name chain_file] in Heq.
  rewrite !chain_table_app in Heq. injection Heq as Heq.
  apply repeat_ab_inj in Heq as [Hq Hr].
  change (j / 32 = i / 32) in Hq. change (j mod 32 = i mod 32) in Hr.
  pose proof (Nat.div_mod_eq i 32). pose proof (Nat.div_mod_eq j 32). lia.
Qed.

Lemma chain_name_inj i j : name (chain_file i) = name (chain_file j) → i = j.
Proof.
  intros Heq. apply chain_table_prefix. rewrite <- Heq.
  apply startswith_spec. by eexists.
Qed.

Lemma NoDup_chain n : NoDup (names (chain n)).
Proof.
  unfold names, chain. rewrite <- list_fmap_compose.
  apply NoDup_fmap_2_strong; [|apply NoDup_seq].
  intros i j _ _. apply chain_name_inj.
Qed.

Lemma elem_of_chain n f : f ∈ chain n ↔ ∃ i, i < n ∧ f = chain_file i.
Proof.
  unfold chain. rewrite list_elem_of_fmap. split.
  - intros (i & -> & Hi%elem_of_seq). exists i. split; [lia|done].
  - intros (i & Hi & ->). exists i. split; [done|]. apply elem_of_seq. lia.
Qed.

(** What a file of the chain references. *)
Lemma chain_references i :
  get_table_references (content (chain_file i)) = {[ chain_table (S i) ]}.
Proof.
  assert ("010"%char ∉ list_ascii_of_string (content (chain_file i))) as Hnl.
  { cbn [content chain_file]. rewrite !occurs_app.
    intros [[Hx|[Hx|Hx]]|[Hx|[Hx|[Hx|Hx]]]];
      try apply chain_table_chars in Hx;
      revert Hx; by_computation. }
  assert (chain_table (S i) ∈ get_table_references (content (chain_file i)))
    as Hin.
  { apply (get_table_references_first _ (content (chain_file i))
             ("CREATE TABLE " +:+ chain_table i +:+ " (next_id INT ")
             " " (chain_table (S i)) ");").
    - rewrite split_self by done. by left.
    - reflexivity.
    - destruct (PyStr.contains "REFERENCES" _) eqn:Hc; [|done].
      apply contains_spec in Hc as (p1 & p2 & Hc).
      assert ("F"%char ∈ list_ascii_of_string
                ("CREATE TABLE " +:+ chain_table i +:+ " (next_id INT "))
        as HF.
      { rewrite Hc, !occurs_app. right; left. by_computation. }
      rewrite !occurs_app in HF. destruct HF as [Hx|[Hx|Hx]];
        try apply chain_table_chars in Hx;
        revert Hx; by_computation.
    - done.
    - by_computation.
    - unfold chain_table. by rewrite string_app_cons.
    - apply Forall_forall. intros x Hx%chain_table_chars. simpl in Hx.
      rewrite !elem_of_cons, elem_of_nil in Hx.
      by destruct Hx as [->|[->|[->|[->|[]]]]].
    - intros c rest [= <- _]. reflexivity. }
  assert (size (get_table_references (content (chain_file i))) ≤ 1) as Hsize.
  { etrans; [apply get_table_references_one_per_line|].
    etrans; [apply length_filter|]. by rewrite split_self. }
  apply set_eq. intros m. rewrite elem_of_singleton. split; [|by intros ->].
  intros Hm. destruct (decide (m = chain_table (S i))) as [|Hne]; [done|].
  assert (({[ m; chain_table (S i) ]} : gset string)
          ⊆ get_table_references (content (chain_file i))) as Hsub
    by set_solver.
  apply subseteq_size in Hsub.
  rewrite size_union, !size_singleton in Hsub by set_solver. lia.
Qed.

Lemma find_unique {A} (p : A → bool) (l : list A) (x : A) :
  x ∈ l → p x = true → (∀ y, y ∈ l → p y = true → y = x) →
  List.find p l = Some x.
Proof.
  induction l as [|a l IH]; intros Hx Hp Huniq; [by apply elem_of_nil in Hx|].
  simpl. destruct (p a) eqn:Hpa.
  - f_equal. apply Huniq; [by left|done].
  - apply elem_of_cons in Hx as [->|Hx]; [congruence|].
    apply IH; [done..|]. intros y Hy. apply Huniq. by right.
Qed.

Section Chain.

Context `{SetIteration}.
Variable n : nat.
Variable fs : list file.
Hypothesis fs_chain : fs ≡ₚ chain n.

Lemma chain_distinct : NoDup (names fs).
Proof. unfold names. rewrite fs_chain. apply NoDup_chain. Qed.

Lemma chain_deps_of i :
  i < n →
  deps_of (build_dependencies fs) (name (chain_file i))
  = [chain_table (S i)].
Proof.
  intros Hi. unfold deps_of.
  rewrite build_dependencies_Some; [|apply chain_distinct|].
  - rewrite chain_references, iter_small by (by rewrite size_singleton).
    apply elements_singleton.
  - rewrite fs_chain. apply elem_of_chain. eauto.
Qed.

Lemma chain_find i :
  i < n → find_dep_file fs (chain_table i) = Some (chain_file i).
Proof.
  intros Hi. apply find_unique.
  - rewrite fs_chain. apply elem_of_chain. eauto.
  - apply startswith_spec. by eexists.
  - intros g Hg Hp. rewrite fs_chain in Hg.
    apply elem_of_chain in Hg as (j & _ & ->).
    by rewrite (chain_table_prefix _ _ Hp).
Qed.

(** With the rest of the chain unmarked and less room than the rest is
    long, a call of [visit] does not return. *)
Lemma chain_visit_None fuel k st :
  fuel + k < n →
  (∀ j, k ≤ j < n → name (chain_file j) ∉ visited st) →
  visit fs (build_dependencies fs) fuel (name (chain_file k)) st = None.
Proof.
  revert k st. induction fuel as [|fuel IH]; intros k st Hk Hfresh; [done|].
  cbn [visit]. rewrite decide_False by (apply Hfresh; lia).
  rewrite chain_deps_of by lia. cbn [for_each].
  rewrite chain_find by lia.
  rewrite IH; [done|lia|].
  intros j Hj. simpl. apply not_elem_of_union. split; [|apply Hfresh; lia].
  intros Heq%elem_of_singleton%chain_name_inj. lia.
Qed.

End Chain.

Lemma sorted_by_name_head files f0 :
  f0 ∈ files → (∀ g, g ∈ files → g ≠ f0 → name_lt f0 g) →
  ∃ rest, sorted_by_name files = f0 :: rest.
Proof.
  intros Hf0 Hmin.
  pose proof (sorted_by_name_sorted files) as Hsorted.
  rewrite <- sorted_by_name_perm in Hf0.
  assert (∀ g, g ∈ sorted_by_name files → g ≠ f0 → name_lt f0 g) as Hmin'
    by (intros g Hg; apply Hmin; by rewrite <- sorted_by_name_perm).
  destruct (sorted_by_name files) as [|h rest]; [by apply elem_of_nil in Hf0|].
  exists rest. f_equal.
  destruct (decide (h = f0)) as [|Hne]; [done|exfalso].
  apply StronglySorted_inv in Hsorted as [_ Hall].
  rewrite Forall_forall in Hall.
  apply elem_of_cons in Hf0 as [->|Hf0]; [done|].
  apply (name_lt_not_le f0 h); [apply Hmin'; [by left|done]|by apply Hall].
Qed.

Lemma chain_head_first i : i ≠ 0 → name_lt (chain_file 0) (chain_file i).
Proof.
  intros Hi. unfold name_lt. cbn [name chain_file]. rewrite !chain_table_app.
  assert (i / 32 ≠ 0 ∨ i mod 32 ≠ 0) as [Hq|Hr]
    by (pose proof (Nat.div_mod_eq i 32); lia).
  - destruct (i / 32) as [|q]; [done|]. reflexivity.
  - destruct (i / 32) as [|q]; [|reflexivity].
    destruct (i mod 32) as [|r]; [done|]. reflexivity.
Qed.

(** On a chain that is longer than there is room for nested calls,
    [topological_sort] does not return, whatever the order of enumerating
    a set. *)
Lemma chain_too_deep `{SetIteration} depth n :
  depth < n → topological_sort_within depth (chain n) = None.
Proof.
  intros Hdepth. unfold topological_sort_within.
  destruct (sorted_by_name_head (chain n) (chain_file 0)) as [rest Hsorted].
  - apply elem_of_chain. exists 0. split; [lia|done].
  - intros g (i & _ & ->)%elem_of_chain Hne. apply chain_head_first.
    by intros ->.
  - assert (sorted_by_name (chain n) ≡ₚ chain n) as Hperm
      by apply sorted_by_name_perm.
    rewrite Hsorted. cbn [for_each]. rewrite <- Hsorted.
    rewrite (chain_visit_None n); [done|done|lia|].
    intros j _. simpl. apply not_elem_of_empty.
Qed.



